(** * Ore operators over a single generator: arithmetic, division,
      GCRD, LCLM and symmetric powers

    A shallow embedding of [ore_operator.py].  An operator is the list of
    its coefficients [c0; c1; ...; cn] (coefficient of the i-th power of
    the generator at index i) without trailing zeros, exactly as the
    underlying Sage polynomial stores it.  The base ring, its fraction
    field, the twisting maps and the linear-algebra solver are the
    external collaborators of the code; they are gathered in the record
    [OreAlgebra] and the laws they obey are stated as hypotheses where
    a proof needs them. *)

From Stdlib Require Import List ZArith Lia Bool Arith.
From Stdlib Require Import Ring Field.
From Stdlib Require Import QArith Qcanon Qround.
Import ListNotations.

Declare Scope K_scope.
Delimit Scope K_scope with K.

Close Scope Qc_scope.
Close Scope Q_scope.
Open Scope nat_scope.

Set Implicit Arguments.

(** ** Exceptions and results *)

(** The Python exceptions the code raises. *)
Inductive exn : Type :=
| ZeroDivisionError
| TypeError
| ValueError
| IndexError.

(** The outcome of running a piece of code: a value, a raised exception,
    or a loop that was still running when the iteration budget of the
    model ended. *)
Inductive outcome (A : Type) : Type :=
| Ret (a : A)
| Raise (e : exn)
| Diverge.

Arguments Ret {A} a.
Arguments Raise {A} e.
Arguments Diverge {A}.

Definition bind {A B : Type} (m : outcome A) (f : A -> outcome B) : outcome B :=
  match m with
  | Ret a => f a
  | Raise e => Raise e
  | Diverge => Diverge
  end.

(** ** The algebra descriptor *)

(** Entries of the auxiliary stack that the remainder-sequence strategies
    thread between two reduction steps: base-ring scalars and orders. *)
Inductive aux (K : Type) : Type :=
| AuxK (x : K)
| AuxZ (d : Z).

Arguments AuxZ {K} d.

(** Matrices are lists of rows. *)
Definition matrix (K : Type) : Type := list (list K).

(** What the code asks of a coefficient ring: the operations of Sage's
    ring elements that [content], [primitive_part] and [normalize] call.
    Elements are represented in the fraction field [K] of the ring. *)
Record RingOps (K : Type) : Type := {
  is_field : bool;                      (* [R.is_field()] *)
  fdiv : K -> K -> K;                   (* [x // y] *)
  is_unit : K -> bool;                  (* [x.is_unit()] *)
  gcd2 : K -> K -> option K;            (* [a.gcd(b)], [None] when it raises *)
  gcd_list : list K -> option K;        (* [gcd(list)], [None] when it raises *)
  nterms : K -> option nat;             (* [len(p.coefficients())] *)
  sort_key : K -> option nat;           (* degree, or number of terms *)
  tower_lc : list ((K -> K) * (K -> bool))
    (* the coefficient rings below this one, as [c.leading_coefficient()]
       reaches them from an element [c] of this ring: for each, the
       leading-coefficient map into it and its [is_unit] test *)
}.

Unset Implicit Arguments.

Record OreAlgebra : Type := {
  K : Type;
  K0 : K;
  K1 : K;
  Kadd : K -> K -> K;
  Kmul : K -> K -> K;
  Ksub : K -> K -> K;
  Kopp : K -> K;
  Kdiv : K -> K -> K;                   (* [x / y], in the fraction field *)
  Kinv : K -> K;                        (* [~x] *)
  Keqb : K -> K -> bool;
  of_int : Z -> K;                      (* [R(n)] for an integer n *)
  sigma : K -> K;                       (* the twisting map *)
  sigma_inv : K -> K;                   (* its inverse, for [sigma(x, -n)] *)
  delta : K -> K;                       (* the skew derivation *)
  base : RingOps K;                     (* the base ring R *)
  ring_of : option (RingOps K);         (* [R.ring()], if R has one *)
  frac : RingOps K;                     (* [R.fraction_field()] *)
  frac_ring_of : option (RingOps K);    (* [R.fraction_field().ring()] *)
  denom : K -> K;                       (* [c.denominator()] *)
  lcm_list : list K -> K;               (* [lcm(list)] *)
  product_rule : option (K * K * K);    (* [_product_rule()] *)
  solver : matrix K -> list (list K)    (* [_solver()] *)
}.

Set Implicit Arguments.
Unset Strict Implicit.

(** ** A null-space solver *)

(** Gaussian elimination over a field, as a solver that an algebra can be
    given.  It returns at most one vector of the null space, which is all
    that [lclm] reads of the solver's answer ([len(sol)] and [sol[0]]). *)
Section Gauss.

Variable F : Type.
Variables (f0 f1 : F) (fadd fmul : F -> F -> F) (fopp : F -> F)
          (fdivide : F -> F -> F) (feqb : F -> F -> bool).

Definition vhd (v : list F) : F := hd f0 v.

(** [sum_k w_k * x_k] *)
Fixpoint dot (w x : list F) : F :=
  match w, x with
  | a :: w', b :: x' => fadd (fmul a b) (dot w' x')
  | _, _ => f0
  end.

(** The first vector whose first entry is not zero, with the vectors
    before and after it. *)
Fixpoint split_pivot (cs : list (list F))
  : option (list (list F) * list F * list (list F)) :=
  match cs with
  | [] => None
  | c :: cs' =>
      if feqb (vhd c) f0
      then match split_pivot cs' with
           | None => None
           | Some (l1, p, l2) => Some (c :: l1, p, l2)
           end
      else Some ([], c, cs')
  end.

(** [tl x - (hd x / hd c) * tl c] *)
Definition reduce_by (c x : list F) : list F :=
  map (fun ab => fadd (fst ab) (fopp (fmul (fdivide (vhd x) (vhd c)) (snd ab))))
      (combine (tl x) (tl c)).

(** A nontrivial linear dependency between the vectors [cs] of length
    [m], if there is one: the coefficients, one per vector. *)
Fixpoint find_dep (m : nat) (cs : list (list F)) : option (list F) :=
  match m with
  | O =>
      match cs with
      | [] => None
      | _ :: cs' => Some (f1 :: repeat f0 (length cs'))
      end
  | S m' =>
      match split_pivot cs with
      | None => find_dep m' (map (@tl F) cs)
      | Some (l1, c, l2) =>
          match find_dep m' (map (reduce_by c) (l1 ++ l2)) with
          | None => None
          | Some w =>
              let a := fopp (fdivide (dot w (map vhd (l1 ++ l2))) (vhd c)) in
              Some (firstn (length l1) w ++ a :: skipn (length l1) w)
          end
      end
  end.

Definition ncols (M : matrix F) : nat :=
  match M with
  | [] => O
  | r :: _ => length r
  end.

Definition column (j : nat) (M : matrix F) : list F :=
  map (fun row => nth j row f0) M.

(** [M.transpose()] *)
Definition transpose (M : matrix F) : matrix F :=
  map (fun j => column j M) (seq 0 (ncols M)).

Definition gauss_solver (M : matrix F) : list (list F) :=
  match find_dep (length M) (transpose M) with
  | None => []
  | Some v => [v]
  end.

End Gauss.

Section Operators.

Variable Alg : OreAlgebra.

Notation "0" := (K0 Alg) : K_scope.
Notation "1" := (K1 Alg) : K_scope.
Infix "+" := (Kadd Alg) : K_scope.
Infix "*" := (Kmul Alg) : K_scope.
Infix "-" := (Ksub Alg) : K_scope.
Notation "- x" := (Kopp Alg x) : K_scope.
Infix "/" := (Kdiv Alg) : K_scope.
Local Open Scope K_scope.
Infix "=?" := (Keqb Alg) : K_scope.

Definition is0 (x : K Alg) : bool := x =? 0.

(** ** Polynomials of the associated commutative algebra *)

(** Removal of trailing zeros: what the polynomial constructor does. *)
Fixpoint norm (p : list (K Alg)) : list (K Alg) :=
  match p with
  | [] => []
  | c :: p' =>
      match norm p' with
      | [] => if is0 c then [] else [c]
      | q => c :: q
      end
  end.

Definition coef (p : list (K Alg)) (i : nat) : K Alg := nth i p 0.

Fixpoint zip_add (p q : list (K Alg)) : list (K Alg) :=
  match p, q with
  | [], _ => q
  | _, [] => p
  | a :: p', b :: q' => (a + b) :: zip_add p' q'
  end.

Definition padd (p q : list (K Alg)) : list (K Alg) := norm (zip_add p q).
Definition pneg (p : list (K Alg)) : list (K Alg) := norm (map (Kopp Alg) p).
Definition pscale (c : K Alg) (p : list (K Alg)) : list (K Alg) :=
  norm (map (fun x => c * x) p).
(** Multiplication by the generator of the commutative algebra. *)
Definition pshift (p : list (K Alg)) : list (K Alg) := norm (0 :: p).
(** [map_coefficients]: [f] is applied to the nonzero coefficients only. *)
Definition on_nonzero (f : K Alg -> K Alg) (x : K Alg) : K Alg :=
  if is0 x then 0 else f x.
Definition pmap (f : K Alg -> K Alg) (p : list (K Alg)) : list (K Alg) :=
  norm (map (on_nonzero f) p).

(** ** Operators *)

Definition op : Type := list (K Alg).

(** The parent's constructor from a coefficient list. *)
Definition mkop (l : list (K Alg)) : op := norm l.

Definition ore_zero : op := [].
Definition ore_const (c : K Alg) : op := mkop [c].
Definition ore_one : op := ore_const 1.
Definition gen : op := mkop [0; 1].

Definition is_zero (A : op) : bool :=
  match A with [] => true | _ => false end.

(** [order]: the degree of the polynomial, -1 for zero. *)
Definition order (A : op) : Z := (Z.of_nat (length A) - 1)%Z.

Definition leading_coefficient (A : op) : K Alg := last A 0.
Definition constant_coefficient (A : op) : K Alg := coef A 0.

(** [coeffs(padd)]: the coefficient vector, padded with zeros to length
    [padd + 1] when it is shorter. *)
Definition coeffs (A : op) (padd : Z) : list (K Alg) :=
  if (Z.of_nat (length A) <=? padd)%Z
  then A ++ repeat 0 (Z.to_nat (padd + 1) - length A)%nat
  else A.

(** [coefficients()]: the nonzero coefficients, by ascending index. *)
Definition coefficients (A : op) : list (K Alg) :=
  filter (fun c => negb (is0 c)) A.

Definition ore_add (A B : op) : op := mkop (padd A B).
Definition ore_neg (A : op) : op := mkop (pneg A).
Definition ore_sub (A B : op) : op := ore_add A (ore_neg B).

(** [_mul_]: the loop accumulates [coeffs[i] * (D^i * B)], where
    [D^i * B] is obtained from [D^(i-1) * B] by the twisting rule. *)
Definition twist (DiB : list (K Alg)) : list (K Alg) :=
  padd (pshift (pmap (sigma Alg) DiB)) (pmap (delta Alg) DiB).

Fixpoint mul_loop (cs : list (K Alg)) (DiB res : list (K Alg)) : list (K Alg) :=
  match cs with
  | [] => res
  | c :: cs' =>
      let DiB' := twist DiB in
      mul_loop cs' DiB' (padd res (pscale c DiB'))
  end.

Definition ore_mul (A B : op) : op :=
  if is_zero A then A
  else if is_zero B then B
  else match A with
       | [] => []
       | c0 :: cs => mkop (mul_loop cs B (pscale c0 B))
       end.

(** [A ** n] by repeated multiplication. *)
Fixpoint ore_pow (A : op) (n : nat) : op :=
  match n with
  | O => ore_one
  | S n' => ore_mul A (ore_pow A n')
  end.

(** [c * A] for a base-ring element [c]: [c] is coerced into the algebra. *)
Definition ore_scal (c : K Alg) (A : op) : op := ore_mul (ore_const c) A.

(** ** Division with remainder *)

(** The two quotient operations of the loop: [x/y] and [x//y]. *)
Inductive division : Type := TrueDiv | FloorDiv.

Definition divide (m : division) (x y : K Alg) : K Alg :=
  match m with
  | TrueDiv => x / y
  | FloorDiv => fdiv (base Alg) x y
  end.

(** The variables of the loop of [quo_rem] that change: the remainder
    [p], the divisor [q], the quotient [quo] and the division [op].
    [orddiff] is recomputed from [p] and [q] at the end of every
    iteration, as it is before the loop. *)
Record qr_state : Type := {
  qr_p : op;
  qr_q : op;
  qr_quo : op;
  qr_div : division
}.

Definition qr_orddiff (st : qr_state) : Z :=
  (order (qr_p st) - order (qr_q st))%Z.

(** [x; f x; ...; f^n x] *)
Fixpoint iterates (f : K Alg -> K Alg) (n : nat) (x : K Alg) : list (K Alg) :=
  x :: match n with
       | O => []
       | S n' => iterates f n' (f x)
       end.

(** [qlcs]: the images of the leading coefficient of the divisor under
    the powers of [sigma], up to the difference of the orders. *)
Definition qr_qlcs (self other : op) : list (K Alg) :=
  iterates (sigma Alg) (Z.to_nat (order self - order other))
           (leading_coefficient other).

(** [cfquo]: the monomial that one iteration adds to the quotient. *)
Definition cfquo_of (qlcs : list (K Alg)) (st : qr_state) : op :=
  ore_scal (divide (qr_div st) (leading_coefficient (qr_p st))
                   (nth (Z.to_nat (qr_orddiff st)) qlcs 0))
           (ore_pow gen (Z.to_nat (qr_orddiff st))).

(** The state in which the loop starts over: [p = self], [q = other]
    and [op] the true division; the quotient is kept. *)
Definition restart (self other quo : op) : qr_state :=
  {| qr_p := self; qr_q := other; qr_quo := quo; qr_div := TrueDiv |}.

(** One iteration of the [while] loop of [quo_rem]. *)
Definition qr_body (self other : op) (qlcs : list (K Alg)) (st : qr_state)
  : qr_state :=
  let currentOrder := order (qr_p st) in
  let cfquo := cfquo_of qlcs st in
  let quo := ore_add (qr_quo st) cfquo in
  let p := ore_sub (qr_p st) (ore_mul cfquo (qr_q st)) in
  if (order p =? currentOrder)%Z
  then restart self other quo
  else {| qr_p := p; qr_q := qr_q st; qr_quo := quo; qr_div := qr_div st |}.

Fixpoint qr_loop (fuel : nat) (self other : op) (qlcs : list (K Alg))
  (st : qr_state) : outcome (op * op) :=
  if (0 <=? qr_orddiff st)%Z
  then match fuel with
       | O => Diverge
       | S fuel' => qr_loop fuel' self other qlcs (qr_body self other qlcs st)
       end
  else Ret (qr_quo st, qr_p st).

(** The state in which the loop is entered. *)
Definition qr_init (self other : op) (fractionFree : bool) : qr_state :=
  {| qr_p := self; qr_q := other; qr_quo := ore_zero;
     qr_div := if fractionFree then FloorDiv else TrueDiv |}.

(** [quo_rem(self, other, fractionFree)].  When [fractionFree] is false
    and the base ring is not a field the code first moves both operands
    to the algebra over the fraction field; the representation of the
    coefficients in [K] does not change.  The loop runs at most twice
    over the orders of [self] (once before and once after it starts
    over), which bounds the iteration budget. *)
Definition quo_rem (self other : op) (fractionFree : bool)
  : outcome (op * op) :=
  if is_zero other then Raise ZeroDivisionError
  else if (order self <? order other)%Z then Ret (ore_zero, self)
  else qr_loop (2 * length self + 3)%nat self other (qr_qlcs self other)
               (qr_init self other fractionFree).

(** A cancellation step stagnates when it leaves the order of the
    remainder unchanged. *)
Definition stagnates (qlcs : list (K Alg)) (st : qr_state) : Prop :=
  order (ore_sub (qr_p st) (ore_mul (cfquo_of qlcs st) (qr_q st)))
  = order (qr_p st).

(** The states that the loop of [quo_rem(self, other, fractionFree)]
    goes through. *)
Inductive qr_reach (self other : op) (fractionFree : bool)
  : qr_state -> Prop :=
| reach_init : qr_reach self other fractionFree (qr_init self other fractionFree)
| reach_step (st : qr_state) :
    qr_reach self other fractionFree st ->
    (0 <=? qr_orddiff st)%Z = true ->
    qr_reach self other fractionFree
             (qr_body self other (qr_qlcs self other) st).

(** [A // B] and [A % B] *)
Definition floordiv (A B : op) : outcome op :=
  bind (quo_rem A B false) (fun QR => Ret (fst QR)).
Definition ore_mod (A B : op) : outcome op :=
  bind (quo_rem A B false) (fun QR => Ret (snd QR)).

(** ** Content, primitive part and normal form *)

(** [sum(R(w i) * coeffs[i] for i in xrange(len(coeffs)))] *)
Definition weighted_sum (w : Z -> Z) (cs : list (K Alg)) : K Alg :=
  fold_left (fun acc ic => acc + of_int Alg (w (Z.of_nat (fst ic))) * snd ic)
            (combine (seq 0 (length cs)) cs) 0.

(** [sum(len(p.coefficients()) for p in coeffs)], [None] when an element
    has no [coefficients]. *)
Fixpoint total_terms (R : RingOps (K Alg)) (cs : list (K Alg)) : option nat :=
  match cs with
  | [] => Some O
  | c :: cs' =>
      match nterms R c, total_terms R cs' with
      | Some n, Some m => Some (n + m)%nat
      | _, _ => None
      end
  end.

(** [list.sort(key=...)]: a stable sort by the key, [None] when the key
    of an element raises. *)
Fixpoint insert_by_key (k : nat) (x : K Alg) (l : list (nat * K Alg))
  : list (nat * K Alg) :=
  match l with
  | [] => [(k, x)]
  | (k', y) :: l' =>
      if (k <=? k')%nat then (k, x) :: l
      else (k', y) :: insert_by_key k x l'
  end.

Fixpoint sort_by_key (R : RingOps (K Alg)) (l : list (K Alg))
  : option (list (nat * K Alg)) :=
  match l with
  | [] => Some []
  | x :: l' =>
      match sort_key R x, sort_by_key R l' with
      | Some k, Some s => Some (insert_by_key k x s)
      | _, _ => None
      end
  end.

(** [content(proof)] of an operator over the ring [R]. *)
Definition content (R : RingOps (K Alg)) (A : op) (proof : bool) : K Alg :=
  if is_zero A then 1
  else if is_field R then leading_coefficient A
  else
    let cs := coefficients A in
    if Nat.eqb (length cs) 1%nat then hd 0 cs
    else
      let a := weighted_sum (fun i => 2 * i + 3)%Z cs in
      let b := weighted_sum (fun i => 3 * i - 1)%Z cs in
      let c := match gcd2 R a b with Some c => c | None => 0 end in
      let shortcut :=
        if negb proof && negb (is0 c)
        then option_map (fun n => (30 <? n)%nat) (total_terms R cs)
        else Some false in
      match shortcut with
      | None => 1
      | Some true => c
      | Some false =>
          match sort_by_key R (cs ++ [c]) with
          | None => 1
          | Some sorted =>
              match gcd_list R (map snd sorted) with
              | Some g => g
              | None => 1
              end
          end
      end.

(** [map_coefficients] of an operator *)
Definition map_coefficients (f : K Alg -> K Alg) (A : op) : op :=
  mkop (pmap f A).

Definition primitive_part (R : RingOps (K Alg)) (A : op) (proof : bool) : op :=
  let c := content R A proof in
  if c =? 1 then A
  else if is_field R then map_coefficients (fun p => p / c) A
  else map_coefficients (fun p => fdiv R p c) A.

(** [denominator] and [numerator] of an operator whose parent has the
    base ring [R], with [Rring] the ring [R.ring()] if there is one. *)
Definition denominator (R : RingOps (K Alg)) (A : op) : K Alg :=
  if negb (is_field R) then 1
  else lcm_list Alg (map (denom Alg) (coefficients A)).

(** [numerator]: the operator and the coefficient ring of its parent. *)
Definition numerator (R : RingOps (K Alg)) (Rring : option (RingOps (K Alg)))
  (A : op) : RingOps (K Alg) * op :=
  if negb (is_field R) then (R, A)
  else
    let num := ore_scal (denominator R A) A in
    match Rring with
    | Some P => (P, num)
    | None => (R, num)
    end.

(** The loop of [normalize]: [c] is replaced by its leading coefficient
    until it is a unit or lies in a ring that is its own base ring. *)
Fixpoint descend (isu : K Alg -> bool)
  (tower : list ((K Alg -> K Alg) * (K Alg -> bool))) (c : K Alg)
  : K Alg * bool :=
  if isu c then (c, true)
  else match tower with
       | [] => (c, false)
       | (lc, isu') :: tower' => descend isu' tower' (lc c)
       end.

Definition normalize_in (R : RingOps (K Alg)) (Rring : option (RingOps (K Alg)))
  (A : op) (proof : bool) : op :=
  if is_zero A then A
  else
    let (P, num0) := numerator R Rring A in
    let num := primitive_part P num0 proof in
    let (c, unit) := descend (is_unit P) (tower_lc P) (leading_coefficient num) in
    if unit then mkop (ore_scal (Kinv Alg c) num) else num.

(** [normalize(proof)] of an operator of the algebra. *)
Definition normalize (A : op) (proof : bool) : op :=
  normalize_in (base Alg) (ring_of Alg) A proof.

(** ** Remainder-sequence strategies *)

(** [sigma(x, n)]: the n-th power of the twisting map, its inverse for a
    negative [n]. *)
Definition sigma_pow (x : K Alg) (n : Z) : K Alg :=
  if (0 <=? n)%Z then Nat.iter (Z.to_nat n) (sigma Alg) x
  else Nat.iter (Z.to_nat (- n)) (sigma_inv Alg) x.

(** Modelled from the spec: [sigma.factorial(x, n)] belongs to the algebra
    descriptor, which is not among the sources; the spec calls it the
    generalized factorial over sigma, [x * sigma(x) * ... * sigma^(n-1)(x)],
    the empty product for [n <= 0]. *)
Fixpoint sfact_nat (x : K Alg) (n : nat) : K Alg :=
  match n with
  | O => 1
  | S n' => x * sfact_nat (sigma Alg x) n'
  end.

Definition sigma_factorial (x : K Alg) (n : Z) : K Alg :=
  sfact_nat x (Z.to_nat n).

Inductive strategy : Type :=
| Classic | Primitive | Improved | Subresultant | Monic.

Definition strategy_eqb (s t : strategy) : bool :=
  match s, t with
  | Classic, Classic | Primitive, Primitive | Improved, Improved
  | Subresultant, Subresultant | Monic, Monic => true
  | _, _ => false
  end.

(** What a reduction step returns, [((r1, r2), q, alpha, beta, correct)],
    and the auxiliary stack as the step leaves it (top first). *)
Record prs_out : Type := {
  po_r : op * op;
  po_q : op;
  po_alpha : K Alg;
  po_beta : K Alg;
  po_ok : bool;
  po_aux : list (aux (K Alg))
}.

(** [(-1)^n] *)
Definition sign_pow (n : Z) : K Alg := if Z.even n then 1 else Kopp Alg 1.

Definition classicPRS (r : op * op) (additional : list (aux (K Alg)))
  : outcome prs_out :=
  bind (quo_rem (fst r) (snd r) false) (fun newRem =>
  Ret {| po_r := (snd r, snd newRem); po_q := fst newRem;
         po_alpha := 1; po_beta := 1; po_ok := true;
         po_aux := additional |}).

Definition monicPRS (r : op * op) (additional : list (aux (K Alg)))
  : outcome prs_out :=
  bind (quo_rem (fst r) (snd r) false) (fun newRem =>
  Ret {| po_r := (snd r, primitive_part (base Alg) (snd newRem) true);
         po_q := fst newRem;
         po_alpha := 1; po_beta := 1; po_ok := true;
         po_aux := additional |}).

Definition primitivePRS (r : op * op) (additional : list (aux (K Alg)))
  : outcome prs_out :=
  let orddiff := (order (fst r) - order (snd r))%Z in
  let alpha := sigma_factorial (leading_coefficient (snd r)) (orddiff + 1)%Z in
  bind (quo_rem (ore_scal alpha (fst r)) (snd r) true) (fun newRem =>
  let beta := content (base Alg) (snd newRem) true in
  let r2 := map_coefficients (fun p => fdiv (base Alg) p beta) (snd newRem) in
  Ret {| po_r := (snd r, r2); po_q := fst newRem;
         po_alpha := alpha; po_beta := beta; po_ok := true;
         po_aux := additional |}).

Definition improvedPRS (r : op * op) (additional : list (aux (K Alg)))
  : outcome prs_out :=
  let d0 := order (fst r) in
  let d1 := order (snd r) in
  let orddiff := (d0 - d1)%Z in
  let lc0 := leading_coefficient (fst r) in
  let lc1 := leading_coefficient (snd r) in
  bind
    (match additional with
     | [] =>
         match gcd2 (base Alg) (sigma_pow lc0 (- orddiff)%Z) lc1 with
         | None => Raise TypeError
         | Some essentialPart =>
             let phi := 1 in
             let beta := sign_pow (orddiff + 1)%Z
                         * sigma_factorial (sigma_pow phi 1%Z) orddiff in
             Ret (essentialPart, phi, beta, additional)
         end
     | AuxZ d2 :: AuxK oldalpha :: AuxK k :: AuxK essentialPart :: AuxK phi
       :: rest =>
         let phi := oldalpha / sigma_factorial (sigma_pow phi 1%Z) (d2 - d1 - 1)%Z in
         let beta := sign_pow (orddiff + 1)%Z
                     * sigma_factorial (sigma_pow phi 1%Z) orddiff * k in
         Ret (sigma_pow essentialPart (- orddiff)%Z, phi, beta, rest)
     | _ => Raise IndexError
     end)
    (fun st =>
       let '(essentialPart, phi, beta, rest) := st in
       let k := fdiv (base Alg) lc1 essentialPart in
       if is0 k
       then Ret {| po_r := (ore_zero, ore_zero); po_q := ore_zero;
                   po_alpha := 0; po_beta := 0; po_ok := false;
                   po_aux := rest |}
       else
         let alpha := sigma_factorial k orddiff in
         let alpha2 := alpha * sigma_pow k orddiff in
         bind (quo_rem (ore_scal alpha2 (fst r)) (snd r) true) (fun newRem =>
         let r2 := map_coefficients (fun p => fdiv (base Alg) p beta)
                                    (snd newRem) in
         Ret {| po_r := (snd r, r2); po_q := fst newRem;
                po_alpha := alpha2; po_beta := beta; po_ok := true;
                po_aux := AuxZ d1 :: AuxK alpha :: AuxK k
                          :: AuxK essentialPart :: AuxK phi :: rest |})).

Definition subresultantPRS (r : op * op) (additional : list (aux (K Alg)))
  : outcome prs_out :=
  let d0 := order (fst r) in
  let d1 := order (snd r) in
  let orddiff := (d0 - d1)%Z in
  let lc0 := leading_coefficient (fst r) in
  let lc1 := leading_coefficient (snd r) in
  bind
    (match additional with
     | [] =>
         let phi := Kopp Alg 1 in
         Ret (phi, Kopp Alg 1 * sigma_factorial (sigma_pow phi 1%Z) orddiff, additional)
     | AuxZ d2 :: AuxK phi :: rest =>
         let phi := sigma_factorial (- lc0) (d0 - d1)%Z
                    / sigma_factorial (sigma_pow phi 1%Z) (d0 - d1 - 1)%Z in
         Ret (phi, Kopp Alg 1 * sigma_factorial (sigma_pow phi 1%Z) orddiff * lc0, rest)
     | _ => Raise IndexError
     end)
    (fun st =>
       let '(phi, beta, rest) := st in
       let alpha := sigma_factorial lc1 (orddiff + 1)%Z in
       bind (quo_rem (ore_scal alpha (fst r)) (snd r) true) (fun newRem =>
       let r2 := map_coefficients (fun p => fdiv (base Alg) p beta)
                                  (snd newRem) in
       Ret {| po_r := (snd r, r2); po_q := fst newRem;
              po_alpha := alpha; po_beta := beta; po_ok := true;
              po_aux := AuxZ d1 :: AuxK phi :: rest |})).

(** The dispatch of [prs(r, additional)]. *)
Definition prs_step (s : strategy) (r : op * op) (additional : list (aux (K Alg)))
  : outcome prs_out :=
  match s with
  | Classic => classicPRS r additional
  | Primitive => primitivePRS r additional
  | Improved => improvedPRS r additional
  | Subresultant => subresultantPRS r additional
  | Monic => monicPRS r additional
  end.

(** ** GCRD and XGCRD *)

(** [A in A.base_ring()]: the operator is a constant. *)
Definition in_base_ring (A : op) : bool := (order A <=? 0)%Z.

(** The strategy the driver starts with: the one supplied, and otherwise
    [classic] over a field and [improved] over any other base ring. *)
Definition start_strategy (prs : option strategy) : strategy :=
  match prs with
  | Some s => s
  | None => if is_field (base Alg) then Classic else Improved
  end.

(** The variables of the driver loop: the pair [r], the current strategy
    [prs], the stack [additional] and, for [xgcrd], the cofactors
    [((a11, a12), (a21, a22))]. *)
Record prs_config : Type := {
  pc_r : op * op;
  pc_prs : strategy;
  pc_aux : list (aux (K Alg));
  pc_cof : (op * op) * (op * op)
}.

(** One iteration of the driver loop; [cofactors] tells the loop of
    [xgcrd], which updates the cofactors, from the loop of [gcrd]. *)
Definition prs_iter (cofactors : bool) (c : prs_config) : outcome prs_config :=
  bind (prs_step (pc_prs c) (pc_r c) (pc_aux c)) (fun o =>
  if negb (po_ok o)
  then Ret {| pc_r := pc_r c; pc_prs := Primitive; pc_aux := po_aux o;
              pc_cof := pc_cof c |}
  else
    let bInv := Kinv Alg (po_beta o) in
    let '((a11, a12), (a21, a22)) := pc_cof c in
    Ret {| pc_r := po_r o; pc_prs := pc_prs c; pc_aux := po_aux o;
           pc_cof :=
             if cofactors
             then ((a21, a22),
                   (ore_scal bInv (ore_sub (ore_scal (po_alpha o) a11)
                                           (ore_mul (po_q o) a21)),
                    ore_scal bInv (ore_sub (ore_scal (po_alpha o) a12)
                                           (ore_mul (po_q o) a22))))
             else pc_cof c |}).

Fixpoint prs_loop (cofactors : bool) (fuel : nat) (c : prs_config)
  : outcome prs_config :=
  if is_zero (snd (pc_r c)) then Ret c
  else match fuel with
       | O => Diverge
       | S fuel' => bind (prs_iter cofactors c) (prs_loop cofactors fuel')
       end.

(** The configuration in which the driver loop is entered. *)
Definition prs_start (self other : op) (prs : option strategy) : prs_config :=
  {| pc_r := if (order self <? order other)%Z then (other, self)
             else (self, other);
     pc_prs := start_strategy prs;
     pc_aux := [];
     pc_cof := ((ore_one, ore_zero), (ore_zero, ore_one)) |}.

(** The last lines of [gcrd] and [xgcrd]: the primitive part is taken
    unless the strategy is still [classic]. *)
Definition prs_finish (c : prs_config) : op :=
  if negb (strategy_eqb (pc_prs c) Classic)
  then primitive_part (base Alg) (fst (pc_r c)) true
  else fst (pc_r c).

(** Every successful step lowers the order of the second operator of the
    pair, and at most one step fails, which bounds the iteration
    budget. *)
Definition prs_fuel (self other : op) : nat :=
  (length self + length other + 2)%nat.

(** [gcrd(self, other, prs=...)] for one [other]. *)
Definition gcrd (self other : op) (prs : option strategy) : outcome op :=
  if is_zero self then Ret other
  else if is_zero other then Ret self
  else if in_base_ring self || in_base_ring other then Ret ore_one
  else
    bind (prs_loop false (prs_fuel self other) (prs_start self other prs))
         (fun c => Ret (prs_finish c)).

(** What [xgcrd] hands back: a single operator on degenerate operands,
    and otherwise the triple [(r, a11, a12)]. *)
Inductive xgcrd_result : Type :=
| XOperator (g : op)
| XTriple (g s t : op).

Definition xgcrd (self other : op) (prs : option strategy)
  : outcome xgcrd_result :=
  if is_zero self then Ret (XOperator other)
  else if is_zero other then Ret (XOperator self)
  else if in_base_ring self || in_base_ring other then Ret (XOperator ore_one)
  else
    bind (prs_loop true (prs_fuel self other) (prs_start self other prs))
         (fun c => Ret (XTriple (prs_finish c)
                                (fst (fst (pc_cof c))) (snd (fst (pc_cof c))))).

(** The configurations that the driver loop goes through from [c]. *)
Inductive prs_reach (cofactors : bool) (c : prs_config) : prs_config -> Prop :=
| prs_reach_refl : prs_reach cofactors c c
| prs_reach_step (c1 c2 : prs_config) :
    prs_reach cofactors c c1 ->
    is_zero (snd (pc_r c1)) = false ->
    prs_iter cofactors c1 = Ret c2 ->
    prs_reach cofactors c c2.

(** ** LCLM and XLCLM *)

(** [rows.append(D*rows[-1])] *)
Definition extend (rows : list op) : list op :=
  rows ++ [ore_mul gen (last rows ore_zero)].

(** [Matrix(map(lambda p: p.coeffs(padd=t), rowsA + rowsB)).transpose()] *)
Definition lclm_system (rowsA rowsB : list op) (t : Z) : matrix (K Alg) :=
  transpose 0 (map (fun p => coeffs p t) (rowsA ++ rowsB)).

(** The [while len(sol) == 0] loop of [lclm]; it returns the final [t]
    and the first vector of the solution. *)
Fixpoint lclm_ladder (fuel : nat) (slv : matrix (K Alg) -> list (list (K Alg)))
  (t : Z) (rowsA rowsB : list op) (sol : list (list (K Alg)))
  : outcome (Z * list (K Alg)) :=
  match sol with
  | v :: _ => Ret (t, v)
  | [] =>
      match fuel with
      | O => Diverge
      | S fuel' =>
          let t := (t + 1)%Z in
          let rowsA := extend rowsA in
          let rowsB := extend rowsB in
          lclm_ladder fuel' slv t rowsA rowsB (slv (lclm_system rowsA rowsB t))
      end
  end.

(** The run of the ladder of [lclm] on the numerators [A] and [B]. *)
Definition lclm_search (fuel : nat) (slv : matrix (K Alg) -> list (list (K Alg)))
  (A B : op) : outcome (Z * list (K Alg)) :=
  let r := order A in
  let s := order B in
  let t := Z.max r s in
  let rowsA := Nat.iter (Z.to_nat (t - r)) extend [A] in
  let rowsB := Nat.iter (Z.to_nat (t - s)) extend [B] in
  lclm_ladder fuel slv t rowsA rowsB (slv (lclm_system rowsA rowsB t)).

(** [lclm(self, other, solver=...)] for one [other].  The loop ends when
    the solver finds a kernel vector; [fuel] bounds its iterations. *)
Definition lclm (fuel : nat) (self other : op)
  (solver_arg : option (matrix (K Alg) -> list (list (K Alg)))) : outcome op :=
  if is_zero self || is_zero other then Ret ore_zero
  else if (order self =? 0)%Z then Ret other
  else if in_base_ring other then Ret self
  else
    let A := snd (numerator (base Alg) (ring_of Alg) self) in
    let B := snd (numerator (base Alg) (ring_of Alg) other) in
    let slv := match solver_arg with Some f => f | None => solver Alg end in
    bind (lclm_search fuel slv A B) (fun tv =>
    let U := mkop (firstn (Z.to_nat (fst tv + 1 - order A)) (snd tv)) in
    Ret (mkop (ore_mul U A))).

(** [xlclm(self, other)]: [(L, L0 // A, L0 // B)], the quotients taken
    over the fraction field. *)
Definition xlclm (fuel : nat) (self other : op) : outcome (op * op * op) :=
  bind (lclm fuel self other None) (fun L =>
  bind (floordiv L self) (fun U =>
  bind (floordiv L other) (fun V =>
  Ret (L, U, V)))).

(** ** Symmetric product and symmetric power *)

(** [A(f, action=...)]: the generator acts through [action], by default
    through the identity. *)
Definition ore_call (A : op) (f : K Alg) (action : option (K Alg -> K Alg))
  : K Alg :=
  let D := match action with Some d => d | None => fun p => p end in
  fst (fold_left (fun st c => let Dif := D (snd st) in (fst st + c * Dif, Dif))
                 (tl A) (coef A 0 * f, f)).

(** The table [Dkuv] of the general case, a list of rows. *)
Definition tget (T : list (list (K Alg))) (i j : nat) : K Alg :=
  nth j (nth i T []) 0.

Fixpoint list_set (l : list (K Alg)) (j : nat) (v : K Alg) : list (K Alg) :=
  match l, j with
  | [], _ => []
  | _ :: l', O => v :: l'
  | x :: l', S j' => x :: list_set l' j' v
  end.

Fixpoint tset (T : list (list (K Alg))) (i j : nat) (v : K Alg)
  : list (list (K Alg)) :=
  match T, i with
  | [], _ => []
  | row :: T', O => list_set row j v :: T'
  | row :: T', S i' => row :: tset T' i' j v
  end.

Definition tadd (T : list (list (K Alg))) (i j : nat) (v : K Alg)
  : list (list (K Alg)) :=
  tset T i j (tget T i j + v).

(** The "push" of the table, for [i = a-1 .. 0] and [j = b-1 .. 0]. *)
Definition push_cell (pr : K Alg * K Alg * K Alg) (T : list (list (K Alg)))
  (ij : nat * nat) : list (list (K Alg)) :=
  let '(i, j) := ij in
  let '(p0, p1, p2) := pr in
  let s := sigma Alg (tget T i j) in
  let T := tadd T (S i) (S j) (s * p2) in
  let T := tadd T i (S j) (s * p1) in
  let T := tadd T (S i) j (s * p1) in
  tset T i j (delta Alg (tget T i j) + s * p0).

Definition push (pr : K Alg * K Alg * K Alg) (a b : nat)
  (T : list (list (K Alg))) : list (list (K Alg)) :=
  fold_left (push_cell pr)
    (flat_map (fun i => map (fun j => (i, j)) (rev (seq 0 b))) (rev (seq 0 a)))
    T.

(** The "reduce" of the table with the reduced forms of [A] and [B]. *)
Definition reduce_row (Bred : list (K Alg)) (b : nat)
  (T : list (list (K Alg))) (i : nat) : list (list (K Alg)) :=
  if is0 (tget T i b) then T
  else
    let T := fold_left (fun T j => tadd T i j (nth j Bred 0 * tget T i b))
                       (seq 0 b) T in
    tset T i b 0.

Definition reduce_col (Ared : list (K Alg)) (a : nat)
  (T : list (list (K Alg))) (j : nat) : list (list (K Alg)) :=
  if is0 (tget T a j) then T
  else
    let T := fold_left (fun T i => tadd T i j (nth i Ared 0 * tget T a j))
                       (seq 0 a) T in
    tset T a j 0.

Definition reduce_table (Ared Bred : list (K Alg)) (a b : nat)
  (T : list (list (K Alg))) : list (list (K Alg)) :=
  let T := fold_left (reduce_row Bred b) (seq 0 (S a)) T in
  fold_left (reduce_col Ared a) (seq 0 b) T.

(** [[Dkuv[i][j] for i in xrange(a) for j in xrange(b)]] *)
Definition table_row (a b : nat) (T : list (list (K Alg))) : list (K Alg) :=
  flat_map (fun i => map (fun j => tget T i j) (seq 0 b)) (seq 0 a).

Fixpoint sp_loop (fuel : nat) (slv : matrix (K Alg) -> list (list (K Alg)))
  (pr : K Alg * K Alg * K Alg) (Ared Bred : list (K Alg)) (a b : nat)
  (T : list (list (K Alg))) (mat : matrix (K Alg))
  (sol : list (list (K Alg))) : outcome op :=
  match sol with
  | v :: _ => Ret (mkop v)
  | [] =>
      match fuel with
      | O => Diverge
      | S fuel' =>
          let T := reduce_table Ared Bred a b (push pr a b T) in
          let mat := mat ++ [table_row a b T] in
          sp_loop fuel' slv pr Ared Bred a b T mat (slv (transpose 0 mat))
      end
  end.

(** The closed form for an operator [B] of order 1. *)
Definition sp_order_one (pr : K Alg * K Alg * K Alg) (A B : op) : op :=
  let '(p0, p1, p2) := pr in
  let D1 := ore_call gen 1 None in
  let h := Kopp Alg (coef B 0) / coef B 1 in
  if h =? D1 then A
  else
    let g := (D1 - p0 - p1 * h) / (p1 + p2 * h) in
    let p := p1 + p2 * g in
    let q := p0 + p1 * g in
    let step := ore_add (ore_scal p gen) (ore_const q) in
    let L :=
      fst (fold_left
             (fun st c =>
                let Dk := ore_mul step (snd st) in
                (if is0 c then fst st else ore_add (fst st) (ore_scal c Dk), Dk))
             (tl A) (ore_const (coef A 0), ore_one)) in
    normalize_in (frac Alg) (frac_ring_of Alg) (mkop L) false.

(** [symmetric_product(self, other, solver=...)]; the operands are moved
    to the algebra over the fraction field, which does not change their
    coefficients.  [fuel] bounds the iterations of the general case. *)
Definition symmetric_product (fuel : nat) (self other : op)
  (solver_arg : option (matrix (K Alg) -> list (list (K Alg)))) : outcome op :=
  let a := order self in
  let b := order other in
  if is_zero self || is_zero other then Ret self
  else if (Z.min a b <? 1)%Z then Ret ore_one
  else
    let '(A, B) := if (a =? 1)%Z && (1 <? b)%Z then (other, self)
                   else (self, other) in
    let a := Z.to_nat (order A) in
    let b := Z.to_nat (order B) in
    match product_rule Alg with
    | None => Raise ValueError
    | Some pr =>
        if Nat.eqb b 1 then Ret (sp_order_one pr A B)
        else
          let Ared := map (fun i => Kopp Alg (coef A i) / coef A a) (seq 0 a) in
          let Bred := map (fun j => Kopp Alg (coef B j) / coef B b) (seq 0 b) in
          let slv := match solver_arg with Some f => f | None => solver Alg end in
          let T := tset (repeat (repeat 0 (S b)) (S a)) 0 0 1 in
          let mat := [table_row a b T] in
          sp_loop fuel slv pr Ared Bred a b T mat (slv (transpose 0 mat))
    end.

(** The annihilator of the constant function 1: [D - R(D(R.one()))]. *)
Definition annihilator_of_one : op :=
  ore_sub gen (ore_const (ore_call gen 1 None)).

(** The recursion of [symmetric_power]; [depth] bounds its nesting. *)
Fixpoint symmetric_power_rec (depth fuel : nat) (self : op) (exp : Z)
  (solver_arg : option (matrix (K Alg) -> list (list (K Alg)))) : outcome op :=
  if (exp <? 0)%Z then Raise TypeError
  else if (exp =? 0)%Z then Ret annihilator_of_one
  else if (exp =? 1)%Z then Ret self
  else
    match depth with
    | O => Diverge
    | S depth' =>
        if (exp mod 2 =? 1)%Z
        then bind (symmetric_power_rec depth' fuel self (exp - 1) solver_arg)
                  (fun L => symmetric_product fuel L self solver_arg)
        else bind (symmetric_power_rec depth' fuel self (exp / 2) solver_arg)
                  (fun L => symmetric_product fuel L L solver_arg)
    end.

(** [symmetric_power(self, exp, solver=...)]: the nesting of the
    recursion is below [exp]. *)
Definition symmetric_power (fuel : nat) (self : op) (exp : Z)
  (solver_arg : option (matrix (K Alg) -> list (list (K Alg)))) : outcome op :=
  symmetric_power_rec (Z.to_nat exp) fuel self exp solver_arg.

(** ** Notions used in the proofs *)

(** An operator is well formed when it has no trailing zero. *)
Definition wf (p : list (K Alg)) : Prop := norm p = p.

(** [f 0 + ... + f (n-1)] *)
Fixpoint bigsum (n : nat) (f : nat -> K Alg) : K Alg :=
  match n with
  | O => 0
  | S n' => bigsum n' f + f n'
  end.

(** [D^i * B] as the loop of [_mul_] computes it. *)
Definition Dpow (i : nat) (B : list (K Alg)) : list (K Alg) :=
  Nat.iter i twist B.

(** The monomial [c * D^d] that [quo_rem] subtracts. *)
Definition monomial (c : K Alg) (d : nat) : op :=
  ore_scal c (ore_pow gen d).

(** Equality of coefficient lists, decided with the ring's test. *)
Fixpoint op_eqb (A B : op) : bool :=
  match A, B with
  | [], [] => true
  | a :: A', b :: B' => (a =? b) && op_eqb A' B'
  | _, _ => false
  end.

(** Whether the reduction step of the configuration reports
    [ok = false]. *)
Definition step_fails (c : prs_config) : bool :=
  match prs_step (pc_prs c) (pc_r c) (pc_aux c) with
  | Ret o => negb (po_ok o)
  | _ => false
  end.

(** Whether the triple [(G, S, T)] returned by [xgcrd] satisfies
    [S*self + T*other == G]; [None] when [xgcrd] returns no triple. *)
Definition bezout_holds (self other : op) (prs : option strategy)
  : option bool :=
  match xgcrd self other prs with
  | Ret (XTriple g s t) =>
      Some (op_eqb (ore_add (ore_mul s self) (ore_mul t other)) g)
  | _ => None
  end.

(** The operations of the null-space solver over the fraction field. *)
Definition kdot (w x : list (K Alg)) : K Alg :=
  dot 0 (Kadd Alg) (Kmul Alg) w x.

Definition kfind_dep (m : nat) (cs : list (list (K Alg))) : option (list (K Alg)) :=
  find_dep 0 1 (Kadd Alg) (Kmul Alg) (Kopp Alg) (Kdiv Alg) (Keqb Alg) m cs.

Definition field_solver (M : matrix (K Alg)) : list (list (K Alg)) :=
  gauss_solver 0 1 (Kadd Alg) (Kmul Alg) (Kopp Alg) (Kdiv Alg) (Keqb Alg) M.

(** [sum_k w_k * f(x_k)] *)
Definition wsum (A : Type) (w : list (K Alg)) (f : A -> K Alg) (l : list A)
  : K Alg :=
  kdot w (map f l).

(** The coordinate [i] of a vector. *)
Definition coord (i : nat) (c : list (K Alg)) : K Alg := nth i c 0.

(** [[A; D*A; ...; D^n*A]]: the rows that the ladder of [lclm] builds
    from [A]. *)
Definition shifted (A : op) (n : nat) : list op :=
  map (fun i => Dpow i A) (seq 0 (S n)).

(** The vectors of the system that [lclm] solves at the height [T]. *)
Definition ladder_rows (A B : op) (T : nat) : list op :=
  shifted A (T - (length A - 1)) ++ shifted B (T - (length B - 1)).

(** The coefficient of [D * p] when [sigma] and [delta] fix zero. *)
Definition twist_coef (p : list (K Alg)) (k : nat) : K Alg :=
  match k with O => 0 | S j => sigma Alg (coef p j) end + delta Alg (coef p k).

(** The contract of a solver.  A matrix is rectangular when its rows
    have one length; a vector lies in its null space when it has as many
    entries as the matrix has columns and every row times the vector is
    zero; it is not trivial when one of its entries is not zero. *)
Definition rectangular (M : matrix (K Alg)) : Prop :=
  Forall (fun row => length row = ncols M) M.

Definition in_kernel (M : matrix (K Alg)) (v : list (K Alg)) : Prop :=
  length v = ncols M /\ Forall (fun row => kdot row v = 0) M.

Definition nontrivial (v : list (K Alg)) : Prop :=
  exists x, In x v /\ x <> 0.

(** The solver answers with vectors of the null space that are not
    trivial ... *)
Definition solver_sound (slv : matrix (K Alg) -> list (list (K Alg))) : Prop :=
  forall M v, rectangular M -> In v (slv M) -> in_kernel M v /\ nontrivial v.

(** ... and its answer is not empty exactly when the null space is not
    trivial. *)
Definition solver_exact (slv : matrix (K Alg) -> list (list (K Alg))) : Prop :=
  forall M, rectangular M ->
    (slv M <> [] <-> exists v, in_kernel M v /\ nontrivial v).

(** The invariant of the division loop: the divisor is unchanged, the
    remainder is well formed and no longer than [self], and
    [quo * other + p] is [G * other + self], where [G] is the quotient
    accumulated when the division last started over ([0] when it never
    did). *)
Definition qr_inv (self other G : op) (st : qr_state) : Prop :=
  qr_q st = other /\ wf (qr_p st) /\ length (qr_p st) <= length self /\
  forall k, coef (ore_mul (qr_quo st) other) k + coef (qr_p st) k
            = coef (ore_mul G other) k + coef self k.

(** ** Further methods *)

(** [A == B] for two operators of the same algebra.  When [A] has the
    order 0 the code compares its constant coefficient with [B], which
    Sage does after coercing the coefficient into the algebra; otherwise
    it compares the polynomials. *)
Definition ore_eq (A B : op) : bool :=
  if (order A =? 0)%Z then op_eqb (ore_const (constant_coefficient A)) B
  else op_eqb A B.

(** [is_monic()]: the zero operator is not monic. *)
Definition is_monic (A : op) : bool :=
  if is_zero A then false else leading_coefficient A =? 1.

(** [A / B]: the quotient when the remainder is zero, and a
    [ValueError] otherwise. *)
Definition ore_div (A B : op) : outcome op :=
  bind (quo_rem A B false) (fun QR =>
  if ore_eq (snd QR) ore_zero then Ret (fst QR) else Raise ValueError).

(** [~A], that is [one / A]. *)
Definition invert (A : op) : outcome op := ore_div ore_one A.

(** [monic()]: the operator divided from the left by its leading
    coefficient, in the algebra over the fraction field. *)
Definition monic (A : op) : outcome op :=
  if is_zero A then Raise ZeroDivisionError
  else if is_monic A then Ret A
  else Ret (ore_scal (Kinv Alg (leading_coefficient A)) A).

(** [exponents()]: the indices of the nonzero coefficients, ascending. *)
Definition exponents (A : op) : list nat :=
  map fst (filter (fun ic => negb (is0 (snd ic)))
                  (combine (seq 0 (length A)) A)).

(** [valuation()]: [None] stands for infinity; [min] of an empty list
    raises. *)
Definition valuation (A : op) : outcome (option nat) :=
  if ore_eq A ore_zero then Ret None
  else match exponents A with
       | [] => Raise ValueError
       | e :: es => Ret (Some (fold_left Nat.min es e))
       end.

(** [is_monomial()] *)
Definition is_monomial (A : op) : bool :=
  Nat.eqb (length (exponents A)) 1 && (leading_coefficient A =? 1).

(** [A[n]] *)
Definition getitem (A : op) (n : nat) : K Alg := coef A n.

(** [annihilator_of_associate(self, other, solver=...)].  The loop
    reduces [D*B] modulo [A] and collects the coefficient vectors until
    the solver finds a dependency; [fuel] bounds its iterations.  A
    matrix is a list of rows, so the transpose of a matrix whose rows
    are empty keeps no record of how many there were: the model follows
    the code for operators [self] of order at least 1. *)
Fixpoint aoa_loop (fuel : nat) (slv : matrix (K Alg) -> list (list (K Alg)))
  (A B : op) (a : Z) (mat : matrix (K Alg)) (sol : list (list (K Alg)))
  : outcome (list (K Alg)) :=
  match sol with
  | v :: _ => Ret v
  | [] =>
      match fuel with
      | O => Diverge
      | S fuel' =>
          bind (ore_mod (ore_mul gen B) A) (fun B' =>
          let mat' := mat ++ [coeffs B' (a - 1)] in
          aoa_loop fuel' slv A B' a mat' (slv (transpose 0 mat')))
      end
  end.

Definition annihilator_of_associate (fuel : nat) (self other : op)
  (solver_arg : option (matrix (K Alg) -> list (list (K Alg)))) : outcome op :=
  if is_zero self then Ret self
  else if is_zero other then Ret ore_one
  else
    let a := order self in
    bind (ore_mod other self) (fun B =>
    let slv := match solver_arg with Some f => f | None => solver Alg end in
    let mat := [coeffs B (a - 1)] in
    bind (aoa_loop fuel slv self B a mat (slv (transpose 0 mat))) (fun v =>
    Ret (mkop v))).

(** [is_primitive()] *)
Definition is_primitive (A : op) : bool :=
  is_unit (base Alg) (content (base Alg) A true).

(** The operator [C] divides [X] from the right. *)
Definition rdivides (C X : op) : Prop := exists Q, ore_mul Q C = X.

(** The value [c0*f + c1*d(f) + ... + cn*d^n(f)] of the list [P] of
    coefficients at [f], when the generator acts as [d]. *)
Definition act (d : K Alg -> K Alg) (P : list (K Alg)) (f : K Alg) : K Alg :=
  bigsum (length P) (fun i => coef P i * Nat.iter i d f).

(** What the driver loop keeps true with the classic strategy, for the
    pair [(A0, B0)] it started from. *)
Definition classic_inv (cofactors : bool) (A0 B0 : op) (c : prs_config)
  : Prop :=
  pc_prs c = Classic /\ wf (fst (pc_r c)) /\ wf (snd (pc_r c)) /\
  fst (pc_r c) <> [] /\
  (cofactors = true ->
   (forall k, coef (ore_mul (fst (fst (pc_cof c))) A0) k
              + coef (ore_mul (snd (fst (pc_cof c))) B0) k
              = coef (fst (pc_r c)) k) /\
   (forall k, coef (ore_mul (fst (snd (pc_cof c))) A0) k
              + coef (ore_mul (snd (snd (pc_cof c))) B0) k
              = coef (snd (pc_r c)) k)) /\
  (forall C, wf C ->
     (rdivides C A0 /\ rdivides C B0)
     <-> (rdivides C (fst (pc_r c)) /\ rdivides C (snd (pc_r c)))).

End Operators.

(** ** Two algebras *)

(** The rational numbers as canonical fractions. *)
Definition Qc_eqb (x y : Qc) : bool := Qeq_bool x y.
Definition Qc_of_Z (z : Z) : Qc := Q2Qc (inject_Z z).
Definition Qc_floor (x : Qc) : Z := Qfloor x.
Definition Qc_gcd (x y : Qc) : Qc :=
  Q2Qc (Qmake (Z.gcd (Qnum x * Zpos (Qden y)) (Qnum y * Zpos (Qden x)))
              (Qden x * Qden y)).

(** The field [QQ] as a base ring: [x // y] is the floor of the quotient,
    every nonzero element is a unit, and its elements have neither
    coefficients nor a degree. *)
Definition QQ_ring : RingOps Qc := {|
  is_field := true;
  fdiv := fun x y => Qc_of_Z (Qc_floor (Qcdiv x y));
  is_unit := fun x => negb (Qc_eqb x (Qc_of_Z 0));
  gcd2 := fun x y => Some (Qc_gcd x y);
  gcd_list := fun l => Some (fold_right Qc_gcd (Qc_of_Z 0) l);
  nterms := fun _ => None;
  sort_key := fun _ => None;
  tower_lc := []
|}.

(** The ring [ZZ] as a base ring, its elements taken in [QQ]: [x // y]
    is the floor division of integers and the units are 1 and -1. *)
Definition ZZ_ring : RingOps Qc := {|
  is_field := false;
  fdiv := fun x y => Qc_of_Z (Qc_floor x / Qc_floor y);
  is_unit := fun x => Qc_eqb x (Qc_of_Z 1) || Qc_eqb x (Qc_of_Z (-1));
  gcd2 := fun x y => Some (Qc_of_Z (Z.gcd (Qc_floor x) (Qc_floor y)));
  gcd_list := fun l => Some (Qc_of_Z (fold_right Z.gcd 0%Z (map Qc_floor l)));
  nterms := fun _ => None;
  sort_key := fun _ => None;
  tower_lc := []
|}.

(** Recurrence operators with constant coefficients: the generator is
    the shift, which fixes the constants, so the twisting map is the
    identity and the skew derivation is zero.  The product rule is the
    one of a shift, [gen(u*v) = gen(u)*gen(v)]. *)
Definition const_algebra (R : RingOps Qc) : OreAlgebra := {|
  K := Qc;
  K0 := Qc_of_Z 0;
  K1 := Qc_of_Z 1;
  Kadd := Qcplus;
  Kmul := Qcmult;
  Ksub := Qcminus;
  Kopp := Qcopp;
  Kdiv := Qcdiv;
  Kinv := Qcinv;
  Keqb := Qc_eqb;
  of_int := Qc_of_Z;
  sigma := fun x => x;
  sigma_inv := fun x => x;
  delta := fun _ => Qc_of_Z 0;
  base := R;
  ring_of := None;
  frac := QQ_ring;
  frac_ring_of := None;
  denom := fun x => Qc_of_Z (Zpos (Qden x));
  lcm_list := fun l => Qc_of_Z (fold_right Z.lcm 1%Z (map Qc_floor l));
  product_rule := Some (Qc_of_Z 0, Qc_of_Z 0, Qc_of_Z 1);
  solver := gauss_solver (Qc_of_Z 0) (Qc_of_Z 1) Qcplus Qcmult Qcopp Qcdiv Qc_eqb
|}.

Definition QQ_S : OreAlgebra := const_algebra QQ_ring.
Definition ZZ_S : OreAlgebra := const_algebra ZZ_ring.

(** ** Polynomial coefficients *)

(** Polynomials in [x] over the integers: the coefficients by ascending
    degree, the last one nonzero. *)
Definition zpoly : Type := list Z.

Fixpoint zp_norm (p : list Z) : zpoly :=
  match p with
  | [] => []
  | c :: p' =>
      match zp_norm p' with
      | [] => if (c =? 0)%Z then [] else [c]
      | q => c :: q
      end
  end.

Fixpoint zp_zip (p q : list Z) : list Z :=
  match p, q with
  | [], _ => q
  | _, [] => p
  | a :: p', b :: q' => (a + b)%Z :: zp_zip p' q'
  end.

Definition zp_add (p q : zpoly) : zpoly := zp_norm (zp_zip p q).
Definition zp_scale (c : Z) (p : zpoly) : zpoly := zp_norm (map (Z.mul c) p).
Definition zp_opp (p : zpoly) : zpoly := map Z.opp p.
Definition zp_sub (p q : zpoly) : zpoly := zp_add p (zp_opp q).

Fixpoint zp_mul (p q : zpoly) : zpoly :=
  match p with
  | [] => []
  | a :: p' => zp_add (zp_scale a q) (zp_norm (0%Z :: zp_mul p' q))
  end.

Fixpoint zp_eqb (p q : zpoly) : bool :=
  match p, q with
  | [], [] => true
  | a :: p', b :: q' => (a =? b)%Z && zp_eqb p' q'
  | _, _ => false
  end.

Definition zp_lc (p : zpoly) : Z := last p 0%Z.

(** The derivative with respect to [x]. *)
Definition zp_deriv (p : zpoly) : zpoly :=
  zp_norm (map (fun ic => (Z.of_nat (S (fst ic)) * snd ic)%Z)
               (combine (seq 0 (length (tl p))) (tl p))).

(** [p // q]: the quotient of the division in which every quotient of
    leading coefficients is rounded down; division by a constant divides
    every coefficient and rounds down. *)
Fixpoint zp_div_loop (fuel : nat) (r q : zpoly) : list Z :=
  match fuel with
  | O => []
  | S fuel' =>
      if (length r <? length q)%nat then []
      else
        let k := (length r - length q)%nat in
        let c := (zp_lc r / zp_lc q)%Z in
        let r' := zp_sub r (zp_scale c (repeat 0%Z k ++ q)) in
        zp_div_loop fuel' (zp_norm (firstn (length r - 1) r')) q ++ [c]
  end.

Definition zp_div (p q : zpoly) : zpoly :=
  match q with
  | [] => []
  | _ =>
      let l := zp_div_loop (length p) p q in
      zp_norm (repeat 0%Z (length p - length q + 1 - length l) ++ l)
  end.

(** The content of a polynomial, its primitive part with a positive
    leading coefficient, and the pseudo-remainder. *)
Definition zp_content (p : zpoly) : Z := fold_right Z.gcd 0%Z p.

Definition zp_primitive (p : zpoly) : zpoly :=
  match p with
  | [] => []
  | _ => let c := (Z.sgn (zp_lc p) * zp_content p)%Z in
         zp_norm (map (fun a => (a / c)%Z) p)
  end.

Fixpoint zp_prem (fuel : nat) (r q : zpoly) : zpoly :=
  match fuel with
  | O => r
  | S fuel' =>
      if (length r <? length q)%nat then r
      else
        let k := (length r - length q)%nat in
        zp_prem fuel'
          (zp_sub (zp_scale (zp_lc q) r)
                  (zp_scale (zp_lc r) (repeat 0%Z k ++ q))) q
  end.

Fixpoint zp_gcd_loop (fuel : nat) (p q : zpoly) : zpoly :=
  match fuel with
  | O => p
  | S fuel' =>
      match q with
      | [] => p
      | _ => zp_gcd_loop fuel' q (zp_primitive (zp_prem (length p) p q))
      end
  end.

(** [p.gcd(q)], with a nonnegative leading coefficient. *)
Definition zp_gcd (p q : zpoly) : zpoly :=
  let c := Z.gcd (zp_content p) (zp_content q) in
  let (a, b) := if (length p <? length q)%nat then (q, p) else (p, q) in
  zp_scale c (zp_gcd_loop (S (length b)) (zp_primitive a) (zp_primitive b)).

(** Rational functions in [x] as fractions of two polynomials, the
    polynomials among them with the denominator 1. *)
Definition zfrac : Type := (zpoly * zpoly)%type.

Definition zq_of_poly (p : zpoly) : zfrac := (p, [1%Z]).
Definition zq_poly (x : zfrac) : zpoly :=
  if zp_eqb (snd x) [1%Z] then fst x else zp_div (fst x) (snd x).

Definition zq_add (x y : zfrac) : zfrac :=
  if zp_eqb (snd x) (snd y) then (zp_add (fst x) (fst y), snd x)
  else (zp_add (zp_mul (fst x) (snd y)) (zp_mul (fst y) (snd x)),
        zp_mul (snd x) (snd y)).
Definition zq_mul (x y : zfrac) : zfrac :=
  (zp_mul (fst x) (fst y), zp_mul (snd x) (snd y)).
Definition zq_opp (x : zfrac) : zfrac := (zp_opp (fst x), snd x).
Definition zq_sub (x y : zfrac) : zfrac := zq_add x (zq_opp y).
Definition zq_inv (x : zfrac) : zfrac :=
  if (zp_lc (fst x) <? 0)%Z then (zp_opp (snd x), zp_opp (fst x))
  else (snd x, fst x).
Definition zq_div (x y : zfrac) : zfrac := zq_mul x (zq_inv y).
Definition zq_eqb (x y : zfrac) : bool :=
  zp_eqb (zp_mul (fst x) (snd y)) (zp_mul (fst y) (snd x)).
Definition zq_of_Z (z : Z) : zfrac := zq_of_poly (zp_norm [z]).
Definition zq_deriv (x : zfrac) : zfrac :=
  (zp_sub (zp_mul (zp_deriv (fst x)) (snd x)) (zp_mul (fst x) (zp_deriv (snd x))),
   zp_mul (snd x) (snd x)).

Definition zq_is_pm1 (x : zfrac) : bool :=
  zq_eqb x (zq_of_Z 1) || zq_eqb x (zq_of_Z (-1)).
Definition zq_gcd (x y : zfrac) : zfrac :=
  zq_of_poly (zp_gcd (zq_poly x) (zq_poly y)).
Definition zq_lcm (x y : zfrac) : zfrac :=
  zq_of_poly (zp_div (zp_mul (zq_poly x) (zq_poly y))
                     (zp_gcd (zq_poly x) (zq_poly y))).

(** The ring [ZZ[x]] as a base ring.  Its units are 1 and -1, its
    elements are sorted by their degree, and the leading coefficient of
    an element lies in [ZZ], which is its own base ring. *)
Definition ZZx_ring : RingOps zfrac := {|
  is_field := false;
  fdiv := fun x y => zq_of_poly (zp_div (zq_poly x) (zq_poly y));
  is_unit := zq_is_pm1;
  gcd2 := fun x y => Some (zq_gcd x y);
  gcd_list := fun l => Some (fold_left zq_gcd l (zq_of_Z 0));
  nterms := fun x =>
    Some (length (filter (fun c => negb (c =? 0)%Z) (zq_poly x)));
  sort_key := fun x => Some (length (zq_poly x));
  tower_lc := [(fun c => zq_of_Z (zp_lc (zq_poly c)), zq_is_pm1)]
|}.

(** Its fraction field [QQ(x)]; the code computes no gcd over a field. *)
Definition QQx_field : RingOps zfrac := {|
  is_field := true;
  fdiv := zq_div;
  is_unit := fun x => negb (zq_eqb x (zq_of_Z 0));
  gcd2 := fun _ _ => None;
  gcd_list := fun _ => None;
  nterms := fun _ => None;
  sort_key := fun _ => None;
  tower_lc := []
|}.

(** Differential operators with coefficients in [ZZ[x]]: the twisting
    map is the identity and the skew derivation is [d/dx]. *)
Definition ZZx_D : OreAlgebra := {|
  K := zfrac;
  K0 := zq_of_Z 0;
  K1 := zq_of_Z 1;
  Kadd := zq_add;
  Kmul := zq_mul;
  Ksub := zq_sub;
  Kopp := zq_opp;
  Kdiv := zq_div;
  Kinv := zq_inv;
  Keqb := zq_eqb;
  of_int := zq_of_Z;
  sigma := fun x => x;
  sigma_inv := fun x => x;
  delta := zq_deriv;
  base := ZZx_ring;
  ring_of := None;
  frac := QQx_field;
  frac_ring_of := Some ZZx_ring;
  denom := fun x => zq_of_poly (snd x);
  lcm_list := fun l => fold_left zq_lcm l (zq_of_Z 1);
  product_rule := Some (zq_of_Z 0, zq_of_Z 1, zq_of_Z 0);
  solver := gauss_solver (zq_of_Z 0) (zq_of_Z 1) zq_add zq_mul zq_opp zq_div zq_eqb
|}.

(** The operator [(22*w + 1)*D + (44*w + 24)] with
    [w = 1 + x + ... + x^15], the operator [2*w*D + (4*w + 2)] and the
    operator [w*D + (2*w + 1)]. *)
Definition w15 : zpoly := repeat 1%Z 16.

Definition heuristic_input : op ZZx_D :=
  [zq_of_poly (zp_add (zp_scale 44 w15) [24%Z]);
   zq_of_poly (zp_add (zp_scale 22 w15) [1%Z])].

Definition heuristic_once : op ZZx_D :=
  [zq_of_poly (zp_add (zp_scale 4 w15) [2%Z]); zq_of_poly (zp_scale 2 w15)].

Definition heuristic_twice : op ZZx_D :=
  [zq_of_poly (zp_add (zp_scale 2 w15) [1%Z]); zq_of_poly w15].

(** ** A skew algebra over the Gaussian rationals *)

(** The field [QQ(i)], its elements as pairs [(a, b)] for [a + b*i]. *)
Definition qi : Type := (Qc * Qc)%type.
Definition qi_add (x y : qi) : qi := (Qcplus (fst x) (fst y), Qcplus (snd x) (snd y)).
Definition qi_mul (x y : qi) : qi :=
  (Qcminus (Qcmult (fst x) (fst y)) (Qcmult (snd x) (snd y)),
   Qcplus (Qcmult (fst x) (snd y)) (Qcmult (snd x) (fst y))).
Definition qi_opp (x : qi) : qi := (Qcopp (fst x), Qcopp (snd x)).
Definition qi_sub (x y : qi) : qi := qi_add x (qi_opp y).
Definition qi_norm (x : qi) : Qc :=
  Qcplus (Qcmult (fst x) (fst x)) (Qcmult (snd x) (snd x)).
Definition qi_inv (x : qi) : qi :=
  (Qcdiv (fst x) (qi_norm x), Qcdiv (Qcopp (snd x)) (qi_norm x)).
Definition qi_div (x y : qi) : qi := qi_mul x (qi_inv y).
Definition qi_eqb (x y : qi) : bool :=
  Qc_eqb (fst x) (fst y) && Qc_eqb (snd x) (snd y).
Definition qi_of_Z (z : Z) : qi := (Qc_of_Z z, Qc_of_Z 0).
Definition qi_conj (x : qi) : qi := (fst x, Qcopp (snd x)).

(** [QQ(i)] as a base ring: a field, whose elements have the
    denominator 1. *)
Definition QI_ring : RingOps qi := {|
  is_field := true;
  fdiv := qi_div;
  is_unit := fun x => negb (qi_eqb x (qi_of_Z 0));
  gcd2 := fun _ _ => None;
  gcd_list := fun _ => None;
  nterms := fun _ => None;
  sort_key := fun _ => None;
  tower_lc := []
|}.

(** The algebra over [QQ(i)] whose twisting map is the complex
    conjugation and whose skew derivation is [x |-> conj(x) - x]: its
    generator does not commute with [i]. *)
Definition QI_S : OreAlgebra := {|
  K := qi;
  K0 := qi_of_Z 0;
  K1 := qi_of_Z 1;
  Kadd := qi_add;
  Kmul := qi_mul;
  Ksub := qi_sub;
  Kopp := qi_opp;
  Kdiv := qi_div;
  Kinv := qi_inv;
  Keqb := qi_eqb;
  of_int := qi_of_Z;
  sigma := qi_conj;
  sigma_inv := qi_conj;
  delta := fun x => qi_sub (qi_conj x) x;
  base := QI_ring;
  ring_of := None;
  frac := QI_ring;
  frac_ring_of := None;
  denom := fun _ => qi_of_Z 1;
  lcm_list := fun _ => qi_of_Z 1;
  product_rule := None;
  solver := gauss_solver (qi_of_Z 0) (qi_of_Z 1) qi_add qi_mul qi_opp qi_div qi_eqb
|}.

(** The operator over [QQ(i)] with the given coefficients [(a, b)]. *)
Definition qiop (l : list (Z * Z)) : op QI_S :=
  mkop (Alg := QI_S)
       (map (fun ab => (Qc_of_Z (fst ab), Qc_of_Z (snd ab)) : K QI_S) l).

(** Three operators over [QQ(i)]: [D + i], [i*D + 2] and
    [D^2 + (1 + i)]. *)
Definition skew_A : op QI_S := qiop [(0, 1); (1, 0)]%Z.
Definition skew_B : op QI_S := qiop [(2, 0); (0, 1)]%Z.
Definition skew_C : op QI_S := qiop [(1, 1); (0, 0); (1, 0)]%Z.
Definition qi_i : K QI_S := (Qc_of_Z 0, Qc_of_Z 1).

(** The operator with the given integer coefficients. *)
Definition zop (Alg : OreAlgebra) (l : list Z) : op Alg :=
  mkop (map (of_int Alg) l).

(** The configuration of [gcrd] on [6*S^2 - 3] and [4*S - 3] over [ZZ]
    after the first step of the [improved] strategy; the second step
    finds the quotient [k] of the leading coefficient zero. *)
Definition improved_stuck : prs_config ZZ_S :=
  match prs_iter false (prs_start (zop ZZ_S [-3; 0; 6]%Z) (zop ZZ_S [-3; 4]%Z) None)
  with
  | Ret c => c
  | _ => prs_start (zop ZZ_S [-3; 0; 6]%Z) (zop ZZ_S [-3; 4]%Z) None
  end.

(** * Properties *)

Section Theory.

Variable Alg : OreAlgebra.

Notation "0" := (K0 Alg) : K_scope.
Notation "1" := (K1 Alg) : K_scope.
Infix "+" := (Kadd Alg) : K_scope.
Infix "*" := (Kmul Alg) : K_scope.
Infix "-" := (Ksub Alg) : K_scope.
Notation "- x" := (Kopp Alg x) : K_scope.
Infix "/" := (Kdiv Alg) : K_scope.
Local Open Scope K_scope.

(** The fraction field is a field, and its equality test is exact. *)
Hypothesis Kfield :
  field_theory 0 1 (Kadd Alg) (Kmul Alg) (Ksub Alg) (Kopp Alg)
               (Kdiv Alg) (Kinv Alg) eq.
Hypothesis Keqb_eq : forall x y : K Alg, Keqb Alg x y = true <-> x = y.

Add Field Kf : Kfield.

Lemma is0_true (x : K Alg) : is0 x = true <-> x = 0.
Proof. apply Keqb_eq. Qed.

Lemma is0_false (x : K Alg) : is0 x = false <-> x <> 0.
Proof.
  unfold is0. split; intros H.
  - intros E. apply Keqb_eq in E. congruence.
  - destruct (Keqb Alg x 0) eqn:E; trivial. apply Keqb_eq in E. contradiction.
Qed.

Lemma K1_neq_0 : 1 <> 0.
Proof. exact (F_1_neq_0 Kfield). Qed.

Lemma Kmul_eq_0 (x y : K Alg) : x * y = 0 -> x = 0 \/ y = 0.
Proof.
  intros H. destruct (is0 x) eqn:E.
  - left. now apply is0_true.
  - right. apply is0_false in E.
    assert (y = (1 / x) * (x * y)) as -> by (field; exact E).
    rewrite H. ring.
Qed.

(** *** Coefficients and normal forms *)

Lemma coef_nil (i : nat) : coef (@nil (K Alg)) i = 0.
Proof. unfold coef. now destruct i. Qed.

Lemma coef_cons_S (c : K Alg) (p : list (K Alg)) (i : nat) :
  coef (c :: p) (S i) = coef p i.
Proof. reflexivity. Qed.

Lemma coef_norm (p : list (K Alg)) (i : nat) : coef (norm p) i = coef p i.
Proof.
  revert i. induction p as [|c p IH]; intros i; simpl; trivial.
  destruct (norm p) as [|d q] eqn:E.
  - destruct i as [|i].
    + destruct (is0 c) eqn:Ec; trivial.
      apply is0_true in Ec. now subst c.
    + rewrite coef_cons_S, <- IH, coef_nil.
      destruct (is0 c); [apply coef_nil | now rewrite coef_cons_S, coef_nil].
  - destruct i as [|i]; trivial. now rewrite !coef_cons_S.
Qed.


Lemma norm_last_nonzero (p : list (K Alg)) :
  norm p <> [] -> last (norm p) 0 <> 0.
Proof.
  induction p as [|c p IH]; simpl; [congruence|].
  destruct (norm p) as [|d q] eqn:E.
  - destruct (is0 c) eqn:Ec; [congruence|]. intros _. simpl.
    now apply is0_false.
  - intros _. change (last (c :: d :: q) 0) with (last (d :: q) 0).
    apply IH. congruence.
Qed.

Lemma norm_idem (p : list (K Alg)) : norm (norm p) = norm p.
Proof.
  induction p as [|c p IH]; simpl; trivial.
  destruct (norm p) as [|d q] eqn:E.
  - destruct (is0 c) eqn:Ec; simpl; trivial. now rewrite Ec.
  - simpl in *. rewrite IH. reflexivity.
Qed.

Lemma wf_norm (p : list (K Alg)) : wf (norm p).
Proof. apply norm_idem. Qed.

Lemma wf_nil : wf (@nil (K Alg)).
Proof. reflexivity. Qed.

Lemma norm_nil_iff (p : list (K Alg)) :
  norm p = [] <-> forall i, coef p i = 0.
Proof.
  split.
  - intros H i. now rewrite <- coef_norm, H, coef_nil.
  - induction p as [|c p IH]; intros H; simpl; trivial.
    rewrite IH.
    + pose proof (H O) as H0. cbn in H0. subst c.
      assert (is0 0 = true) as -> by now apply is0_true. reflexivity.
    + intros i. apply (H (S i)).
Qed.

Lemma norm_ext (p q : list (K Alg)) :
  (forall i, coef p i = coef q i) -> norm p = norm q.
Proof.
  revert q. induction p as [|c p IH]; intros q H.
  - simpl. symmetry. apply norm_nil_iff. intros i. now rewrite <- H, coef_nil.
  - destruct q as [|d q].
    + apply norm_nil_iff. intros i. now rewrite H, coef_nil.
    + simpl. rewrite (IH q) by (intros i; apply (H (S i))).
      pose proof (H O) as H0. cbn in H0. now subst d.
Qed.

Lemma wf_ext (p q : list (K Alg)) :
  wf p -> wf q -> (forall i, coef p i = coef q i) -> p = q.
Proof. intros Hp Hq H. rewrite <- Hp, <- Hq. now apply norm_ext. Qed.

Lemma coef_overflow (p : list (K Alg)) (i : nat) :
  length p <= i -> coef p i = 0.
Proof. intros H. unfold coef. now apply nth_overflow. Qed.

Lemma length_norm_le (p : list (K Alg)) (n : nat) :
  (forall i, n <= i -> coef p i = 0) -> length (norm p) <= n.
Proof.
  revert n. induction p as [|c p IH]; intros n H; simpl; [lia|].
  destruct n as [|n].
  - assert (E : norm (c :: p) = []) by (apply norm_nil_iff; intros i; apply H; lia).
    simpl in E. rewrite E. simpl. lia.
  - specialize (IH n (fun i Hi => H (S i) (proj1 (Nat.succ_le_mono _ _) Hi))).
    destruct (norm p) as [|d q] eqn:E.
    + destruct (is0 c); simpl; lia.
    + simpl in *. lia.
Qed.

Lemma length_norm_gt (p : list (K Alg)) (n : nat) :
  coef p n <> 0 -> n < length (norm p).
Proof.
  intros H. destruct (Nat.lt_ge_cases n (length (norm p))) as [L|L]; trivial.
  exfalso. apply H. rewrite <- coef_norm. now apply coef_overflow.
Qed.

Lemma wf_last (p : list (K Alg)) : wf p -> p <> [] -> last p 0 <> 0.
Proof. intros Hp Hn. rewrite <- Hp. apply norm_last_nonzero. now rewrite Hp. Qed.

Lemma last_coef (p : list (K Alg)) : last p 0 = coef p (length p - 1)%nat.
Proof.
  induction p as [|c p IH]; trivial.
  destruct p as [|d q]; trivial.
  change (last (c :: d :: q) 0) with (last (d :: q) 0). rewrite IH.
  simpl. now rewrite Nat.sub_0_r.
Qed.

(** *** Coefficients of the polynomial operations *)

Lemma coef_zip_add (p q : list (K Alg)) (i : nat) :
  coef (zip_add p q) i = coef p i + coef q i.
Proof.
  revert q i. induction p as [|a p IH]; intros q i.
  - simpl. rewrite coef_nil. ring.
  - destruct q as [|b q].
    + simpl. rewrite coef_nil. ring.
    + destruct i as [|i]; simpl; trivial. rewrite !coef_cons_S. apply IH.
Qed.

Lemma coef_map0 (f : K Alg -> K Alg) (p : list (K Alg)) (i : nat) :
  f 0 = 0 -> coef (map f p) i = f (coef p i).
Proof.
  intros Hf. revert i. induction p as [|a p IH]; intros i.
  - simpl. now rewrite coef_nil.
  - destruct i as [|i]; simpl; trivial. rewrite !coef_cons_S. apply IH.
Qed.

Lemma coef_padd (p q : list (K Alg)) (i : nat) :
  coef (padd p q) i = coef p i + coef q i.
Proof. unfold padd. now rewrite coef_norm, coef_zip_add. Qed.

Lemma coef_pneg (p : list (K Alg)) (i : nat) : coef (pneg p) i = - coef p i.
Proof. unfold pneg. rewrite coef_norm, coef_map0; trivial. ring. Qed.

Lemma coef_pscale (c : K Alg) (p : list (K Alg)) (i : nat) :
  coef (pscale c p) i = c * coef p i.
Proof.
  unfold pscale. rewrite coef_norm.
  rewrite (coef_map0 (f := fun x => c * x)); trivial. ring.
Qed.

Lemma coef_pshift (p : list (K Alg)) (i : nat) :
  coef (pshift p) i = match i with O => 0 | S j => coef p j end.
Proof. unfold pshift. rewrite coef_norm. now destruct i. Qed.

Lemma on_nonzero_0 (f : K Alg -> K Alg) : on_nonzero f 0 = 0.
Proof.
  unfold on_nonzero. destruct (is0 0) eqn:E; trivial.
  apply is0_false in E. congruence.
Qed.

Lemma on_nonzero_neq (f : K Alg -> K Alg) (x : K Alg) :
  x <> 0 -> on_nonzero f x = f x.
Proof. intros H. unfold on_nonzero. apply is0_false in H. now rewrite H. Qed.

Lemma coef_pmap (f : K Alg -> K Alg) (p : list (K Alg)) (i : nat) :
  coef (pmap f p) i = on_nonzero f (coef p i).
Proof. unfold pmap. rewrite coef_norm. apply coef_map0, on_nonzero_0. Qed.

Lemma coef_twist (p : list (K Alg)) (i : nat) :
  coef (twist p) i =
  match i with O => 0 | S j => on_nonzero (sigma Alg) (coef p j) end
  + on_nonzero (delta Alg) (coef p i).
Proof.
  unfold twist. rewrite coef_padd, coef_pshift, coef_pmap.
  destruct i; trivial. now rewrite coef_pmap.
Qed.

Lemma wf_padd (p q : list (K Alg)) : wf (padd p q).
Proof. apply wf_norm. Qed.
Lemma wf_pscale (c : K Alg) (p : list (K Alg)) : wf (pscale c p).
Proof. apply wf_norm. Qed.
Lemma wf_twist (p : list (K Alg)) : wf (twist p).
Proof. apply wf_norm. Qed.

(** *** Coefficients of the operator operations *)

Lemma wf_mkop (l : list (K Alg)) : wf (mkop l).
Proof. apply wf_norm. Qed.

Lemma coef_mkop (l : list (K Alg)) (i : nat) : coef (mkop l) i = coef l i.
Proof. apply coef_norm. Qed.

Lemma mkop_wf (A : op Alg) : wf A -> mkop A = A.
Proof. trivial. Qed.

Lemma wf_ore_add (A B : op Alg) : wf (ore_add A B).
Proof. apply wf_norm. Qed.
Lemma wf_ore_neg (A : op Alg) : wf (ore_neg A).
Proof. apply wf_norm. Qed.
Lemma wf_ore_sub (A B : op Alg) : wf (ore_sub A B).
Proof. apply wf_norm. Qed.

Lemma coef_ore_add (A B : op Alg) (i : nat) :
  coef (ore_add A B) i = coef A i + coef B i.
Proof. unfold ore_add. now rewrite coef_mkop, coef_padd. Qed.

Lemma coef_ore_neg (A : op Alg) (i : nat) : coef (ore_neg A) i = - coef A i.
Proof. unfold ore_neg. now rewrite coef_mkop, coef_pneg. Qed.

Lemma coef_ore_sub (A B : op Alg) (i : nat) :
  coef (ore_sub A B) i = coef A i - coef B i.
Proof. unfold ore_sub. rewrite coef_ore_add, coef_ore_neg. ring. Qed.

(** *** Finite sums *)


Lemma bigsum_ext (n : nat) (f g : nat -> K Alg) :
  (forall i, i < n -> f i = g i) -> bigsum n f = bigsum n g.
Proof.
  induction n as [|n IH]; intros H; simpl; trivial.
  rewrite IH, H; auto.
Qed.

Lemma bigsum_0 (n : nat) (f : nat -> K Alg) :
  (forall i, i < n -> f i = 0) -> bigsum n f = 0.
Proof.
  induction n as [|n IH]; intros H; simpl; trivial.
  rewrite IH, H; auto. ring.
Qed.

Lemma bigsum_shift (n : nat) (f : nat -> K Alg) :
  bigsum (S n) f = f O + bigsum n (fun j => f (S j)).
Proof.
  induction n as [|n IH].
  - simpl. ring.
  - change (bigsum (S (S n)) f) with (bigsum (S n) f + f (S n)).
    rewrite IH. simpl. ring.
Qed.

Lemma bigsum_add (n : nat) (f g : nat -> K Alg) :
  bigsum n (fun i => f i + g i) = bigsum n f + bigsum n g.
Proof. induction n as [|n IH]; simpl; [ring|]. rewrite IH. ring. Qed.

Lemma bigsum_scale (n : nat) (c : K Alg) (f : nat -> K Alg) :
  bigsum n (fun i => c * f i) = c * bigsum n f.
Proof. induction n as [|n IH]; simpl; [ring|]. rewrite IH. ring. Qed.

Lemma bigsum_opp (n : nat) (f : nat -> K Alg) :
  bigsum n (fun i => - f i) = - bigsum n f.
Proof. induction n as [|n IH]; simpl; [ring|]. rewrite IH. ring. Qed.

Lemma bigsum_extend (n m : nat) (f : nat -> K Alg) :
  n <= m -> (forall i, n <= i -> f i = 0) -> bigsum m f = bigsum n f.
Proof.
  intros Hnm H. induction Hnm as [|m Hnm IH]; trivial.
  simpl. rewrite IH, H by lia. ring.
Qed.

Lemma bigsum_single (n k : nat) (f : nat -> K Alg) :
  k < n -> (forall i, i <> k -> f i = 0) -> bigsum n f = f k.
Proof.
  induction n as [|n IH]; intros Hk H; [lia|]. simpl.
  destruct (Nat.eq_dec k n) as [->|Hne].
  - rewrite bigsum_0; [ring|]. intros i Hi. apply H. lia.
  - rewrite IH, (H n) by (trivial; lia). ring.
Qed.

(** *** The product *)


Lemma Dpow_S (i : nat) (B : list (K Alg)) : Dpow (S i) B = twist (Dpow i B).
Proof. reflexivity. Qed.

Lemma Dpow_S_r (i : nat) (B : list (K Alg)) : Dpow (S i) B = Dpow i (twist B).
Proof. unfold Dpow. now rewrite Nat.iter_succ_r. Qed.

Lemma twist_nil : twist (@nil (K Alg)) = [].
Proof.
  apply (wf_ext (wf_twist _) wf_nil). intros i.
  rewrite coef_twist. destruct i; rewrite !coef_nil, !on_nonzero_0; ring.
Qed.

Lemma Dpow_nil (i : nat) : Dpow i (@nil (K Alg)) = [].
Proof.
  induction i as [|i IH]; trivial. now rewrite Dpow_S, IH, twist_nil.
Qed.

Lemma length_twist_le (p : list (K Alg)) : length (twist p) <= S (length p).
Proof.
  rewrite <- (wf_twist p). apply length_norm_le. intros k Hk.
  rewrite coef_twist. destruct k as [|k]; [lia|].
  rewrite !coef_overflow by lia. rewrite !on_nonzero_0. ring.
Qed.

Lemma length_Dpow_le (i : nat) (X : list (K Alg)) :
  length (Dpow i X) <= (length X + i)%nat.
Proof.
  induction i as [|i IH]; [simpl; lia|].
  rewrite Dpow_S. pose proof (length_twist_le (Dpow i X)). lia.
Qed.

Lemma coef_mul_loop (cs DiB res : list (K Alg)) (k : nat) :
  coef (mul_loop cs DiB res) k =
  coef res k + bigsum (length cs) (fun j => coef cs j * coef (Dpow (S j) DiB) k).
Proof.
  revert DiB res. induction cs as [|c cs IH]; intros DiB res.
  - simpl. ring.
  - simpl mul_loop. rewrite IH, coef_padd, coef_pscale.
    simpl length. rewrite bigsum_shift.
    rewrite (bigsum_ext
               (f := fun j => coef (c :: cs) (S j) * coef (Dpow (S (S j)) DiB) k)
               (g := fun j => coef cs j * coef (Dpow (S j) (twist DiB)) k)).
    + change (coef (c :: cs) 0) with c.
      change (Dpow 1 DiB) with (twist DiB). ring.
    + intros j _. now rewrite coef_cons_S, <- (Dpow_S_r (S j)).
Qed.

Lemma wf_ore_mul (A B : op Alg) : wf B -> wf (ore_mul A B).
Proof.
  intros HB. unfold ore_mul.
  destruct A as [|c0 cs]; simpl; [apply wf_nil|].
  destruct (is_zero B); trivial. apply wf_mkop.
Qed.

Lemma coef_ore_mul (A B : op Alg) (k : nat) :
  coef (ore_mul A B) k =
  bigsum (length A) (fun i => coef A i * coef (Dpow i B) k).
Proof.
  unfold ore_mul. destruct A as [|c0 cs]; simpl is_zero; cbv iota.
  - simpl. apply coef_nil.
  - destruct B as [|b B]; simpl is_zero; cbv iota.
    + rewrite coef_nil. symmetry. apply bigsum_0. intros i _.
      rewrite Dpow_nil, coef_nil. ring.
    + rewrite coef_mkop, coef_mul_loop, coef_pscale.
      simpl length. rewrite bigsum_shift. reflexivity.
Qed.

Lemma coef_ore_mul_ge (A B : op Alg) (k n : nat) :
  length A <= n ->
  coef (ore_mul A B) k = bigsum n (fun i => coef A i * coef (Dpow i B) k).
Proof.
  intros H. rewrite coef_ore_mul. symmetry. apply bigsum_extend; trivial.
  intros i Hi. rewrite coef_overflow by lia. ring.
Qed.

(** The product is additive in its left argument; this needs no property
    of the twisting maps. *)
Lemma coef_mul_add_l (A A' B : op Alg) (k : nat) :
  coef (ore_mul (ore_add A A') B) k =
  coef (ore_mul A B) k + coef (ore_mul A' B) k.
Proof.
  set (n := (length A + length A' + length (ore_add A A'))%nat).
  rewrite !(@coef_ore_mul_ge _ B k n) by (unfold n; lia).
  rewrite <- bigsum_add. apply bigsum_ext. intros i _.
  rewrite coef_ore_add. ring.
Qed.

Lemma coef_mul_neg_l (A B : op Alg) (k : nat) :
  coef (ore_mul (ore_neg A) B) k = - coef (ore_mul A B) k.
Proof.
  set (n := (length A + length (ore_neg A))%nat).
  rewrite !(@coef_ore_mul_ge _ B k n) by (unfold n; lia).
  rewrite <- bigsum_opp. apply bigsum_ext. intros i _.
  rewrite coef_ore_neg. ring.
Qed.

Lemma coef_mul_sub_l (A A' B : op Alg) (k : nat) :
  coef (ore_mul (ore_sub A A') B) k =
  coef (ore_mul A B) k - coef (ore_mul A' B) k.
Proof. unfold ore_sub. rewrite coef_mul_add_l, coef_mul_neg_l. ring. Qed.

Lemma coef_ore_const (c : K Alg) (i : nat) :
  coef (ore_const c) i = match i with O => c | S _ => 0 end.
Proof.
  unfold ore_const. rewrite coef_mkop. destruct i as [|i]; trivial.
  rewrite coef_cons_S. apply coef_nil.
Qed.

Lemma length_ore_const (c : K Alg) : length (ore_const c) <= 1.
Proof.
  apply length_norm_le. intros i Hi. destruct i; [lia|].
  rewrite coef_cons_S. apply coef_nil.
Qed.

Lemma coef_ore_scal (c : K Alg) (A : op Alg) (k : nat) :
  coef (ore_scal c A) k = c * coef A k.
Proof.
  unfold ore_scal. rewrite (@coef_ore_mul_ge _ A k 1 (length_ore_const c)).
  simpl. rewrite coef_ore_const. unfold Dpow. simpl. ring.
Qed.

Lemma wf_ore_scal (c : K Alg) (A : op Alg) : wf A -> wf (ore_scal c A).
Proof. apply wf_ore_mul. Qed.

Lemma ore_mul_zero_l (B : op Alg) : ore_mul (ore_zero Alg) B = ore_zero Alg.
Proof. reflexivity. Qed.

Lemma ore_sub_zero_r (A : op Alg) : wf A -> ore_sub A (ore_zero Alg) = A.
Proof.
  intros HA. apply (wf_ext (wf_ore_sub _ _) HA). intros i.
  rewrite coef_ore_sub. unfold ore_zero. rewrite coef_nil. ring.
Qed.

Lemma ore_add_zero_l (A : op Alg) : wf A -> ore_add (ore_zero Alg) A = A.
Proof.
  intros HA. apply (wf_ext (wf_ore_add _ _) HA). intros i.
  rewrite coef_ore_add. unfold ore_zero. rewrite coef_nil. ring.
Qed.

(** *** Orders *)

Lemma order_lt_length (A B : op Alg) :
  (order A < order B)%Z <-> length A < length B.
Proof. unfold order. lia. Qed.

Lemma is_zero_nil (A : op Alg) : is_zero A = true <-> A = [].
Proof. destruct A; simpl; split; congruence. Qed.

Lemma leading_coefficient_neq_0 (A : op Alg) :
  wf A -> A <> [] -> leading_coefficient A <> 0.
Proof. apply wf_last. Qed.

(** *** Powers of the generator *)

Hypothesis sigma_1 : sigma Alg 1 = 1.
Hypothesis delta_1 : delta Alg 1 = 0.
(** [sigma] is injective: it sends no nonzero element to zero. *)
Hypothesis sigma_nonzero : forall x : K Alg, x <> 0 -> sigma Alg x <> 0.

Lemma gen_eq : gen Alg = [0; 1].
Proof.
  unfold gen, mkop. simpl.
  assert (is0 1 = false) as -> by (apply is0_false, K1_neq_0). reflexivity.
Qed.

Lemma coef_mul_gen (X : op Alg) (k : nat) :
  coef (ore_mul (gen Alg) X) k = coef (twist X) k.
Proof.
  rewrite coef_ore_mul, gen_eq. simpl. unfold coef at 1 3. simpl.
  change (Dpow 1 X) with (twist X). ring.
Qed.

Lemma sigma_indicator (b : bool) :
  on_nonzero (sigma Alg) (if b then 1 else 0) = if b then 1 else 0.
Proof.
  destruct b; [|apply on_nonzero_0].
  now rewrite (on_nonzero_neq _ K1_neq_0), sigma_1.
Qed.

Lemma delta_indicator (b : bool) :
  on_nonzero (delta Alg) (if b then 1 else 0) = 0.
Proof.
  destruct b; [|apply on_nonzero_0].
  now rewrite (on_nonzero_neq _ K1_neq_0), delta_1.
Qed.

Lemma coef_gen_pow (d k : nat) :
  coef (ore_pow (gen Alg) d) k = if Nat.eqb k d then 1 else 0.
Proof.
  revert k. induction d as [|d IH]; intros k.
  - simpl. unfold ore_one. rewrite coef_ore_const. now destruct k.
  - simpl ore_pow. rewrite coef_mul_gen, coef_twist.
    destruct k as [|k].
    + rewrite IH, delta_indicator. simpl. ring.
    + rewrite !IH, sigma_indicator, delta_indicator. simpl Nat.eqb. ring.
Qed.

Lemma wf_gen_pow (d : nat) : wf (ore_pow (gen Alg) d).
Proof. destruct d; [apply wf_mkop|]. simpl. apply wf_ore_mul.
  induction d; [apply wf_mkop|]. simpl. now apply wf_ore_mul.
Qed.

Lemma length_gen_pow (d : nat) : length (ore_pow (gen Alg) d) = S d.
Proof.
  apply Nat.le_antisymm.
  - rewrite <- (wf_gen_pow d). apply length_norm_le. intros i Hi.
    rewrite coef_gen_pow.
    assert (Nat.eqb i d = false) as -> by (apply Nat.eqb_neq; lia). reflexivity.
  - rewrite <- (wf_gen_pow d). apply length_norm_gt.
    rewrite coef_gen_pow, Nat.eqb_refl. apply K1_neq_0.
Qed.


Lemma coef_monomial (c : K Alg) (d k : nat) :
  coef (monomial c d) k = if Nat.eqb k d then c else 0.
Proof.
  unfold monomial. rewrite coef_ore_scal, coef_gen_pow.
  destruct (Nat.eqb k d); ring.
Qed.

Lemma length_monomial (c : K Alg) (d : nat) : length (monomial c d) <= S d.
Proof.
  unfold monomial.
  rewrite <- (wf_ore_scal c (wf_gen_pow d)). apply length_norm_le.
  intros i Hi. rewrite coef_ore_scal, coef_gen_pow.
  assert (Nat.eqb i d = false) as -> by (apply Nat.eqb_neq; lia). ring.
Qed.

Lemma coef_monomial_mul (c : K Alg) (d : nat) (B : op Alg) (k : nat) :
  coef (ore_mul (monomial c d) B) k = c * coef (Dpow d B) k.
Proof.
  rewrite (@coef_ore_mul_ge _ B k (S d) (length_monomial c d)).
  rewrite (@bigsum_single (S d) d) by
    (try lia; intros i Hi; rewrite coef_monomial;
     assert (Nat.eqb i d = false) as -> by (now apply Nat.eqb_neq); ring).
  now rewrite coef_monomial, Nat.eqb_refl.
Qed.

(** The leading part of [D^d * B]. *)
Lemma coef_Dpow_high (d : nat) (B : list (K Alg)) (k : nat) :
  (length B + d)%nat <= k -> coef (Dpow d B) k = 0.
Proof.
  revert k. induction d as [|d IH]; intros k Hk.
  - apply coef_overflow. simpl. lia.
  - rewrite Dpow_S, coef_twist. destruct k as [|k]; [lia|].
    rewrite !IH by lia. rewrite !on_nonzero_0. ring.
Qed.

Lemma iter_sigma_nonzero (d : nat) (x : K Alg) :
  x <> 0 -> Nat.iter d (sigma Alg) x <> 0.
Proof. intros Hx. induction d; simpl; auto. Qed.

Lemma coef_Dpow_lead (d : nat) (B : list (K Alg)) :
  coef B (length B - 1)%nat <> 0 ->
  coef (Dpow d B) (length B - 1 + d)%nat =
  Nat.iter d (sigma Alg) (coef B (length B - 1)%nat).
Proof.
  intros HB. induction d as [|d IH].
  - simpl. now rewrite Nat.add_0_r.
  - rewrite Dpow_S, coef_twist. rewrite Nat.add_succ_r, IH.
    assert (length B <> O)
      by (destruct B; simpl in *; [now rewrite coef_nil in HB|lia]).
    rewrite coef_Dpow_high by lia.
    rewrite on_nonzero_0, on_nonzero_neq by now apply iter_sigma_nonzero.
    simpl. ring.
Qed.

Lemma nth_iterates (f : K Alg -> K Alg) (n d : nat) (x : K Alg) :
  d <= n -> nth d (iterates f n x) 0 = Nat.iter d f x.
Proof.
  revert d x. induction n as [|n IH]; intros d x Hd.
  - assert (d = O) as -> by lia. reflexivity.
  - destruct d as [|d]; trivial.
    simpl nth. rewrite IH by lia. now rewrite Nat.iter_succ_r.
Qed.

(** *** The division loop *)

Section Division.

Variables self other : op Alg.
Hypothesis wf_self : wf self.
Hypothesis wf_other : wf other.
Hypothesis other_nonzero : other <> [].

Let qlcs : list (K Alg) := qr_qlcs self other.

Lemma length_other_pos : 1 <= length other.
Proof. destruct other; simpl; [congruence|lia]. Qed.

Lemma to_nat_orddiff (p q : op Alg) :
  Z.to_nat (order p - order q) = (length p - length q)%nat.
Proof. unfold order. lia. Qed.

(** Subtracting [c * D^d * other] from [p], where [d] is the difference
    of the orders, never raises the order; it lowers the order when [c]
    cancels the leading coefficient. *)
Lemma cancel_length_le (c : K Alg) (p : op Alg) :
  length other <= length p ->
  length (ore_sub p (ore_mul (monomial c (length p - length other)) other))
  <= length p.
Proof.
  intros Hlen. rewrite <- (wf_ore_sub p _). apply length_norm_le.
  intros i Hi. rewrite coef_ore_sub, coef_monomial_mul.
  rewrite coef_overflow by trivial.
  rewrite coef_Dpow_high by lia. ring.
Qed.

Lemma cancel_length_lt (c : K Alg) (p : op Alg) :
  length other <= length p ->
  c * Nat.iter (length p - length other) (sigma Alg) (leading_coefficient other)
  = leading_coefficient p ->
  length (ore_sub p (ore_mul (monomial c (length p - length other)) other))
  < length p.
Proof.
  intros Hlen Hc. pose proof length_other_pos as Hpos.
  assert (Hlc : coef other (length other - 1)%nat <> 0).
  { rewrite <- last_coef. now apply wf_last. }
  enough (length (ore_sub p (ore_mul (monomial c (length p - length other)) other))
          <= length p - 1) by lia.
  rewrite <- (wf_ore_sub p _). apply length_norm_le.
  intros i Hi. rewrite coef_ore_sub, coef_monomial_mul.
  destruct (Nat.eq_dec i (length p - 1)) as [->|Hne].
  - replace (length p - 1)%nat
      with (length other - 1 + (length p - length other))%nat by lia.
    rewrite coef_Dpow_lead by trivial.
    replace (length other - 1 + (length p - length other))%nat
      with (length p - 1)%nat by lia.
    rewrite <- !last_coef.
    unfold leading_coefficient in Hc. rewrite Hc. ring.
  - rewrite coef_overflow by lia.
    rewrite coef_Dpow_high by lia. ring.
Qed.



Lemma qr_inv_restart (quo : op Alg) :
  qr_inv self other quo (restart self other quo).
Proof. unfold qr_inv, restart. simpl. auto. Qed.

Lemma cfquo_monomial (st : qr_state Alg) :
  cfquo_of qlcs st =
  monomial (divide (qr_div st) (leading_coefficient (qr_p st))
              (nth (Z.to_nat (qr_orddiff st)) qlcs 0))
           (Z.to_nat (qr_orddiff st)).
Proof. reflexivity. Qed.



Lemma qr_body_cases (st : qr_state Alg) :
  (stagnates qlcs st /\
   qr_body self other qlcs st
   = restart self other (ore_add (qr_quo st) (cfquo_of qlcs st)))
  \/
  (~ stagnates qlcs st /\
   qr_body self other qlcs st =
   {| qr_p := ore_sub (qr_p st) (ore_mul (cfquo_of qlcs st) (qr_q st));
      qr_q := qr_q st;
      qr_quo := ore_add (qr_quo st) (cfquo_of qlcs st);
      qr_div := qr_div st |}).
Proof.
  unfold stagnates, qr_body.
  destruct (Z.eqb_spec
    (order (ore_sub (qr_p st) (ore_mul (cfquo_of qlcs st) (qr_q st))))
    (order (qr_p st))) as [E|E]; [left|right]; auto.
Qed.

Lemma qr_step_inv (G : op Alg) (st : qr_state Alg) :
  qr_inv self other G st -> length other <= length (qr_p st) ->
  ~ stagnates qlcs st ->
  qr_inv self other G (qr_body self other qlcs st) /\
  qr_div (qr_body self other qlcs st) = qr_div st /\
  length (qr_p (qr_body self other qlcs st)) < length (qr_p st).
Proof.
  intros (Hq & Hwf & Hlen & Hinv) Hge Hns.
  destruct (qr_body_cases st) as [[Hs _]|[_ ->]]; [contradiction|].
  simpl. unfold qr_inv. simpl.
  assert (Hle : length (ore_sub (qr_p st) (ore_mul (cfquo_of qlcs st) (qr_q st)))
                <= length (qr_p st)).
  { rewrite cfquo_monomial. unfold qr_orddiff. rewrite Hq, to_nat_orddiff.
    now apply cancel_length_le. }
  assert (Hlt : length (ore_sub (qr_p st) (ore_mul (cfquo_of qlcs st) (qr_q st)))
                < length (qr_p st)).
  { unfold stagnates, order in Hns. lia. }
  repeat split; trivial.
  - apply wf_ore_sub.
  - lia.
  - intros k. rewrite coef_mul_add_l, coef_ore_sub, Hq, <- Hinv. ring.
Qed.

(** With true division a step always cancels the leading coefficient. *)
Lemma true_div_no_stagnation (G : op Alg) (st : qr_state Alg) :
  qr_inv self other G st -> qr_div st = TrueDiv -> length other <= length (qr_p st) ->
  ~ stagnates qlcs st.
Proof.
  intros (Hq & Hwf & Hlen & Hinv) Hdiv Hge.
  unfold stagnates. rewrite cfquo_monomial.
  unfold qr_orddiff. rewrite Hq, Hdiv, to_nat_orddiff.
  simpl divide. unfold qlcs, qr_qlcs. rewrite to_nat_orddiff, nth_iterates by lia.
  assert (Hs : Nat.iter (length (qr_p st) - length other) (sigma Alg)
                 (leading_coefficient other) <> 0).
  { apply iter_sigma_nonzero. now apply leading_coefficient_neq_0. }
  pose proof (@cancel_length_lt
    (leading_coefficient (qr_p st) /
       Nat.iter (length (qr_p st) - length other) (sigma Alg)
         (leading_coefficient other)) (qr_p st) Hge) as Hlt.
  unfold order. intros E.
  assert (length (ore_sub (qr_p st)
            (ore_mul (monomial
               (leading_coefficient (qr_p st) /
                Nat.iter (length (qr_p st) - length other) (sigma Alg)
                  (leading_coefficient other))
               (length (qr_p st) - length other)) other))
          < length (qr_p st)).
  { apply Hlt. field. exact Hs. }
  lia.
Qed.

Lemma qr_guard (st : qr_state Alg) :
  qr_q st = other ->
  (0 <=? qr_orddiff st)%Z = true <-> length other <= length (qr_p st).
Proof. intros H. unfold qr_orddiff, order. rewrite H, Z.leb_le. lia. Qed.

Lemma qr_guard_ge (st : qr_state Alg) :
  qr_q st = other -> (0 <=? qr_orddiff st)%Z = true ->
  length other <= length (qr_p st).
Proof. intros Hq Eg. now apply (qr_guard Hq). Qed.

Lemma qr_exit (st : qr_state Alg) :
  qr_q st = other -> (0 <=? qr_orddiff st)%Z = false ->
  length (qr_p st) < length other.
Proof.
  intros Hq Eg.
  destruct (Nat.lt_ge_cases (length (qr_p st)) (length other)) as [|H]; trivial.
  apply (qr_guard Hq) in H. congruence.
Qed.

(** Once the division is a true division the loop ends after at most
    [order p - order other + 1] iterations, with a remainder of lower
    order than the divisor. *)
Lemma qr_loop_true (fuel : nat) (G : op Alg) (st : qr_state Alg) :
  qr_inv self other G st -> qr_div st = TrueDiv ->
  length (qr_p st) < (fuel + length other)%nat ->
  exists Q R, qr_loop fuel self other qlcs st = Ret (Q, R) /\
    wf R /\ length R < length other /\
    forall k, coef (ore_mul Q other) k + coef R k
              = coef (ore_mul G other) k + coef self k.
Proof.
  revert st. induction fuel as [|fuel IH]; intros st Hinv Hdiv Hfuel.
  - simpl. destruct (0 <=? qr_orddiff st)%Z eqn:Eg.
    + apply qr_guard in Eg; [lia | apply Hinv].
    + exists (qr_quo st), (qr_p st). destruct Hinv as (Hq & Hwf & Hlen & Hinv).
      repeat split; trivial; now apply qr_exit.
  - simpl. destruct (0 <=? qr_orddiff st)%Z eqn:Eg.
    + assert (Hge : length other <= length (qr_p st))
        by (apply qr_guard in Eg; [trivial | apply Hinv]).
      pose proof (true_div_no_stagnation Hinv Hdiv Hge) as Hns.
      destruct (qr_step_inv Hinv Hge Hns) as (Hinv' & Hdiv' & Hlt).
      apply IH; trivial; [congruence | lia].
    + exists (qr_quo st), (qr_p st). destruct Hinv as (Hq & Hwf & Hlen & Hinv).
      repeat split; trivial; now apply qr_exit.
Qed.



Lemma qr_reach_inv (ff : bool) (st : qr_state Alg) :
  qr_reach self other ff st -> exists G, qr_inv self other G st.
Proof.
  induction 1 as [|st Hr [G IH] Eg].
  - exists (ore_zero Alg). unfold qr_inv, qr_init. simpl. auto.
  - assert (Hge : length other <= length (qr_p st))
      by (apply qr_guard in Eg; [trivial | apply IH]).
    fold qlcs. destruct (qr_body_cases st) as [[Hs E]|[Hns E]].
    + rewrite E. eexists. apply qr_inv_restart.
    + exists G. now apply qr_step_inv.
Qed.


(** In the exact mode every state of the loop divides truly, and so no
    cancellation step stagnates. *)
Lemma qr_reach_exact (st : qr_state Alg) :
  qr_reach self other false st -> qr_div st = TrueDiv.
Proof.
  induction 1 as [|st Hr IH Eg]; trivial.
  fold qlcs. destruct (qr_body_cases st) as [[_ E]|[_ E]]; now rewrite E.
Qed.

End Division.

(** *** Linear dependencies and the null-space solver *)

Lemma kdot_cons (a b : K Alg) (w x : list (K Alg)) :
  kdot (a :: w) (b :: x) = a * b + kdot w x.
Proof. reflexivity. Qed.

Lemma kdot_nil_r (w : list (K Alg)) : kdot w [] = 0.
Proof. now destruct w. Qed.

Lemma kdot_app (w1 w2 x1 x2 : list (K Alg)) :
  length w1 = length x1 ->
  kdot (w1 ++ w2) (x1 ++ x2) = kdot w1 x1 + kdot w2 x2.
Proof.
  revert x1. induction w1 as [|a w1 IH]; intros [|b x1] H; simpl in H;
    try discriminate.
  - simpl. change (kdot [] []) with 0. ring.
  - simpl app. rewrite !kdot_cons, IH by lia. ring.
Qed.

Lemma kdot_comm (w x : list (K Alg)) : kdot w x = kdot x w.
Proof.
  revert x. induction w as [|a w IH]; intros [|b x]; try reflexivity.
  rewrite !kdot_cons, IH. ring.
Qed.

Lemma kdot_zero_l (w x : list (K Alg)) :
  (forall a, In a w -> a = 0) -> kdot w x = 0.
Proof.
  revert x. induction w as [|a w IH]; intros [|b x] H; try reflexivity.
  rewrite kdot_cons, IH, (H a);
    [ring | simpl; auto | intros; apply H; simpl; auto].
Qed.

Lemma wsum_cons (A : Type) (a : K Alg) (w : list (K Alg)) (f : A -> K Alg)
  (x : A) (l : list A) :
  wsum (a :: w) f (x :: l) = a * f x + wsum w f l.
Proof. reflexivity. Qed.

Lemma wsum_ext (A : Type) (w : list (K Alg)) (f g : A -> K Alg) (l : list A) :
  (forall x, In x l -> f x = g x) -> wsum w f l = wsum w g l.
Proof.
  revert w. induction l as [|x l IH]; intros w H.
  - reflexivity.
  - destruct w as [|a w]; [reflexivity|].
    rewrite !wsum_cons, IH, (H x);
      [reflexivity | simpl; auto | intros; apply H; simpl; auto].
Qed.

Lemma wsum_zero (A : Type) (w : list (K Alg)) (f : A -> K Alg) (l : list A) :
  (forall x, In x l -> f x = 0) -> wsum w f l = 0.
Proof.
  revert w. induction l as [|x l IH]; intros w H.
  - unfold wsum. apply kdot_nil_r.
  - destruct w as [|a w]; [reflexivity|].
    rewrite wsum_cons, IH, (H x);
      [ring | simpl; auto | intros; apply H; simpl; auto].
Qed.

Lemma wsum_reduce (A : Type) (w : list (K Alg)) (f g : A -> K Alg) (t : K Alg)
  (l : list A) :
  wsum w (fun x => f x + - (g x * t)) l = wsum w f l - wsum w g l * t.
Proof.
  revert w. induction l as [|x l IH]; intros w.
  - unfold wsum. rewrite !kdot_nil_r. ring.
  - destruct w as [|a w].
    + unfold wsum. change (kdot [] _) with 0. ring.
    + rewrite !wsum_cons, IH. ring.
Qed.

Lemma wsum_div (A : Type) (w : list (K Alg)) (f : A -> K Alg) (d : K Alg)
  (l : list A) :
  d <> 0 -> wsum w (fun x => f x / d) l = wsum w f l / d.
Proof.
  intros Hd. revert w. induction l as [|x l IH]; intros w.
  - unfold wsum. rewrite !kdot_nil_r. now field.
  - destruct w as [|a w].
    + unfold wsum. change (kdot [] _) with 0. now field.
    + rewrite !wsum_cons, IH. now field.
Qed.

Lemma wsum_app (A : Type) (w1 w2 : list (K Alg)) (f : A -> K Alg)
  (l1 l2 : list A) :
  length w1 = length l1 ->
  wsum (w1 ++ w2) f (l1 ++ l2) = wsum w1 f l1 + wsum w2 f l2.
Proof.
  intros H. unfold wsum. rewrite map_app. apply kdot_app.
  now rewrite length_map.
Qed.

Lemma column_coord (i : nat) (cs : list (list (K Alg))) :
  column 0 i cs = map (coord i) cs.
Proof. reflexivity. Qed.

Lemma split_pivot_none (cs : list (list (K Alg))) :
  split_pivot 0 (Keqb Alg) cs = None ->
  forall c, In c cs -> coord 0 c = 0.
Proof.
  induction cs as [|c cs IH]; simpl; [tauto|].
  destruct (Keqb Alg (vhd 0 c) 0) eqn:E; [|discriminate].
  destruct (split_pivot 0 (Keqb Alg) cs) as [[[l1 p] l2]|]; [discriminate|].
  intros _ x [Hx|Hx]; [subst x|now apply IH].
  apply Keqb_eq in E. now destruct c.
Qed.

Lemma split_pivot_some (cs l1 l2 : list (list (K Alg))) (p : list (K Alg)) :
  split_pivot 0 (Keqb Alg) cs = Some (l1, p, l2) ->
  cs = l1 ++ p :: l2 /\ coord 0 p <> 0.
Proof.
  revert l1. induction cs as [|c cs IH]; simpl; intros l1; [discriminate|].
  destruct (Keqb Alg (vhd 0 c) 0) eqn:E.
  - destruct (split_pivot 0 (Keqb Alg) cs) as [[[l1' p'] l2']|]; [|discriminate].
    intros H. injection H as <- <- <-.
    destruct (IH l1' eq_refl) as [-> Hp]. now split.
  - intros H. injection H as <- <- <-. split; trivial.
    intros Hc. assert (Keqb Alg (vhd 0 c) 0 = true); [|congruence].
    apply Keqb_eq. now destruct c.
Qed.

Lemma coord_tl (j : nat) (c : list (K Alg)) : coord j (tl c) = coord (S j) c.
Proof. destruct c; trivial. unfold coord. now destruct j. Qed.

Lemma coord_reduce_by (c x : list (K Alg)) (j : nat) :
  length x = length c ->
  coord j (reduce_by 0 (Kadd Alg) (Kmul Alg) (Kopp Alg) (Kdiv Alg) c x)
  = coord (S j) x + - (coord 0 x / coord 0 c * coord (S j) c).
Proof.
  intros Hlen. unfold reduce_by, coord.
  set (f := fun ab : K Alg * K Alg =>
              fst ab + - (vhd 0 x / vhd 0 c * snd ab)).
  assert (E0 : 0 = f (0, 0)) by (unfold f; simpl; ring).
  rewrite E0 at 1. rewrite map_nth, combine_nth.
  - unfold f. simpl.
    change (nth j (tl x) 0) with (coord j (tl x)).
    change (nth j (tl c) 0) with (coord j (tl c)).
    rewrite !coord_tl. unfold coord.
    replace (vhd 0 x) with (nth 0 x 0) by now destruct x.
    replace (vhd 0 c) with (nth 0 c 0) by now destruct c.
    reflexivity.
  - destruct x, c; simpl in *; lia.
Qed.

Lemma length_reduce_by (c x : list (K Alg)) (m : nat) :
  length x = S m -> length c = S m ->
  length (reduce_by 0 (Kadd Alg) (Kmul Alg) (Kopp Alg) (Kdiv Alg) c x) = m.
Proof.
  intros Hx Hc. unfold reduce_by. rewrite length_map, length_combine.
  destruct x, c; simpl in *; lia.
Qed.

Lemma nontrivial_app (w1 w2 : list (K Alg)) (a : K Alg) :
  nontrivial (w1 ++ w2) -> nontrivial (w1 ++ a :: w2).
Proof.
  intros (x & Hx & Hne). exists x. split; trivial.
  apply in_app_or in Hx. apply in_or_app. simpl. tauto.
Qed.

(** What [find_dep] returns is a dependency that is not trivial. *)
Lemma find_dep_sound (m : nat) (cs : list (list (K Alg))) (w : list (K Alg)) :
  Forall (fun c => length c = m) cs ->
  kfind_dep m cs = Some w ->
  length w = length cs /\ nontrivial w /\
  forall i, i < m -> wsum w (coord i) cs = 0.
Proof.
  unfold kfind_dep. revert cs w. induction m as [|m IH]; intros cs w Hlen.
  - simpl. destruct cs as [|c cs]; [discriminate|].
    intros H. injection H as <-. simpl. rewrite repeat_length.
    repeat split; [|lia].
    exists 1. split; [now left | apply K1_neq_0].
  - simpl. destruct (split_pivot 0 (Keqb Alg) cs) as [[[l1 c] l2]|] eqn:Ep.
    + destruct (split_pivot_some Ep) as [-> Hc].
      assert (Hc' : length c = S m).
      { rewrite Forall_forall in Hlen. apply Hlen, in_or_app. simpl. auto. }
      assert (Ho : forall x, In x (l1 ++ l2) -> length x = S m).
      { rewrite Forall_forall in Hlen. intros x Hx. apply Hlen.
        apply in_app_or in Hx. apply in_or_app. simpl. tauto. }
      set (red := reduce_by 0 (Kadd Alg) (Kmul Alg) (Kopp Alg) (Kdiv Alg) c).
      destruct (find_dep 0 1 (Kadd Alg) (Kmul Alg) (Kopp Alg) (Kdiv Alg)
                  (Keqb Alg) m (map red (l1 ++ l2))) as [w'|] eqn:Ef;
        [|discriminate].
      intros H. injection H as <-.
      destruct (IH (map red (l1 ++ l2)) w') as (Hl & Hnt & Hk); trivial.
      { apply Forall_forall. intros y Hy. apply in_map_iff in Hy.
        destruct Hy as (x & <- & Hx). apply length_reduce_by; auto. }
      rewrite length_map, length_app in Hl.
      assert (Hw' : w' = firstn (length l1) w' ++ skipn (length l1) w')
        by (symmetry; apply firstn_skipn).
      assert (Hf : length (firstn (length l1) w') = length l1)
        by (rewrite length_firstn; lia).
      set (a := - (dot 0 (Kadd Alg) (Kmul Alg) w' (map (vhd 0) (l1 ++ l2))
                   / vhd 0 c)).
      assert (Hsplit : forall f : list (K Alg) -> K Alg,
                wsum (firstn (length l1) w' ++ a :: skipn (length l1) w') f
                     (l1 ++ c :: l2)
                = wsum w' f (l1 ++ l2) + a * f c).
      { intros f. rewrite wsum_app by trivial.
        rewrite wsum_cons. rewrite Hw' at 3. rewrite wsum_app by trivial. ring. }
      repeat split.
      * rewrite !length_app. simpl. rewrite Hf, length_skipn. lia.
      * apply nontrivial_app. now rewrite <- Hw'.
      * intros i Hi. rewrite Hsplit.
        assert (Ea : a = - (wsum w' (coord 0) (l1 ++ l2) / coord 0 c)).
        { unfold a, wsum, kdot. f_equal. f_equal.
          - f_equal. apply map_ext. intros x. now destruct x.
          - now destruct c. }
        destruct i as [|j].
        -- rewrite Ea. now field.
        -- specialize (Hk j ltac:(lia)).
           assert (Hk' : wsum w' (coord (S j)) (l1 ++ l2)
                         - wsum w' (coord 0) (l1 ++ l2) / coord 0 c
                           * coord (S j) c = 0).
           { rewrite <- (@wsum_div (list (K Alg)) w' (coord 0) (coord 0 c)
                           (l1 ++ l2) Hc).
             rewrite <- (@wsum_reduce (list (K Alg)) w' (coord (S j))
                           (fun x => coord 0 x / coord 0 c) (coord (S j) c)
                           (l1 ++ l2)).
             rewrite <- Hk. unfold wsum at 2. rewrite map_map.
             apply wsum_ext. intros x Hx. symmetry. unfold red.
             apply coord_reduce_by. rewrite Hc'. auto. }
           rewrite Ea. rewrite <- Hk'. now field.
    + intros Hw. pose proof (split_pivot_none Ep) as Hz.
      destruct (IH (map (@tl _) cs) w) as (Hl & Hnt & Hk); trivial.
      { apply Forall_forall. intros y Hy. apply in_map_iff in Hy.
        destruct Hy as (x & <- & Hx). rewrite Forall_forall in Hlen.
        specialize (Hlen x Hx). destruct x; simpl in *; lia. }
      rewrite length_map in Hl. repeat split; trivial.
      intros i Hi. destruct i as [|j].
      * now apply wsum_zero.
      * specialize (Hk j ltac:(lia)). unfold wsum in Hk. rewrite map_map in Hk.
        rewrite <- Hk. apply wsum_ext. intros x _. symmetry. apply coord_tl.
Qed.

Lemma split_at (A B : Type) (l1 l2 : list A) (c : A) (w : list B) :
  length w = length (l1 ++ c :: l2) ->
  exists w1 a w2, w = w1 ++ a :: w2 /\ length w1 = length l1
                  /\ length w2 = length l2.
Proof.
  revert w. induction l1 as [|x l1 IH]; intros [|b w] H; simpl in H;
    try discriminate.
  - exists [], b, w. simpl. repeat split. lia.
  - destruct (IH w) as (w1 & a & w2 & -> & H1 & H2); [lia|].
    exists (b :: w1), a, w2. simpl. repeat split; lia.
Qed.

(** When [find_dep] finds nothing, the vectors are independent. *)
Lemma find_dep_complete (m : nat) (cs : list (list (K Alg))) (w : list (K Alg)) :
  Forall (fun c => length c = m) cs ->
  kfind_dep m cs = None ->
  length w = length cs ->
  (forall i, i < m -> wsum w (coord i) cs = 0) ->
  forall x, In x w -> x = 0.
Proof.
  unfold kfind_dep. revert cs w. induction m as [|m IH]; intros cs w Hlen.
  - simpl. destruct cs as [|c cs]; [|discriminate].
    intros _ Hw _ x Hx. destruct w; [contradiction | discriminate].
  - simpl. destruct (split_pivot 0 (Keqb Alg) cs) as [[[l1 c] l2]|] eqn:Ep.
    + destruct (split_pivot_some Ep) as [-> Hc].
      assert (Hc' : length c = S m).
      { rewrite Forall_forall in Hlen. apply Hlen, in_or_app. simpl. auto. }
      assert (Ho : forall x, In x (l1 ++ l2) -> length x = S m).
      { rewrite Forall_forall in Hlen. intros x Hx. apply Hlen.
        apply in_app_or in Hx. apply in_or_app. simpl. tauto. }
      set (red := reduce_by 0 (Kadd Alg) (Kmul Alg) (Kopp Alg) (Kdiv Alg) c).
      destruct (find_dep 0 1 (Kadd Alg) (Kmul Alg) (Kopp Alg) (Kdiv Alg)
                  (Keqb Alg) m (map red (l1 ++ l2))) as [w'|] eqn:Ef;
        [discriminate|].
      intros _ Hw Hk.
      destruct (split_at Hw) as (w1 & a & w2 & -> & H1 & H2).
      assert (Hsplit : forall f : list (K Alg) -> K Alg,
                wsum (w1 ++ a :: w2) f (l1 ++ c :: l2)
                = wsum (w1 ++ w2) f (l1 ++ l2) + a * f c).
      { intros f. rewrite !wsum_app by trivial. rewrite wsum_cons. ring. }
      assert (H0 : wsum (w1 ++ w2) (coord 0) (l1 ++ l2) + a * coord 0 c = 0).
      { rewrite <- Hsplit. apply Hk. lia. }
      assert (Hz : forall x, In x (w1 ++ w2) -> x = 0).
      { apply (IH (map red (l1 ++ l2))); trivial.
        - apply Forall_forall. intros y Hy. apply in_map_iff in Hy.
          destruct Hy as (x & <- & Hx). apply length_reduce_by; auto.
        - rewrite length_map, !length_app. lia.
        - intros j Hj. unfold wsum. rewrite map_map.
          fold (wsum (w1 ++ w2) (fun x => coord j (red x)) (l1 ++ l2)).
          rewrite (@wsum_ext (list (K Alg)) (w1 ++ w2)
                     (fun x => coord j (red x))
                     (fun x => coord (S j) x
                               + - ((fun y => coord 0 y / coord 0 c) x
                                    * coord (S j) c)) (l1 ++ l2)).
          2:{ intros x Hx. unfold red. apply coord_reduce_by.
              rewrite Hc'. auto. }
          rewrite wsum_reduce, wsum_div by trivial.
          assert (HS : wsum (w1 ++ w2) (coord (S j)) (l1 ++ l2)
                       + a * coord (S j) c = 0).
          { rewrite <- Hsplit. apply Hk. lia. }
          transitivity
            ((wsum (w1 ++ w2) (coord (S j)) (l1 ++ l2) + a * coord (S j) c)
             - (wsum (w1 ++ w2) (coord 0) (l1 ++ l2) + a * coord 0 c)
               / coord 0 c * coord (S j) c); [now field|].
          rewrite HS, H0. now field. }
      assert (Ha : a = 0).
      { unfold wsum in H0. rewrite kdot_zero_l in H0 by exact Hz.
        destruct (@Kmul_eq_0 a (coord 0 c)) as [E|E]; trivial.
        - rewrite <- H0. ring.
        - contradiction. }
      intros x Hx. apply in_app_or in Hx. destruct Hx as [Hx|[Hx|Hx]].
      * apply Hz, in_or_app. auto.
      * congruence.
      * apply Hz, in_or_app. auto.
    + intros Hn Hw Hk. apply (IH (map (@tl _) cs)); trivial.
      * apply Forall_forall. intros y Hy. apply in_map_iff in Hy.
        destruct Hy as (x & <- & Hx). rewrite Forall_forall in Hlen.
        specialize (Hlen x Hx). destruct x; simpl in *; lia.
      * now rewrite length_map.
      * intros j Hj. unfold wsum. rewrite map_map.
        rewrite <- (Hk (S j)) by lia. apply wsum_ext.
        intros x _. apply coord_tl.
Qed.

(** More vectors than coordinates are always dependent. *)
Lemma find_dep_some (m : nat) (cs : list (list (K Alg))) :
  m < length cs -> kfind_dep m cs <> None.
Proof.
  unfold kfind_dep. revert cs. induction m as [|m IH]; intros cs H.
  - simpl. destruct cs; [simpl in H; lia | discriminate].
  - simpl. destruct (split_pivot 0 (Keqb Alg) cs) as [[[l1 c] l2]|] eqn:Ep.
    + destruct (split_pivot_some Ep) as [-> Hc].
      set (red := reduce_by 0 (Kadd Alg) (Kmul Alg) (Kopp Alg) (Kdiv Alg) c).
      specialize (IH (map red (l1 ++ l2))).
      destruct (find_dep 0 1 (Kadd Alg) (Kmul Alg) (Kopp Alg) (Kdiv Alg)
                  (Keqb Alg) m (map red (l1 ++ l2))); [discriminate|].
      exfalso. apply IH; trivial.
      rewrite length_map, length_app. rewrite length_app in H. simpl in H. lia.
    + apply IH. rewrite length_map. lia.
Qed.

(** The rows of a rectangular matrix against the columns of its
    transpose. *)
Lemma map_nth_seq (r : list (K Alg)) :
  map (fun j => nth j r 0) (seq 0 (length r)) = r.
Proof.
  induction r as [|x r IH]; trivial.
  simpl. f_equal. rewrite <- seq_shift, map_map. exact IH.
Qed.

Lemma nth_map_lt (A B : Type) (f : A -> B) (l : list A) (i : nat) (d : A)
  (d' : B) :
  i < length l -> nth i (map f l) d' = f (nth i l d).
Proof.
  revert i. induction l as [|x l IH]; intros [|i] H; simpl in *;
    try lia; trivial.
  apply IH. lia.
Qed.

Lemma length_transpose (M : matrix (K Alg)) :
  length (transpose 0 M) = ncols M.
Proof. unfold transpose. now rewrite length_map, length_seq. Qed.

Lemma transpose_columns (M : matrix (K Alg)) :
  Forall (fun c => length c = length M) (transpose 0 M).
Proof.
  apply Forall_forall. intros c Hc. unfold transpose in Hc.
  apply in_map_iff in Hc. destruct Hc as (j & <- & _).
  unfold column. apply length_map.
Qed.

Lemma coord_transpose (M : matrix (K Alg)) (i : nat) :
  rectangular M -> i < length M ->
  map (coord i) (transpose 0 M) = nth i M [].
Proof.
  intros Hr Hi. unfold transpose. rewrite map_map.
  assert (Hlen : length (nth i M []) = ncols M).
  { unfold rectangular in Hr. rewrite Forall_forall in Hr.
    apply Hr, nth_In, Hi. }
  transitivity (map (fun j => nth j (nth i M []) 0) (seq 0 (ncols M))).
  - apply map_ext. intros j. unfold coord, column.
    exact (@nth_map_lt _ _ (fun row : list (K Alg) => nth j row 0) M i [] 0 Hi).
  - rewrite <- Hlen. apply map_nth_seq.
Qed.

Lemma in_kernel_rows (M : matrix (K Alg)) (v : list (K Alg)) :
  rectangular M ->
  in_kernel M v <->
  length v = ncols M /\
  forall i, i < length M -> wsum v (coord i) (transpose 0 M) = 0.
Proof.
  intros Hr. unfold in_kernel. rewrite Forall_forall. split.
  - intros [Hl Hk]. split; trivial. intros i Hi.
    unfold wsum. rewrite coord_transpose, kdot_comm by trivial.
    apply Hk, nth_In, Hi.
  - intros [Hl Hk]. split; trivial. intros row Hrow.
    destruct (In_nth M row [] Hrow) as (i & Hi & <-).
    rewrite kdot_comm, <- coord_transpose by trivial. now apply Hk.
Qed.

(** The Gaussian solver keeps the contract of a solver. *)
Lemma field_solver_sound : solver_sound (@field_solver Alg).
Proof.
  intros M v Hr Hv. unfold field_solver, gauss_solver in Hv.
  fold (kfind_dep (length M) (transpose 0 M)) in Hv.
  destruct (kfind_dep (length M) (transpose 0 M)) as [w|] eqn:E;
    [|contradiction].
  destruct Hv as [<-|[]].
  destruct (find_dep_sound (transpose_columns M) E) as (Hl & Hnt & Hk).
  split; trivial. apply in_kernel_rows; trivial.
  split; trivial. now rewrite Hl, length_transpose.
Qed.

Lemma field_solver_exact : solver_exact (@field_solver Alg).
Proof.
  intros M Hr. split.
  - intros Hne. destruct (field_solver M) as [|v l] eqn:E; [congruence|].
    exists v. apply field_solver_sound; trivial. rewrite E. now left.
  - intros (v & Hk & x & Hx & Hnz) E. apply Hnz.
    apply in_kernel_rows in Hk; trivial. destruct Hk as [Hl Hk].
    unfold field_solver, gauss_solver in E.
    fold (kfind_dep (length M) (transpose 0 M)) in E.
    destruct (kfind_dep (length M) (transpose 0 M)) as [w|] eqn:Ef;
      [discriminate|].
    apply (@find_dep_complete (length M) (transpose 0 M) v
             (transpose_columns M) Ef); trivial.
    now rewrite length_transpose.
Qed.

(** A rectangular matrix with more columns than rows has a null-space
    vector that is not trivial. *)
Lemma wide_matrix_kernel (M : matrix (K Alg)) :
  rectangular M -> length M < ncols M ->
  exists v, in_kernel M v /\ nontrivial v.
Proof.
  intros Hr Hwide.
  destruct (kfind_dep (length M) (transpose 0 M)) as [w|] eqn:E.
  - destruct (find_dep_sound (transpose_columns M) E) as (Hl & Hnt & Hk).
    exists w. split; trivial. apply in_kernel_rows; trivial.
    split; trivial. now rewrite Hl, length_transpose.
  - exfalso. apply (@find_dep_some (length M) (transpose 0 M)); trivial.
    now rewrite length_transpose.
Qed.

(** *** Deciding equalities of operators *)

Lemma op_eqb_eq (A B : op Alg) : op_eqb A B = true <-> A = B.
Proof.
  revert B. induction A as [|a A IH]; intros [|b B]; simpl;
    try (split; congruence).
  rewrite andb_true_iff, Keqb_eq, IH. split.
  - now intros [-> ->].
  - intros H. now injection H.
Qed.

Lemma bezout_holds_false (self other : op Alg) (prs : option strategy) :
  bezout_holds self other prs = Some false ->
  exists G S T,
    xgcrd self other prs = Ret (XTriple G S T) /\
    ore_add (ore_mul S self) (ore_mul T other) <> G.
Proof.
  unfold bezout_holds.
  destruct (xgcrd self other prs) as [[g|G S0 T]| |]; try discriminate.
  intros H. exists G, S0, T. split; trivial.
  intros E. apply op_eqb_eq in E. congruence.
Qed.

Lemma bezout_holds_true (self other : op Alg) (prs : option strategy) :
  bezout_holds self other prs = Some true ->
  exists G S T,
    xgcrd self other prs = Ret (XTriple G S T) /\
    ore_add (ore_mul S self) (ore_mul T other) = G.
Proof.
  unfold bezout_holds.
  destruct (xgcrd self other prs) as [[g|G S0 T]| |]; try discriminate.
  intros H. exists G, S0, T. split; trivial.
  apply op_eqb_eq. congruence.
Qed.

(** *** Division with remainder: the results *)

Lemma mkop_nonzero (b : list (K Alg)) :
  mkop b <> ore_zero Alg -> is_zero (mkop b) = false.
Proof.
  intros H. destruct (is_zero (mkop b)) eqn:E; trivial.
  apply is_zero_nil in E. contradiction.
Qed.

Lemma quo_rem_exact (A B : op Alg) :
  wf A -> wf B -> B <> [] ->
  exists Q R,
    quo_rem A B false = Ret (Q, R) /\ wf R /\
    (order R < order B)%Z /\
    forall k, coef (ore_mul Q B) k + coef R k = coef A k.
Proof.
  intros HA HB HB0. unfold quo_rem.
  assert (is_zero B = false) as -> by (destruct B; simpl; congruence).
  destruct (order A <? order B)%Z eqn:E.
  - exists (ore_zero Alg), A. apply Z.ltb_lt in E. repeat split; trivial.
    intros k. rewrite ore_mul_zero_l. unfold ore_zero. rewrite coef_nil. ring.
  - destruct (@qr_loop_true A B HB HB0 (2 * length A + 3) (ore_zero Alg)
               (qr_init A B false))
      as (Q & R & HQR & HR & Hlt & Hid).
    + unfold qr_inv. simpl. auto.
    + reflexivity.
    + simpl. lia.
    + exists Q, R. repeat split; trivial.
      * now apply order_lt_length.
      * intros k. rewrite Hid, ore_mul_zero_l. unfold ore_zero.
        rewrite coef_nil. ring.
Qed.

(** C1.  For every operator [A] and every nonzero operator [B],
    [quo_rem(A, B)] returns a pair [(Q, R)] with [Q*B + R == A] and
    [R] zero or of lower order than [B]; [A // B] and [A % B] are this
    [Q] and this [R], so that [(A // B)*B + (A % B) == A]. *)
Theorem quo_rem_spec (a b : list (K Alg)) :
  mkop b <> ore_zero Alg ->
  exists Q R,
    quo_rem (mkop a) (mkop b) false = Ret (Q, R) /\
    ore_add (ore_mul Q (mkop b)) R = mkop a /\
    (R = ore_zero Alg \/ (order R < order (mkop b))%Z) /\
    floordiv (mkop a) (mkop b) = Ret Q /\
    ore_mod (mkop a) (mkop b) = Ret R.
Proof.
  intros Hb.
  destruct (@quo_rem_exact (mkop a) (mkop b) (wf_mkop a) (wf_mkop b) Hb)
    as (Q & R & HQR & HR & Hlt & Hid).
  exists Q, R. unfold floordiv, ore_mod. rewrite HQR. simpl.
  repeat split; auto.
  apply wf_ext; [apply wf_ore_add | apply wf_mkop |].
  intros k. now rewrite coef_ore_add, Hid.
Qed.

(** *** The order of a product *)

Lemma length_ore_mul_le (X B : op Alg) :
  wf B -> length (ore_mul X B) <= (length X + length B - 1)%nat.
Proof.
  intros HB. rewrite <- (wf_ore_mul X HB). apply length_norm_le.
  intros k Hk. rewrite coef_ore_mul. apply bigsum_0. intros i Hi.
  rewrite coef_Dpow_high by lia. ring.
Qed.

Lemma length_ore_mul (X B : op Alg) :
  wf X -> X <> [] -> wf B -> B <> [] ->
  length (ore_mul X B) = (length X + length B - 1)%nat.
Proof.
  intros HX HX0 HB HB0. apply Nat.le_antisymm; [now apply length_ore_mul_le|].
  assert (1 <= length X) by (destruct X; simpl; [congruence | lia]).
  assert (1 <= length B) by (destruct B; simpl; [congruence | lia]).
  enough (length X + length B - 2 < length (ore_mul X B))%nat by lia.
  rewrite <- (wf_ore_mul X HB). apply length_norm_gt.
  rewrite coef_ore_mul.
  rewrite (@bigsum_single (length X) (length X - 1)%nat); [|lia|].
  - replace (length X + length B - 2)%nat
      with (length B - 1 + (length X - 1))%nat by lia.
    assert (Hlc : coef B (length B - 1)%nat <> 0)
      by (rewrite <- last_coef; now apply wf_last).
    rewrite coef_Dpow_lead by trivial.
    intros E. apply Kmul_eq_0 in E. destruct E as [E|E].
    + rewrite <- last_coef in E. now apply (wf_last HX HX0).
    + now apply (@iter_sigma_nonzero (length X - 1)%nat _ Hlc).
  - intros i Hi.
    destruct (Nat.lt_ge_cases i (length X)) as [Hlt|Hge].
    + rewrite coef_Dpow_high by lia. ring.
    + rewrite coef_overflow by lia. ring.
Qed.

(** *** Exact right division *)

(** When [L] is a left multiple of [B], the division of [L] by [B]
    leaves no remainder. *)
Lemma floordiv_exact (X L B : op Alg) :
  wf L -> wf B -> B <> [] ->
  (forall k, coef (ore_mul X B) k = coef L k) ->
  exists Q, floordiv L B = Ret Q /\ ore_mul Q B = L.
Proof.
  intros HL HB HB0 HX.
  destruct (quo_rem_exact HL HB HB0) as (Q & R & HQR & HR & Hlt & Hid).
  exists Q. unfold floordiv. rewrite HQR. split; trivial.
  set (Z := ore_sub X Q).
  assert (HZ : forall k, coef (ore_mul Z B) k = coef R k).
  { intros k. unfold Z. rewrite coef_mul_sub_l, HX, <- (Hid k). ring. }
  assert (HZB : ore_mul Z B = R)
    by (apply wf_ext; trivial; now apply wf_ore_mul).
  assert (HZ0 : Z = []).
  { destruct Z as [|z Z'] eqn:EZ; trivial. exfalso.
    assert (HwZ : wf (z :: Z')) by (rewrite <- EZ; apply wf_ore_sub).
    pose proof (@length_ore_mul (z :: Z') B HwZ ltac:(discriminate) HB HB0) as Hlen.
    rewrite HZB in Hlen. apply order_lt_length in Hlt.
    simpl in Hlen. lia. }
  apply wf_ext; trivial; [now apply wf_ore_mul|].
  intros k. specialize (Hid k). specialize (HZ k).
  rewrite HZ0 in HZ. change (ore_mul [] B) with (@nil (K Alg)) in HZ.
  rewrite coef_nil in HZ. rewrite <- Hid, <- HZ. ring.
Qed.

(** *** Associativity of the product *)

Hypothesis sigma_add : forall x y : K Alg, sigma Alg (x + y) = sigma Alg x + sigma Alg y.
Hypothesis sigma_mul : forall x y : K Alg, sigma Alg (x * y) = sigma Alg x * sigma Alg y.
Hypothesis delta_add : forall x y : K Alg, delta Alg (x + y) = delta Alg x + delta Alg y.
Hypothesis delta_mul : forall x y : K Alg,
  delta Alg (x * y) = sigma Alg x * delta Alg y + delta Alg x * y.

Lemma sigma_0 : sigma Alg 0 = 0.
Proof.
  pose proof (sigma_add 0 0) as H.
  replace (0 + 0) with 0 in H by ring.
  transitivity (sigma Alg 0 + sigma Alg 0 - sigma Alg 0); [ring|].
  rewrite <- H. ring.
Qed.

Lemma delta_0 : delta Alg 0 = 0.
Proof.
  pose proof (delta_add 0 0) as H.
  replace (0 + 0) with 0 in H by ring.
  transitivity (delta Alg 0 + delta Alg 0 - delta Alg 0); [ring|].
  rewrite <- H. ring.
Qed.

Lemma on_nonzero_sigma (x : K Alg) : on_nonzero (sigma Alg) x = sigma Alg x.
Proof.
  unfold on_nonzero. destruct (is0 x) eqn:E; trivial.
  apply is0_true in E. subst x. symmetry. apply sigma_0.
Qed.

Lemma on_nonzero_delta (x : K Alg) : on_nonzero (delta Alg) x = delta Alg x.
Proof.
  unfold on_nonzero. destruct (is0 x) eqn:E; trivial.
  apply is0_true in E. subst x. symmetry. apply delta_0.
Qed.

Lemma sigma_bigsum (n : nat) (f : nat -> K Alg) :
  sigma Alg (bigsum n f) = bigsum n (fun i => sigma Alg (f i)).
Proof.
  induction n as [|n IH]; simpl; [apply sigma_0|]. now rewrite sigma_add, IH.
Qed.

Lemma delta_bigsum (n : nat) (f : nat -> K Alg) :
  delta Alg (bigsum n f) = bigsum n (fun i => delta Alg (f i)).
Proof.
  induction n as [|n IH]; simpl; [apply delta_0|]. now rewrite delta_add, IH.
Qed.

Lemma bigsum_exchange (n m : nat) (f : nat -> nat -> K Alg) :
  bigsum n (fun j => bigsum m (fun i => f i j))
  = bigsum m (fun i => bigsum n (fun j => f i j)).
Proof.
  induction n as [|n IH]; simpl.
  - symmetry. now apply bigsum_0.
  - rewrite IH, <- bigsum_add. reflexivity.
Qed.

Lemma coef_twist' (p : list (K Alg)) (k : nat) :
  coef (twist p) k = twist_coef p k.
Proof.
  rewrite coef_twist. unfold twist_coef.
  rewrite on_nonzero_delta. destruct k; trivial. now rewrite on_nonzero_sigma.
Qed.

Lemma twist_ext (p q : list (K Alg)) :
  (forall k, coef p k = coef q k) ->
  forall k, coef (twist p) k = coef (twist q) k.
Proof.
  intros H k. rewrite !coef_twist'. unfold twist_coef.
  rewrite H. destruct k; trivial. now rewrite H.
Qed.

Lemma Dpow_ext (i : nat) (p q : list (K Alg)) :
  (forall k, coef p k = coef q k) ->
  forall k, coef (Dpow i p) k = coef (Dpow i q) k.
Proof.
  intros H. induction i as [|i IH]; trivial.
  rewrite !Dpow_S. now apply twist_ext.
Qed.

(** [D * (X * B) = (D * X) * B] *)
Lemma twist_mul (X B : op Alg) (k : nat) :
  coef (twist (ore_mul X B)) k = coef (ore_mul (twist X) B) k.
Proof.
  rewrite coef_twist'. unfold twist_coef.
  rewrite (@coef_ore_mul_ge (twist X) B k (S (length X)) (length_twist_le X)).
  rewrite (bigsum_ext
             (g := fun i => match i with
                            | O => 0
                            | S j => sigma Alg (coef X j) * coef (Dpow i B) k
                            end + delta Alg (coef X i) * coef (Dpow i B) k)).
  2:{ intros i _. rewrite coef_twist'. unfold twist_coef.
      destruct i; ring. }
  rewrite bigsum_add, bigsum_shift.
  rewrite (@bigsum_extend (length X) (S (length X))
             (fun i => delta Alg (coef X i) * coef (Dpow i B) k)); [|lia|].
  2:{ intros i Hi. rewrite coef_overflow by lia. rewrite delta_0. ring. }
  rewrite !coef_ore_mul.
  rewrite delta_bigsum.
  rewrite (bigsum_ext
             (f := fun i => delta Alg (coef X i * coef (Dpow i B) k))
             (g := fun i => sigma Alg (coef X i) * delta Alg (coef (Dpow i B) k)
                            + delta Alg (coef X i) * coef (Dpow i B) k))
    by (intros; apply delta_mul).
  rewrite bigsum_add.
  destruct k as [|k].
  - rewrite (bigsum_ext
               (f := fun j => sigma Alg (coef X j) * coef (Dpow (S j) B) 0)
               (g := fun j => sigma Alg (coef X j) * delta Alg (coef (Dpow j B) 0))).
    + ring.
    + intros j _. rewrite Dpow_S, coef_twist'. unfold twist_coef. ring.
  - rewrite coef_ore_mul, sigma_bigsum.
    rewrite (bigsum_ext
               (f := fun j => sigma Alg (coef X j) * coef (Dpow (S j) B) (S k))
               (g := fun j => sigma Alg (coef X j * coef (Dpow j B) k)
                              + sigma Alg (coef X j)
                                * delta Alg (coef (Dpow j B) (S k)))).
    + rewrite bigsum_add. ring.
    + intros j _. rewrite Dpow_S, coef_twist', sigma_mul. unfold twist_coef. ring.
Qed.

Lemma Dpow_mul (i : nat) (X B : op Alg) (k : nat) :
  coef (Dpow i (ore_mul X B)) k = coef (ore_mul (Dpow i X) B) k.
Proof.
  revert k. induction i as [|i IH]; intros k; trivial.
  rewrite !Dpow_S. rewrite (twist_ext IH). apply twist_mul.
Qed.

Theorem ore_mul_assoc_coef (A X B : op Alg) (k : nat) :
  coef (ore_mul (ore_mul A X) B) k = coef (ore_mul A (ore_mul X B)) k.
Proof.
  set (N := (length A + length X + length (ore_mul A X))%nat).
  rewrite (@coef_ore_mul_ge (ore_mul A X) B k N) by (unfold N; lia).
  rewrite (bigsum_ext
             (g := fun j => bigsum (length A)
                              (fun i => coef A i * (coef (Dpow i X) j
                                                    * coef (Dpow j B) k)))).
  2:{ intros j _. rewrite coef_ore_mul.
      transitivity (coef (Dpow j B) k
                    * bigsum (length A) (fun i => coef A i * coef (Dpow i X) j));
        [ring|].
      rewrite <- bigsum_scale. apply bigsum_ext. intros; ring. }
  rewrite (bigsum_exchange N (length A)
             (fun i j => coef A i * (coef (Dpow i X) j * coef (Dpow j B) k))).
  rewrite coef_ore_mul. apply bigsum_ext. intros i Hi.
  rewrite bigsum_scale. f_equal.
  rewrite Dpow_mul. symmetry. apply coef_ore_mul_ge.
  pose proof (length_Dpow_le i X). unfold N. lia.
Qed.

(** *** The ladder of [lclm] *)

Lemma ore_mul_gen (X : op Alg) : ore_mul (gen Alg) X = twist X.
Proof.
  destruct X as [|x X].
  - rewrite twist_nil. rewrite gen_eq. reflexivity.
  - apply wf_ext.
    + rewrite gen_eq. unfold ore_mul. simpl. apply wf_mkop.
    + apply wf_twist.
    + intros k. apply coef_mul_gen.
Qed.

Lemma last_shifted (A : op Alg) (n : nat) :
  last (shifted A n) (ore_zero Alg) = Dpow n A.
Proof.
  unfold shifted. rewrite seq_S, map_app. simpl. apply last_last.
Qed.

Lemma extend_shifted (A : op Alg) (n : nat) :
  extend (shifted A n) = shifted A (S n).
Proof.
  unfold extend. rewrite last_shifted, ore_mul_gen.
  unfold shifted at 2. rewrite (seq_S (S n) 0), map_app. reflexivity.
Qed.

Lemma iter_extend (A : op Alg) (n : nat) :
  Nat.iter n (@extend Alg) [A] = shifted A n.
Proof.
  induction n as [|n IH]; trivial.
  simpl. rewrite IH. apply extend_shifted.
Qed.

Lemma length_shifted (A : op Alg) (n : nat) : length (shifted A n) = S n.
Proof. unfold shifted. now rewrite length_map, length_seq. Qed.

Lemma in_shifted (A p : op Alg) (n : nat) :
  In p (shifted A n) -> exists i, i <= n /\ p = Dpow i A.
Proof.
  unfold shifted. intros H. apply in_map_iff in H.
  destruct H as (i & <- & Hi). apply in_seq in Hi. exists i. split; [lia|trivial].
Qed.

Lemma length_coeffs (p : op Alg) (T : nat) :
  length p <= S T -> length (coeffs p (Z.of_nat T)) = S T.
Proof.
  intros H. unfold coeffs.
  destruct (Z.of_nat (length p) <=? Z.of_nat T)%Z eqn:E.
  - apply Z.leb_le in E. rewrite length_app, repeat_length. lia.
  - apply Z.leb_gt in E. lia.
Qed.

Lemma coord_coeffs (p : op Alg) (t : Z) (k : nat) :
  coord k (coeffs p t) = coef p k.
Proof.
  unfold coeffs, coord, coef.
  destruct (Z.of_nat (length p) <=? t)%Z; trivial.
  destruct (Nat.lt_ge_cases k (length p)) as [H|H].
  - now rewrite app_nth1.
  - rewrite app_nth2 by trivial. rewrite (nth_overflow p) by trivial.
    apply nth_repeat.
Qed.

Lemma rectangular_transpose (V : matrix (K Alg)) : rectangular (transpose 0 V).
Proof.
  unfold rectangular, transpose.
  destruct (seq 0 (ncols V)) as [|j l]; simpl; [constructor|].
  apply Forall_forall. intros row Hrow.
  assert (Hr : exists i, row = column 0 i V).
  { destruct Hrow as [<-|Hrow]; [now exists j|].
    apply in_map_iff in Hrow. destruct Hrow as (i & <- & _). now exists i. }
  destruct Hr as [i ->]. unfold column. now rewrite !length_map.
Qed.

Lemma ncols_transpose (V : matrix (K Alg)) :
  1 <= ncols V -> ncols (transpose 0 V) = length V.
Proof.
  intros H. unfold transpose. destruct (ncols V) as [|n]; [lia|].
  simpl. unfold column. apply length_map.
Qed.

Lemma in_kernel_transpose (V : matrix (K Alg)) (v : list (K Alg)) :
  1 <= ncols V ->
  in_kernel (transpose 0 V) v <->
  length v = length V /\ forall k, k < ncols V -> wsum v (coord k) V = 0.
Proof.
  intros H. unfold in_kernel. rewrite ncols_transpose by trivial.
  rewrite Forall_forall. split; intros [Hl Hk]; split; trivial.
  - intros k Hk'. unfold wsum. rewrite kdot_comm.
    apply Hk. unfold transpose. apply in_map_iff. exists k. split; trivial.
    apply in_seq. lia.
  - intros row Hrow. unfold transpose in Hrow. apply in_map_iff in Hrow.
    destruct Hrow as (k & <- & Hk'). apply in_seq in Hk'.
    rewrite kdot_comm. apply Hk. lia.
Qed.

Section Ladder.

Variables A B : op Alg.
Hypothesis wf_A : wf A.
Hypothesis wf_B : wf B.
Hypothesis A_nonzero : A <> [].
Hypothesis B_nonzero : B <> [].

Variable slv : matrix (K Alg) -> list (list (K Alg)).
Hypothesis slv_exact : solver_exact slv.

(** The orders of the two operators, as natural numbers. *)
Let r : nat := (length A - 1)%nat.
Let s : nat := (length B - 1)%nat.

Lemma ladder_vectors (T : nat) :
  r <= T -> s <= T ->
  Forall (fun c => length c = S T)
         (map (fun p => coeffs p (Z.of_nat T)) (ladder_rows A B T)).
Proof.
  intros Hr Hs. apply Forall_forall. intros c Hc.
  apply in_map_iff in Hc. destruct Hc as (p & <- & Hp).
  apply length_coeffs. unfold ladder_rows in Hp. fold r s in Hp.
  assert (1 <= length A) by (destruct A; simpl; [congruence|lia]).
  assert (1 <= length B) by (destruct B; simpl; [congruence|lia]).
  apply in_app_or in Hp. destruct Hp as [Hp|Hp];
    apply in_shifted in Hp; destruct Hp as (i & Hi & ->).
  - pose proof (length_Dpow_le i A). unfold r in *. lia.
  - pose proof (length_Dpow_le i B). unfold s in *. lia.
Qed.

Lemma ladder_ncols (T : nat) :
  r <= T -> s <= T ->
  ncols (map (fun p => coeffs p (Z.of_nat T)) (ladder_rows A B T)) = S T.
Proof.
  intros Hr Hs. pose proof (ladder_vectors Hr Hs) as H.
  unfold ladder_rows in *. unfold shifted at 1 in H. unfold shifted at 1.
  simpl in *. now inversion H.
Qed.

Lemma length_ladder_rows (T : nat) :
  length (ladder_rows A B T) = (S (T - r) + S (T - s))%nat.
Proof. unfold ladder_rows. fold r s. now rewrite length_app, !length_shifted. Qed.

Lemma ladder_system_shape (T : nat) :
  r <= T -> s <= T ->
  let M := lclm_system (shifted A (T - r)) (shifted B (T - s)) (Z.of_nat T) in
  rectangular M /\ length M = S T
  /\ ncols M = (S (T - r) + S (T - s))%nat.
Proof.
  intros Hr Hs M. unfold M, lclm_system.
  change (shifted A (T - r) ++ shifted B (T - s)) with (ladder_rows A B T).
  split; [apply rectangular_transpose|]. split.
  - now rewrite length_transpose, ladder_ncols.
  - rewrite ncols_transpose by (rewrite ladder_ncols; trivial; lia).
    now rewrite length_map, length_ladder_rows.
Qed.

(** At the height [r + s] the system has more columns than rows, and
    the solver answers. *)
Lemma ladder_top :
  slv (lclm_system (shifted A ((r + s) - r)) (shifted B ((r + s) - s))
                   (Z.of_nat (r + s))) <> [].
Proof.
  destruct (@ladder_system_shape (r + s)%nat) as (Hrect & Hlen & Hcols);
    try lia.
  apply slv_exact; trivial.
  apply wide_matrix_kernel; trivial. rewrite Hlen, Hcols. lia.
Qed.

Lemma lclm_ladder_spec (fuel T : nat) :
  r <= T -> s <= T -> (T <= r + s)%nat -> (r + s - T <= fuel)%nat ->
  exists T' v rest,
    lclm_ladder fuel slv (Z.of_nat T) (shifted A (T - r)) (shifted B (T - s))
      (slv (lclm_system (shifted A (T - r)) (shifted B (T - s)) (Z.of_nat T)))
    = Ret (Z.of_nat T', v)
    /\ T <= T' /\ (T' <= r + s)%nat
    /\ slv (lclm_system (shifted A (T' - r)) (shifted B (T' - s)) (Z.of_nat T'))
       = v :: rest.
Proof.
  revert T. induction fuel as [|fuel IH]; intros T Hr Hs HT Hfuel.
  - assert (T = (r + s)%nat) as -> by lia.
    pose proof ladder_top as Htop.
    destruct (slv (lclm_system (shifted A (r + s - r)) (shifted B (r + s - s))
                     (Z.of_nat (r + s)))) as [|v rest] eqn:E; [congruence|].
    exists (r + s)%nat, v, rest. simpl. rewrite E. auto.
  - destruct (slv (lclm_system (shifted A (T - r)) (shifted B (T - s))
                     (Z.of_nat T))) as [|v rest] eqn:E.
    + assert (T <> (r + s)%nat).
      { intros ->. now apply ladder_top. }
      simpl. rewrite !extend_shifted.
      replace (Z.of_nat T + 1)%Z with (Z.of_nat (S T)) by lia.
      replace (S (T - r)) with (S T - r)%nat by lia.
      replace (S (T - s)) with (S T - s)%nat by lia.
      destruct (IH (S T)) as (T' & v & rest & H1 & H2 & H3 & H4); try lia.
      exists T', v, rest. repeat split; trivial. lia.
    + exists T, v, rest. simpl. auto.
Qed.

Lemma lclm_search_spec (fuel : nat) :
  (Nat.min r s <= fuel)%nat ->
  exists T' v rest,
    lclm_search fuel slv A B = Ret (Z.of_nat T', v)
    /\ Nat.max r s <= T' /\ (T' <= r + s)%nat
    /\ slv (lclm_system (shifted A (T' - r)) (shifted B (T' - s)) (Z.of_nat T'))
       = v :: rest.
Proof.
  intros Hfuel. unfold lclm_search.
  assert (1 <= length A) by (destruct A; simpl; [congruence|lia]).
  assert (1 <= length B) by (destruct B; simpl; [congruence|lia]).
  assert (EA : order A = Z.of_nat r) by (unfold order, r; lia).
  assert (EB : order B = Z.of_nat s) by (unfold order, s; lia).
  rewrite EA, EB. rewrite <- Nat2Z.inj_max.
  replace (Z.to_nat (Z.of_nat (Nat.max r s) - Z.of_nat r))
    with (Nat.max r s - r)%nat by lia.
  replace (Z.to_nat (Z.of_nat (Nat.max r s) - Z.of_nat s))
    with (Nat.max r s - s)%nat by lia.
  rewrite !iter_extend.
  apply lclm_ladder_spec; lia.
Qed.

End Ladder.

(** C7.  For nonzero operators [A] and [B] that are not scalars, of
    orders [r] and [s], and a solver whose answer is not empty exactly
    when the null space of its matrix is not trivial, the ladder loop of
    [lclm] ends after at most [min(r, s)] iterations, at a height [t]
    between [max(r, s)] and [r + s]. *)
Theorem lclm_ladder_terminates
  (slv : matrix (K Alg) -> list (list (K Alg))) (a b : list (K Alg))
  (fuel : nat) :
  solver_exact slv ->
  (1 <= order (mkop a))%Z -> (1 <= order (mkop b))%Z ->
  (Z.min (order (mkop a)) (order (mkop b)) <= Z.of_nat fuel)%Z ->
  exists t v,
    lclm_search fuel slv (mkop a) (mkop b) = Ret (t, v) /\
    (Z.max (order (mkop a)) (order (mkop b)) <= t)%Z /\
    (t <= order (mkop a) + order (mkop b))%Z.
Proof.
  intros Hslv Ha Hb Hfuel.
  assert (HA : mkop a <> []) by (intros E; rewrite E in Ha; unfold order in Ha; simpl in Ha; lia).
  assert (HB : mkop b <> []) by (intros E; rewrite E in Hb; unfold order in Hb; simpl in Hb; lia).
  edestruct (@lclm_search_spec (mkop a) (mkop b)) with (slv := slv) (fuel := fuel)
    as (T' & v & rest & H1 & H2 & H3 & _);
    eauto using wf_mkop.
  { unfold order in *. lia. }
  exists (Z.of_nat T'), v. unfold order in *. repeat split; trivial; lia.
Qed.

(** *** Left multiples *)

Lemma ore_mul_ext_r (X P Q : op Alg) :
  (forall k, coef P k = coef Q k) ->
  forall k, coef (ore_mul X P) k = coef (ore_mul X Q) k.
Proof.
  intros H k. rewrite !coef_ore_mul. apply bigsum_ext. intros i _.
  now rewrite (Dpow_ext i H).
Qed.

Lemma Dpow_one (i : nat) : Dpow i (ore_one Alg) = ore_pow (gen Alg) i.
Proof.
  induction i as [|i IH]; trivial.
  rewrite Dpow_S, IH. simpl. symmetry. apply ore_mul_gen.
Qed.

Lemma coef_ore_mul_one_r (X : op Alg) (k : nat) :
  coef (ore_mul X (ore_one Alg)) k = coef X k.
Proof.
  rewrite coef_ore_mul.
  destruct (Nat.lt_ge_cases k (length X)) as [H|H].
  - rewrite (@bigsum_single (length X) k); trivial.
    + rewrite Dpow_one, coef_gen_pow, Nat.eqb_refl. ring.
    + intros i Hi. rewrite Dpow_one, coef_gen_pow.
      assert (Nat.eqb k i = false) as -> by (apply Nat.eqb_neq; lia). ring.
  - rewrite coef_overflow by trivial. apply bigsum_0. intros i Hi.
    rewrite Dpow_one, coef_gen_pow.
    assert (Nat.eqb k i = false) as -> by (apply Nat.eqb_neq; lia). ring.
Qed.

Lemma coef_ore_mul_one_l (X : op Alg) (k : nat) :
  coef (ore_mul (ore_one Alg) X) k = coef X k.
Proof.
  change (ore_mul (ore_one Alg) X) with (ore_scal 1 X).
  rewrite coef_ore_scal. ring.
Qed.

(** Every operator is a left multiple of a nonzero constant. *)
Lemma left_multiple_of_const (L B : op Alg) :
  wf B -> length B = 1%nat ->
  exists X, forall k, coef (ore_mul X B) k = coef L k.
Proof.
  intros HB Hlen. destruct B as [|c [|]]; try discriminate.
  assert (Hc : c <> 0).
  { apply (@wf_last [c] HB). discriminate. }
  exists (ore_mul L (ore_const (1 / c))). intros k.
  rewrite ore_mul_assoc_coef.
  rewrite (@ore_mul_ext_r L _ (ore_one Alg)); [apply coef_ore_mul_one_r|].
  intros j. fold (ore_scal (1 / c) [c]). rewrite coef_ore_scal.
  unfold ore_one. rewrite coef_ore_const.
  destruct j as [|j]; cbn [coef nth].
  - now field.
  - destruct j; ring.
Qed.

Lemma length_mkop_le (l : list (K Alg)) : length (mkop l) <= length l.
Proof.
  unfold mkop. apply length_norm_le. intros i Hi. now apply coef_overflow.
Qed.

Lemma wsum_seq (w : list (K Alg)) (f : op Alg -> K Alg) (g : nat -> op Alg)
  (st : nat) :
  wsum w f (map g (seq st (length w)))
  = bigsum (length w) (fun i => coef w i * f (g (st + i)%nat)).
Proof.
  revert st. induction w as [|a w IH]; intros st; trivial.
  simpl length. rewrite bigsum_shift. simpl seq. simpl map.
  rewrite wsum_cons, IH. rewrite Nat.add_0_r. cbn [coef nth]. f_equal.
  apply bigsum_ext. intros i _. now rewrite Nat.add_succ_r.
Qed.

Lemma coef_mkop_mul (w : list (K Alg)) (A : op Alg) (k : nat) :
  coef (ore_mul (mkop w) A) k
  = wsum w (fun p => coef p k) (shifted A (length w - 1)).
Proof.
  destruct w as [|a w].
  - rewrite coef_ore_mul. reflexivity.
  - unfold shifted.
    replace (S (length (a :: w) - 1)) with (length (a :: w)) by (simpl; lia).
    rewrite (@coef_ore_mul_ge (mkop (a :: w)) A k (length (a :: w))).
    + symmetry.
      etransitivity;
        [apply (@wsum_seq (a :: w) (fun p => coef p k) (fun i => Dpow i A) 0)|].
      apply bigsum_ext. intros i _. now rewrite coef_mkop.
    + apply length_mkop_le.
Qed.

Section Relation.

Variables A B : op Alg.
Hypothesis wf_A : wf A.
Hypothesis wf_B : wf B.
Hypothesis A_nonzero : A <> [].
Hypothesis B_nonzero : B <> [].

Let r : nat := (length A - 1)%nat.
Let s : nat := (length B - 1)%nat.

(** A null-space vector of the system at the height [T] is a relation
    [U*A + W*B = 0], where [U] holds its first [T + 1 - r] entries and
    [W] the others. *)
Lemma ladder_relation (T : nat) (v : list (K Alg)) :
  r <= T -> s <= T ->
  in_kernel (lclm_system (shifted A (T - r)) (shifted B (T - s)) (Z.of_nat T)) v ->
  let U := mkop (firstn (S (T - r)) v) in
  let W := mkop (skipn (S (T - r)) v) in
  length (ore_mul U A) <= S T /\
  forall k, coef (ore_mul U A) k + coef (ore_mul W B) k = 0.
Proof.
  intros Hr Hs Hker U W.
  assert (HlA : 1 <= length A) by (destruct A; simpl; [congruence|lia]).
  assert (HlB : 1 <= length B) by (destruct B; simpl; [congruence|lia]).
  pose proof (@ladder_ncols A B wf_A wf_B A_nonzero B_nonzero T Hr Hs) as Hnc.
  pose proof (length_ladder_rows A B T) as Hrows.
  unfold ladder_rows in Hnc, Hrows. fold r s in Hnc, Hrows.
  unfold lclm_system in Hker.
  apply in_kernel_transpose in Hker; [|rewrite Hnc; lia].
  destruct Hker as [Hlen Hk].
  rewrite Hnc in Hk. rewrite length_map, Hrows in Hlen.
  assert (HfU : length (firstn (S (T - r)) v) = S (T - r))
    by (rewrite length_firstn; lia).
  assert (HfW : length (skipn (S (T - r)) v) = S (T - s))
    by (rewrite length_skipn; lia).
  assert (HUle : length (ore_mul U A) <= S T).
  { pose proof (length_ore_mul_le U wf_A).
    assert (length U <= S (T - r))
      by (rewrite <- HfU; apply length_mkop_le).
    unfold r in *. lia. }
  assert (HWle : length (ore_mul W B) <= S T).
  { pose proof (length_ore_mul_le W wf_B).
    assert (length W <= S (T - s))
      by (rewrite <- HfW; apply length_mkop_le).
    unfold s in *. lia. }
  split; trivial. intros k.
  destruct (Nat.lt_ge_cases k (S T)) as [Hlt|Hge].
  - specialize (Hk k Hlt). unfold wsum in Hk. rewrite map_map in Hk.
    fold (wsum v (fun p => coord k (coeffs p (Z.of_nat T)))
            (shifted A (T - r) ++ shifted B (T - s))) in Hk.
    rewrite (@wsum_ext _ v _ (fun p => coef p k)) in Hk
      by (intros; apply coord_coeffs).
    rewrite <- (firstn_skipn (S (T - r)) v) in Hk.
    rewrite wsum_app in Hk by (rewrite HfU, length_shifted; trivial).
    unfold U, W. rewrite !coef_mkop_mul. rewrite HfU, HfW.
    simpl Nat.sub. rewrite !Nat.sub_0_r. exact Hk.
  - rewrite !coef_overflow by lia. ring.
Qed.

End Relation.

(** The numerator of an operator is a nonzero constant times the
    operator. *)
Lemma numerator_scaled (R : RingOps (K Alg)) (Rring : option (RingOps (K Alg)))
  (A : op Alg) :
  wf A -> denominator R A <> 0 ->
  exists c, c <> 0 /\ wf (snd (numerator R Rring A)) /\
    forall k, coef (snd (numerator R Rring A)) k = c * coef A k.
Proof.
  intros HA Hden. unfold numerator. destruct (is_field R); simpl.
  - exists (denominator R A). split; [exact Hden|].
    destruct Rring; simpl; (split; [now apply wf_ore_scal|]);
      intros k; apply coef_ore_scal.
  - exists 1. split; [apply K1_neq_0|]. split; trivial. intros k. ring.
Qed.

Lemma length_scaled (p q : list (K Alg)) (c : K Alg) :
  wf p -> wf q -> c <> 0 -> (forall k, coef q k = c * coef p k) ->
  length q = length p.
Proof.
  intros Hp Hq Hc H. apply Nat.le_antisymm.
  - rewrite <- Hq. apply length_norm_le. intros i Hi.
    rewrite H, coef_overflow by trivial. ring.
  - rewrite <- Hp. apply length_norm_le. intros i Hi.
    assert (E : c * coef p i = 0) by (rewrite <- H; now apply coef_overflow).
    apply Kmul_eq_0 in E. destruct E; [contradiction | trivial].
Qed.

Lemma left_multiple_scaled (X A A' : op Alg) (c : K Alg) :
  (forall k, coef A' k = c * coef A k) ->
  forall k, coef (ore_mul (ore_mul X (ore_const c)) A) k = coef (ore_mul X A') k.
Proof.
  intros H k. rewrite ore_mul_assoc_coef. apply ore_mul_ext_r.
  intros j. fold (ore_scal c A). now rewrite coef_ore_scal, H.
Qed.

(** C3.  For nonzero operators [A] and [B] with nonzero common
    denominators, a solver that keeps its contract and an iteration
    budget of [min(order A, order B)],
    [lclm(A, B)] returns an operator [L] and [xlclm(A, B)] returns
    [(L, U, V)] with [U*A == L == V*B], and the order of [L] is at most
    [order A + order B]. *)
Theorem xlclm_spec (a b : list (K Alg)) (fuel : nat) :
  solver_sound (solver Alg) -> solver_exact (solver Alg) ->
  (forall A, denominator (base Alg) A <> 0) ->
  mkop a <> ore_zero Alg -> mkop b <> ore_zero Alg ->
  (Z.min (order (mkop a)) (order (mkop b)) <= Z.of_nat fuel)%Z ->
  exists L U V,
    lclm fuel (mkop a) (mkop b) None = Ret L /\
    xlclm fuel (mkop a) (mkop b) = Ret (L, U, V) /\
    ore_mul U (mkop a) = L /\ ore_mul V (mkop b) = L /\
    (order L <= order (mkop a) + order (mkop b))%Z.
Proof.
  intros Hsound Hexact Hden Ha Hb Hfuel.
  set (A := mkop a) in *. set (B := mkop b) in *.
  assert (HA : wf A) by apply wf_mkop.
  assert (HB : wf B) by apply wf_mkop.
  assert (HA0 : A <> []) by exact Ha.
  assert (HB0 : B <> []) by exact Hb.
  assert (HlA : 1 <= length A) by (destruct A; simpl; [congruence|lia]).
  assert (HlB : 1 <= length B) by (destruct B; simpl; [congruence|lia]).
  (* it is enough to find [L] that is a left multiple of both *)
  enough (HL : exists L, lclm fuel A B None = Ret L /\ wf L /\
                (exists X, forall k, coef (ore_mul X A) k = coef L k) /\
                (exists Y, forall k, coef (ore_mul Y B) k = coef L k) /\
                (order L <= order A + order B)%Z).
  { destruct HL as (L & HLr & HLwf & [X HX] & [Y HY] & Hord).
    destruct (floordiv_exact HLwf HA HA0 HX) as (U & HU & HUA).
    destruct (floordiv_exact HLwf HB HB0 HY) as (V & HV & HVB).
    exists L, U, V. unfold xlclm. rewrite HLr. simpl. rewrite HU. simpl.
    rewrite HV. simpl. auto. }
  unfold lclm.
  assert (is_zero A = false) as -> by (destruct A; simpl; congruence).
  assert (is_zero B = false) as -> by (destruct B; simpl; congruence).
  simpl orb. cbv iota.
  destruct (order A =? 0)%Z eqn:EA.
  { (* [self] is a constant *)
    apply Z.eqb_eq in EA. exists B. repeat split; trivial.
    - apply left_multiple_of_const; trivial. unfold order in EA. lia.
    - exists (ore_one Alg). intros k. apply coef_ore_mul_one_l.
    - lia. }
  apply Z.eqb_neq in EA.
  destruct (in_base_ring B) eqn:EB.
  { (* [other] is a constant *)
    unfold in_base_ring in EB. apply Z.leb_le in EB.
    exists A. repeat split; trivial.
    - exists (ore_one Alg). intros k. apply coef_ore_mul_one_l.
    - apply left_multiple_of_const; trivial. unfold order in EB. lia.
    - unfold order in *. lia. }
  unfold in_base_ring in EB. apply Z.leb_gt in EB.
  destruct (numerator_scaled (ring_of Alg) HA (Hden A))
    as (cA & HcA & HwA & HkA).
  destruct (numerator_scaled (ring_of Alg) HB (Hden B))
    as (cB & HcB & HwB & HkB).
  set (A' := snd (numerator (base Alg) (ring_of Alg) A)) in *.
  set (B' := snd (numerator (base Alg) (ring_of Alg) B)) in *.
  assert (HLA : length A' = length A)     by exact (@length_scaled A A' cA HA HwA HcA HkA).
  assert (HLB : length B' = length B)
    by exact (@length_scaled B B' cB HB HwB HcB HkB).
  assert (HA'0 : A' <> []) by (destruct A'; simpl in *; [lia | discriminate]).
  assert (HB'0 : B' <> []) by (destruct B'; simpl in *; [lia | discriminate]).
  edestruct (@lclm_search_spec A' B') with (slv := solver Alg) (fuel := fuel)
    as (T & v & rest & Hs1 & Hs2 & Hs3 & Hs4); eauto.
  { rewrite HLA, HLB. unfold order in Hfuel. lia. }
  rewrite Hs1. simpl bind.
  assert (Hin : In v (solver Alg
            (lclm_system (shifted A' (T - (length A' - 1)))
               (shifted B' (T - (length B' - 1))) (Z.of_nat T))))
    by (rewrite Hs4; now left).
  apply Hsound in Hin.
  2:{ apply (@ladder_system_shape A' B'); trivial; lia. }
  destruct Hin as [Hker _].
  apply ladder_relation in Hker; trivial; try lia.
  destruct Hker as [HUle Hrel].
  replace (Z.to_nat (Z.of_nat T + 1 - order A'))
    with (S (T - (length A' - 1))) by (unfold order; lia).
  set (U := mkop (firstn (S (T - (length A' - 1))) v)) in *.
  set (W := mkop (skipn (S (T - (length A' - 1))) v)) in *.
  assert (HwL : wf (ore_mul U A')) by now apply wf_ore_mul.
  exists (mkop (ore_mul U A')). rewrite (mkop_wf HwL).
  repeat split; trivial.
  - exists (ore_mul U (ore_const cA)). now apply left_multiple_scaled.
  - exists (ore_mul (ore_neg W) (ore_const cB)). intros k.
    rewrite (left_multiple_scaled (ore_neg W) HkB), coef_mul_neg_l.
    specialize (Hrel k).
    transitivity (coef (ore_mul U A') k
                  - (coef (ore_mul U A') k + coef (ore_mul W B') k)); [ring|].
    rewrite Hrel. ring.
  - unfold order. rewrite HLA, HLB in *. lia.
Qed.


(** In the exact mode no cancellation step stagnates: the division is
    carried out over the fraction field from the start. *)
Lemma quo_rem_exact_never_stagnates (a b : list (K Alg)) (st : qr_state Alg) :
  mkop b <> ore_zero Alg ->
  qr_reach (mkop a) (mkop b) false st ->
  (0 <=? qr_orddiff st)%Z = true ->
  ~ stagnates (qr_qlcs (mkop a) (mkop b)) st.
Proof.
  intros Hb Hr Eg.
  assert (HA : wf (mkop a)) by apply wf_mkop.
  assert (HB : wf (mkop b)) by apply wf_mkop.
  assert (HB0 : mkop b <> []) by exact Hb.
  edestruct (@qr_reach_inv (mkop a) (mkop b)) as [G Hinv]; eauto.
  eapply true_div_no_stagnation; eauto.
  - eapply qr_reach_exact; eauto.
  - eapply qr_guard_ge; [apply Hinv | exact Eg].
Qed.

(** *** Content and normal form over a field *)

Ltac field_K := field; repeat split; auto using K1_neq_0.

Lemma leading_coefficient_scaled (p q : list (K Alg)) (c : K Alg) :
  wf p -> wf q -> c <> 0 -> (forall k, coef q k = c * coef p k) ->
  leading_coefficient q = c * leading_coefficient p.
Proof.
  intros Hp Hq Hc H. unfold leading_coefficient.
  rewrite !last_coef, (length_scaled Hp Hq Hc H). apply H.
Qed.

Lemma nonzero_scaled (p q : list (K Alg)) (c : K Alg) :
  wf p -> wf q -> c <> 0 -> (forall k, coef q k = c * coef p k) ->
  p <> [] -> q <> [].
Proof.
  intros Hp Hq Hc H Hn E. apply Hn.
  apply length_zero_iff_nil. rewrite <- (length_scaled Hp Hq Hc H), E.
  reflexivity.
Qed.

(** Over a field the primitive part is the operator divided by its
    leading coefficient. *)
Lemma primitive_part_field (R : RingOps (K Alg)) (A : op Alg) (proof : bool) :
  is_field R = true -> wf A -> A <> [] ->
  wf (primitive_part R A proof) /\
  forall k, coef (primitive_part R A proof) k
            = 1 / leading_coefficient A * coef A k.
Proof.
  intros HR HA Hn.
  pose proof (leading_coefficient_neq_0 HA Hn) as Hlc.
  unfold primitive_part, content.
  assert (is_zero A = false) as -> by (destruct A; simpl; congruence).
  rewrite HR.
  destruct (Keqb Alg (leading_coefficient A) 1) eqn:E.
  - apply Keqb_eq in E. split; trivial. intros k. rewrite E. field_K.
  - split; [apply wf_mkop|]. intros k.
    unfold map_coefficients. rewrite coef_mkop, coef_pmap.
    unfold on_nonzero. destruct (is0 (coef A k)) eqn:E0.
    + apply is0_true in E0. rewrite E0. field_K.
    + field_K.
Qed.

(** Over a field the content of the primitive part of a nonzero operator
    is 1, whatever [proof] is. *)
Theorem primitive_part_unit_content_field (R : RingOps (K Alg))
  (a : list (K Alg)) (proof proof' : bool) :
  is_field R = true -> mkop a <> ore_zero Alg ->
  content R (primitive_part R (mkop a) proof) proof' = 1.
Proof.
  intros HR Hn. set (A := mkop a) in *.
  assert (HA : wf A) by apply wf_mkop.
  pose proof (leading_coefficient_neq_0 HA Hn) as Hlc.
  destruct (primitive_part_field proof HR HA Hn) as [HwP HP].
  assert (Hc : 1 / leading_coefficient A <> 0).
  { intros E. apply K1_neq_0.
    transitivity (1 / leading_coefficient A * leading_coefficient A);
      [field_K | rewrite E; ring]. }
  pose proof (nonzero_scaled HA HwP Hc HP Hn) as HPn.
  unfold content.
  assert (is_zero (primitive_part R A proof) = false) as ->
    by (destruct (primitive_part R A proof); simpl; congruence).
  rewrite HR, (leading_coefficient_scaled HA HwP Hc HP). field_K.
Qed.

(** Over a field that has no polynomial ring below it, the normal form
    of a nonzero operator is the operator divided by its leading
    coefficient. *)
Lemma normalize_field (A : op Alg) (proof : bool) :
  is_field (base Alg) = true -> ring_of Alg = None ->
  is_unit (base Alg) 1 = true ->
  denominator (base Alg) A <> 0 ->
  wf A -> A <> [] ->
  wf (normalize A proof) /\
  forall k, coef (normalize A proof) k = 1 / leading_coefficient A * coef A k.
Proof.
  intros HR Hring Hu Hd HA Hn.
  pose proof (leading_coefficient_neq_0 HA Hn) as Hlc.
  unfold normalize, normalize_in.
  assert (is_zero A = false) as -> by (destruct A; simpl; congruence).
  unfold numerator. rewrite HR, Hring. simpl negb. cbv iota.
  set (d := denominator (base Alg) A) in *.
  set (N := ore_scal d A).
  assert (HN : wf N) by now apply wf_ore_scal.
  assert (HNk : forall k, coef N k = d * coef A k)
    by (intros; apply coef_ore_scal).
  pose proof (nonzero_scaled HA HN Hd HNk Hn) as HNn.
  pose proof (leading_coefficient_scaled HA HN Hd HNk) as HNlc.
  pose proof (leading_coefficient_neq_0 HN HNn) as HNlc0.
  destruct (primitive_part_field proof HR HN HNn) as [HwP HP].
  set (P := primitive_part (base Alg) N proof) in *.
  assert (Hc : 1 / leading_coefficient N <> 0).
  { intros E. apply K1_neq_0.
    transitivity (1 / leading_coefficient N * leading_coefficient N);
      [field_K | rewrite E; ring]. }
  assert (HPlc : leading_coefficient P = 1).
  { rewrite (leading_coefficient_scaled HN HwP Hc HP). field_K. }
  rewrite HPlc.
  assert (descend (is_unit (base Alg)) (tower_lc (base Alg)) 1 = (1, true)) as ->
    by (destruct (tower_lc (base Alg)); simpl; now rewrite Hu).
  split; [apply wf_mkop|]. intros k.
  rewrite coef_mkop, coef_ore_scal, HP, HNk, HNlc.
  field_K.
Qed.

(** Over such a field [normalize] is idempotent. *)
Theorem normalize_idempotent_field (a : list (K Alg)) (proof : bool) :
  is_field (base Alg) = true -> ring_of Alg = None ->
  is_unit (base Alg) 1 = true ->
  (forall A, denominator (base Alg) A <> 0) ->
  normalize (normalize (mkop a) proof) proof = normalize (mkop a) proof.
Proof.
  intros HR Hring Hu Hd. set (A := mkop a).
  assert (HA : wf A) by apply wf_mkop.
  destruct (is_zero A) eqn:E0.
  { apply is_zero_nil in E0. rewrite E0. reflexivity. }
  assert (Hn : A <> []) by (intros E; rewrite E in E0; discriminate).
  pose proof (leading_coefficient_neq_0 HA Hn) as Hlc.
  destruct (normalize_field proof HR Hring Hu (Hd A) HA Hn) as [HwM HM].
  set (M := normalize A proof) in *.
  assert (Hc : 1 / leading_coefficient A <> 0).
  { intros E. apply K1_neq_0.
    transitivity (1 / leading_coefficient A * leading_coefficient A);
      [field_K | rewrite E; ring]. }
  pose proof (nonzero_scaled HA HwM Hc HM Hn) as HMn.
  assert (HMlc : leading_coefficient M = 1).
  { rewrite (leading_coefficient_scaled HA HwM Hc HM). field_K. }
  destruct (normalize_field proof HR Hring Hu (Hd M) HwM HMn) as [HwM' HM'].
  apply wf_ext; trivial. intros k. rewrite HM', HMlc. field_K.
Qed.

(** ** The ring of operators *)

Lemma coef_twist_add (p q : list (K Alg)) (k : nat) :
  coef (twist (padd p q)) k = coef (twist p) k + coef (twist q) k.
Proof.
  rewrite !coef_twist'. unfold twist_coef. rewrite coef_padd, delta_add.
  destruct k as [|j]; [ring|]. rewrite coef_padd, sigma_add. ring.
Qed.

Lemma coef_Dpow_add (i : nat) (X Y : op Alg) (k : nat) :
  coef (Dpow i (ore_add X Y)) k = coef (Dpow i X) k + coef (Dpow i Y) k.
Proof.
  revert k. induction i as [|i IH]; intros k.
  - apply coef_ore_add.
  - rewrite !Dpow_S, !coef_twist'. unfold twist_coef. rewrite IH, delta_add.
    destruct k as [|j]; [ring|]. rewrite IH, sigma_add. ring.
Qed.

Lemma coef_Dpow_neg (i : nat) (X : op Alg) (k : nat) :
  coef (Dpow i (ore_neg X)) k = - coef (Dpow i X) k.
Proof.
  assert (Hs : forall x, sigma Alg (- x) = - sigma Alg x).
  { intros x. assert (E : sigma Alg (- x) + sigma Alg x = 0)
      by (rewrite <- sigma_add; replace (- x + x) with 0 by ring; apply sigma_0).
    transitivity (sigma Alg (- x) + sigma Alg x - sigma Alg x); [ring|].
    rewrite E. ring. }
  assert (Hd : forall x, delta Alg (- x) = - delta Alg x).
  { intros x. assert (E : delta Alg (- x) + delta Alg x = 0)
      by (rewrite <- delta_add; replace (- x + x) with 0 by ring; apply delta_0).
    transitivity (delta Alg (- x) + delta Alg x - delta Alg x); [ring|].
    rewrite E. ring. }
  revert k. induction i as [|i IH]; intros k.
  - apply coef_ore_neg.
  - rewrite !Dpow_S, !coef_twist'. unfold twist_coef. rewrite IH, Hd.
    destruct k as [|j]; [ring|]. rewrite IH, Hs. ring.
Qed.

Lemma coef_mul_add_r (A X Y : op Alg) (k : nat) :
  coef (ore_mul A (ore_add X Y)) k
  = coef (ore_mul A X) k + coef (ore_mul A Y) k.
Proof.
  rewrite !coef_ore_mul, <- bigsum_add. apply bigsum_ext. intros i _.
  rewrite coef_Dpow_add. ring.
Qed.

Lemma coef_mul_neg_r (A X : op Alg) (k : nat) :
  coef (ore_mul A (ore_neg X)) k = - coef (ore_mul A X) k.
Proof.
  rewrite !coef_ore_mul, <- bigsum_opp. apply bigsum_ext. intros i _.
  rewrite coef_Dpow_neg. ring.
Qed.

Lemma coef_mul_sub_r (A X Y : op Alg) (k : nat) :
  coef (ore_mul A (ore_sub X Y)) k
  = coef (ore_mul A X) k - coef (ore_mul A Y) k.
Proof. unfold ore_sub. rewrite coef_mul_add_r, coef_mul_neg_r. ring. Qed.

Lemma ore_mul_ext_l (P Q X : op Alg) :
  (forall k, coef P k = coef Q k) ->
  forall k, coef (ore_mul P X) k = coef (ore_mul Q X) k.
Proof.
  intros H k.
  rewrite (@coef_ore_mul_ge P X k (Nat.max (length P) (length Q))) by lia.
  rewrite (@coef_ore_mul_ge Q X k (Nat.max (length P) (length Q))) by lia.
  apply bigsum_ext. intros i _. now rewrite H.
Qed.

Lemma ore_mul_zero_r (A : op Alg) : ore_mul A (ore_zero Alg) = ore_zero Alg.
Proof. destruct A; reflexivity. Qed.

Lemma ore_mul_assoc_eq (A B C : op Alg) :
  wf C -> ore_mul (ore_mul A B) C = ore_mul A (ore_mul B C).
Proof.
  intros HC. apply wf_ext.
  - now apply wf_ore_mul.
  - apply wf_ore_mul. now apply wf_ore_mul.
  - apply ore_mul_assoc_coef.
Qed.

Lemma ore_mul_one_l_eq (A : op Alg) : wf A -> ore_mul (ore_one Alg) A = A.
Proof.
  intros HA. apply wf_ext; trivial; [now apply wf_ore_mul|].
  apply coef_ore_mul_one_l.
Qed.

Lemma wf_ore_const (c : K Alg) : wf (ore_const c).
Proof. apply wf_mkop. Qed.

Lemma ore_mul_one_r_eq (A : op Alg) : wf A -> ore_mul A (ore_one Alg) = A.
Proof.
  intros HA. apply wf_ext; trivial; [apply wf_ore_mul, wf_ore_const|].
  apply coef_ore_mul_one_r.
Qed.

(** Addition of operators is commutative and associative, with the zero
    operator as its neutral element and [-A] as the inverse of [A]. *)
Theorem ore_add_laws (A B C : op Alg) :
  wf A ->
  ore_add A B = ore_add B A /\
  ore_add (ore_add A B) C = ore_add A (ore_add B C) /\
  ore_add A (ore_zero Alg) = A /\
  ore_add A (ore_neg A) = ore_zero Alg /\
  ore_sub A A = ore_zero Alg.
Proof.
  intros HA.
  assert (Hinv : ore_add A (ore_neg A) = ore_zero Alg).
  { apply wf_ext; [apply wf_ore_add | apply wf_nil |].
    intros k. rewrite coef_ore_add, coef_ore_neg. unfold ore_zero.
    rewrite coef_nil. ring. }
  repeat split; trivial.
  - apply wf_ext; try apply wf_ore_add.
    intros k. rewrite !coef_ore_add. ring.
  - apply wf_ext; try apply wf_ore_add.
    intros k. rewrite !coef_ore_add. ring.
  - apply wf_ext; trivial; [apply wf_ore_add|].
    intros k. rewrite coef_ore_add. unfold ore_zero. rewrite coef_nil. ring.
Qed.

(** Multiplication of operators is associative. *)
Theorem ore_mul_assoc (A B C : op Alg) :
  wf C -> ore_mul (ore_mul A B) C = ore_mul A (ore_mul B C).
Proof. apply ore_mul_assoc_eq. Qed.

(** Multiplication distributes over addition on both sides. *)
Theorem ore_mul_distr (A B C : op Alg) :
  wf C ->
  ore_mul (ore_add A B) C = ore_add (ore_mul A C) (ore_mul B C) /\
  ore_mul C (ore_add A B) = ore_add (ore_mul C A) (ore_mul C B).
Proof.
  intros HC. split.
  - apply wf_ext; [now apply wf_ore_mul | apply wf_ore_add |].
    intros k. now rewrite coef_mul_add_l, coef_ore_add.
  - apply wf_ext; [apply wf_ore_mul, wf_ore_add | apply wf_ore_add |].
    intros k. now rewrite coef_mul_add_r, coef_ore_add.
Qed.

(** The one of the algebra is neutral on both sides, and a product with
    the zero operator is zero. *)
Theorem ore_mul_one (A : op Alg) :
  wf A ->
  ore_mul (ore_one Alg) A = A /\ ore_mul A (ore_one Alg) = A /\
  ore_mul (ore_zero Alg) A = ore_zero Alg /\
  ore_mul A (ore_zero Alg) = ore_zero Alg.
Proof.
  intros HA. split; [now apply ore_mul_one_l_eq|].
  split; [now apply ore_mul_one_r_eq|].
  split; [reflexivity | apply ore_mul_zero_r].
Qed.

(** The order of a product of nonzero operators is the sum of the
    orders; in particular the algebra has no zero divisors. *)
Theorem order_ore_mul (A B : op Alg) :
  wf A -> wf B -> A <> ore_zero Alg -> B <> ore_zero Alg ->
  order (ore_mul A B) = (order A + order B)%Z /\
  ore_mul A B <> ore_zero Alg.
Proof.
  intros HA HB HA0 HB0. unfold ore_zero in *.
  pose proof (length_ore_mul HA HA0 HB HB0) as H.
  assert (1 <= length A) by (destruct A; simpl; [congruence|lia]).
  assert (1 <= length B) by (destruct B; simpl; [congruence|lia]).
  split.
  - unfold order. rewrite H. lia.
  - intros E. rewrite E in H. simpl in H. lia.
Qed.

(** The commutation rule of the algebra: [D * c = sigma(c) * D + delta(c)]
    for the generator [D] and every coefficient [c]. *)
Theorem gen_commutation (c : K Alg) :
  ore_mul (gen Alg) (ore_const c)
  = ore_add (ore_mul (ore_const (sigma Alg c)) (gen Alg))
            (ore_const (delta Alg c)).
Proof.
  apply wf_ext; [apply wf_ore_mul, wf_ore_const | apply wf_ore_add |].
  intros k. rewrite coef_mul_gen, coef_twist', coef_ore_add.
  change (ore_mul (ore_const (sigma Alg c)) (gen Alg))
    with (ore_scal (sigma Alg c) (gen Alg)).
  rewrite coef_ore_scal, !coef_ore_const. unfold twist_coef.
  rewrite coef_ore_const, gen_eq.
  destruct k as [|[|k]]; cbn [coef nth].
  - ring.
  - rewrite coef_ore_const. rewrite delta_0. ring.
  - rewrite coef_ore_const, sigma_0, delta_0.
    destruct k; cbn [nth]; ring.
Qed.

(** ** Exact division, inverses and monic operators *)

Lemma qr_loop_wf_quo (fuel : nat) (self other : op Alg) (qlcs : list (K Alg))
  (st : qr_state Alg) (Q R : op Alg) :
  wf (qr_quo st) -> qr_loop fuel self other qlcs st = Ret (Q, R) -> wf Q.
Proof.
  revert st. induction fuel as [|fuel IH]; intros st Hw; simpl.
  - destruct (0 <=? qr_orddiff st)%Z; [discriminate|].
    intros E. injection E as <- _. exact Hw.
  - destruct (0 <=? qr_orddiff st)%Z.
    + apply IH. unfold qr_body.
      destruct (order _ =? order (qr_p st))%Z; simpl; apply wf_ore_add.
    + intros E. injection E as <- _. exact Hw.
Qed.

Lemma quo_rem_wf_quo (A B Q R : op Alg) (ff : bool) :
  quo_rem A B ff = Ret (Q, R) -> wf Q.
Proof.
  unfold quo_rem. destruct (is_zero B); [discriminate|].
  destruct (order A <? order B)%Z.
  - intros E. injection E as <- _. apply wf_nil.
  - apply qr_loop_wf_quo. apply wf_nil.
Qed.

Lemma nonzero_length (A : op Alg) : A <> [] -> 1 <= length A.
Proof. destruct A; simpl; [congruence | lia]. Qed.

(** Two divisions of the same operator by [B] with remainders of lower
    order agree. *)
Lemma division_unique (B Q Q' R R' : op Alg) :
  wf B -> B <> [] -> wf Q -> wf Q' -> wf R -> wf R' ->
  length R < length B -> length R' < length B ->
  (forall k, coef (ore_mul Q B) k + coef R k
             = coef (ore_mul Q' B) k + coef R' k) ->
  Q = Q' /\ R = R'.
Proof.
  intros HB HB0 HQ HQ' HR HR' HlR HlR' H.
  pose proof (nonzero_length HB0) as HlB.
  assert (HD : ore_sub Q Q' = []).
  { destruct (ore_sub Q Q') as [|d D] eqn:E; trivial. exfalso.
    assert (HwD : wf (ore_sub Q Q')) by apply wf_ore_sub.
    assert (HDn : ore_sub Q Q' <> []) by (rewrite E; discriminate).
    pose proof (length_ore_mul HwD HDn HB HB0) as Hlen.
    pose proof (nonzero_length HDn) as HlD.
    assert (Hle : length (ore_mul (ore_sub Q Q') B) <= length B - 1).
    { rewrite <- (wf_ore_mul (ore_sub Q Q') HB). apply length_norm_le.
      intros i Hi. rewrite coef_mul_sub_l.
      specialize (H i).
      rewrite (@coef_overflow R i), (@coef_overflow R' i) in H by lia.
      transitivity (coef (ore_mul Q B) i + 0 - (coef (ore_mul Q' B) i + 0));
        [ring | rewrite H; ring]. }
    lia. }
  assert (HQQ : Q = Q').
  { apply wf_ext; trivial. intros k.
    assert (E : coef (ore_sub Q Q') k = 0) by (rewrite HD; apply coef_nil).
    rewrite coef_ore_sub in E.
    transitivity (coef Q k - coef Q' k + coef Q' k); [ring | rewrite E; ring]. }
  split; trivial. subst Q'.
  apply wf_ext; trivial. intros k. specialize (H k).
  transitivity (coef (ore_mul Q B) k + coef R k - coef (ore_mul Q B) k);
    [ring | rewrite H; ring].
Qed.

Lemma quo_rem_recovers (X B R : op Alg) :
  wf X -> wf B -> wf R -> B <> [] -> length R < length B ->
  quo_rem (ore_add (ore_mul X B) R) B false = Ret (X, R).
Proof.
  intros HX HB HR HB0 Hlt.
  destruct (@quo_rem_exact (ore_add (ore_mul X B) R) B) as (Q & R0 & E & HR0 & Ho & Hid);
    trivial; [apply wf_ore_add|].
  apply order_lt_length in Ho.
  destruct (@division_unique B Q X R0 R); trivial.
  - eapply quo_rem_wf_quo; eauto.
  - intros k. rewrite Hid, coef_ore_add. reflexivity.
  - subst. exact E.
Qed.

Lemma quo_rem_product (X B : op Alg) :
  wf X -> wf B -> B <> [] ->
  quo_rem (ore_mul X B) B false = Ret (X, ore_zero Alg).
Proof.
  intros HX HB HB0. pose proof (nonzero_length HB0) as HlB.
  assert (E : ore_add (ore_mul X B) (ore_zero Alg) = ore_mul X B).
  { apply wf_ext; [apply wf_ore_add | now apply wf_ore_mul |].
    intros k. rewrite coef_ore_add. unfold ore_zero. rewrite coef_nil. ring. }
  rewrite <- E at 1. apply quo_rem_recovers; trivial; apply wf_nil.
Qed.

(** Division with remainder recovers the quotient and the remainder:
    dividing [X*B + R] by [B], with [R] of lower order than [B], gives
    [(X, R)]; in particular [(X*B) // B] is [X] and [(X*B) % B] is
    zero. *)
Theorem quo_rem_unique (X B R : op Alg) :
  wf X -> wf B -> wf R -> B <> ore_zero Alg -> (order R < order B)%Z ->
  quo_rem (ore_add (ore_mul X B) R) B false = Ret (X, R) /\
  floordiv (ore_mul X B) B = Ret X /\
  ore_mod (ore_mul X B) B = Ret (ore_zero Alg).
Proof.
  intros HX HB HR HB0 Hlt. apply order_lt_length in Hlt.
  split; [now apply quo_rem_recovers|].
  pose proof (quo_rem_product HX HB HB0) as E.
  unfold floordiv, ore_mod. rewrite E. split; reflexivity.
Qed.

Lemma ore_eq_iff (A B : op Alg) :
  wf A -> wf B -> (ore_eq A B = true <-> A = B).
Proof.
  intros HA HB. unfold ore_eq.
  destruct (order A =? 0)%Z eqn:E.
  - apply Z.eqb_eq in E. unfold order in E.
    destruct A as [|c [|d A]]; cbn [length] in E; try lia.
    unfold constant_coefficient. cbn [coef nth].
    assert (Hc : ore_const c = [c]).
    { unfold ore_const. apply mkop_wf, HA. }
    rewrite Hc. apply op_eqb_eq.
  - apply op_eqb_eq.
Qed.

Lemma ore_eq_zero (R : op Alg) : wf R -> ore_eq R (ore_zero Alg) = is_zero R.
Proof.
  intros HR.
  destruct (ore_eq R (ore_zero Alg)) eqn:E; destruct (is_zero R) eqn:Ez; trivial.
  - apply ore_eq_iff in E; trivial; [|apply wf_nil].
    rewrite E in Ez. discriminate.
  - apply is_zero_nil in Ez. subst R. discriminate.
Qed.


(** Exact division: [(X*B) / B] is [X]; a quotient that [A / B] returns
    satisfies [Q*B = A]; when [B] does not divide [A] from the right the
    division raises [ValueError]; and division by zero raises
    [ZeroDivisionError]. *)
Theorem ore_div_spec (A B X : op Alg) :
  wf A -> wf B -> wf X -> B <> ore_zero Alg ->
  ore_div (ore_mul X B) B = Ret X /\
  (forall Q, ore_div A B = Ret Q -> ore_mul Q B = A) /\
  (~ rdivides B A -> ore_div A B = Raise ValueError) /\
  ore_div A (ore_zero Alg) = Raise ZeroDivisionError.
Proof.
  intros HA HB HX HB0.
  pose proof (nonzero_length HB0) as HlB.
  pose proof (quo_rem_product HX HB HB0) as E.
  destruct (@quo_rem_exact A B) as (Q0 & R0 & E0 & HR0 & Ho & Hid); trivial.
  assert (Hmul : is_zero R0 = true -> ore_mul Q0 B = A).
  { intros Hz. apply is_zero_nil in Hz. subst R0.
    apply wf_ext; trivial; [now apply wf_ore_mul|].
    intros k. rewrite <- Hid, coef_nil. ring. }
  split; [|split; [|split]].
  - unfold ore_div. rewrite E. reflexivity.
  - intros Q. unfold ore_div. rewrite E0. simpl.
    rewrite (ore_eq_zero HR0). destruct (is_zero R0) eqn:Ez; [|discriminate].
    intros H. injection H as <-. now apply Hmul.
  - intros Hn. unfold ore_div. rewrite E0. simpl.
    rewrite (ore_eq_zero HR0). destruct (is_zero R0) eqn:Ez; trivial.
    exfalso. apply Hn. exists Q0. now apply Hmul.
  - reflexivity.
Qed.

(** [~A] is the constant [1/c] when [A] is the nonzero constant [c]; it
    raises [ValueError] when the order of [A] is at least 1 and
    [ZeroDivisionError] when [A] is zero. *)
Theorem invert_spec (A : op Alg) (c : K Alg) :
  (c <> 0 -> invert (ore_const c) = Ret (ore_const (1 / c))) /\
  ((1 <= order A)%Z -> invert A = Raise ValueError) /\
  invert (ore_zero Alg) = Raise ZeroDivisionError.
Proof.
  split; [|split].
  - intros Hc. unfold invert, ore_div.
    assert (Hcc : ore_const c = [c]).
    { unfold ore_const, mkop. simpl.
      apply is0_false in Hc. now rewrite Hc. }
    assert (E : quo_rem (ore_one Alg) (ore_const c) false
                = Ret (ore_const (1 / c), ore_zero Alg)).
    { rewrite <- (@quo_rem_recovers (ore_const (1 / c)) (ore_const c) (ore_zero Alg)).
      - f_equal. symmetry.
        apply wf_ext; [apply wf_ore_add | apply wf_ore_const |].
        intros k. rewrite coef_ore_add.
        change (ore_mul (ore_const (1 / c)) (ore_const c))
          with (ore_scal (1 / c) (ore_const c)).
        rewrite coef_ore_scal. unfold ore_one, ore_zero.
        rewrite !coef_ore_const, coef_nil. destruct k; [now field | ring].
      - apply wf_ore_const.
      - apply wf_ore_const.
      - apply wf_nil.
      - rewrite Hcc. discriminate.
      - rewrite Hcc. simpl. lia. }
    rewrite E. reflexivity.
  - intros Ho. unfold invert, ore_div, quo_rem.
    assert (is_zero A = false) as ->
      by (destruct A; trivial; unfold order in Ho; simpl in Ho; lia).
    assert (H1 : ore_one Alg = [1]).
    { unfold ore_one, ore_const, mkop. simpl.
      pose proof K1_neq_0 as H. apply is0_false in H. now rewrite H. }
    assert ((order (ore_one Alg) <? order A)%Z = true) as ->.
    { apply Z.ltb_lt. rewrite H1. unfold order in *. simpl. lia. }
    simpl. rewrite H1.
    assert (wf (Alg:=Alg) [1]) by (rewrite <- H1; apply wf_ore_const).
    now rewrite ore_eq_zero.
  - reflexivity.
Qed.

Lemma is_monic_lc (A : op Alg) :
  is_monic A = true <-> A <> [] /\ leading_coefficient A = 1.
Proof.
  unfold is_monic. destruct A as [|c A]; simpl is_zero.
  - split; [discriminate | intros [H _]; congruence].
  - rewrite Keqb_eq. split; [intros H; split; [discriminate | exact H] | tauto].
Qed.

(** [monic()] raises [ZeroDivisionError] for the zero operator; for a
    nonzero operator it returns a monic operator of the same order, the
    coefficients of the operator divided by its leading coefficient, and
    it leaves monic operators alone. *)
Theorem monic_spec (A : op Alg) :
  wf A -> A <> ore_zero Alg ->
  monic (ore_zero Alg) = Raise ZeroDivisionError /\
  exists M,
    monic A = Ret M /\ is_monic M = true /\ order M = order A /\
    (forall k, coef M k = coef A k / leading_coefficient A) /\
    monic M = Ret M.
Proof.
  intros HA Hn. split; [reflexivity|]. unfold ore_zero in Hn.
  pose proof (leading_coefficient_neq_0 HA Hn) as Hlc.
  unfold monic at 1.
  assert (is_zero A = false) as -> by (destruct A; simpl; congruence).
  destruct (is_monic A) eqn:Em.
  - exists A. split; trivial. split; trivial. split; trivial.
    apply is_monic_lc in Em. destruct Em as [_ E1].
    split; [intros k; rewrite E1; field_K|].
    unfold monic. rewrite (proj2 (is_monic_lc A)) by auto.
    destruct A; [congruence | reflexivity].
  - set (M := ore_scal (Kinv Alg (leading_coefficient A)) A).
    assert (HM : wf M) by now apply wf_ore_scal.
    assert (Hc : Kinv Alg (leading_coefficient A) <> 0).
    { intros E. apply K1_neq_0.
      transitivity (Kinv Alg (leading_coefficient A) * leading_coefficient A);
        [field_K | rewrite E; ring]. }
    assert (HMk : forall k, coef M k = Kinv Alg (leading_coefficient A) * coef A k)
      by (intros; apply coef_ore_scal).
    pose proof (nonzero_scaled HA HM Hc HMk Hn) as HMn.
    assert (HMlc : leading_coefficient M = 1).
    { rewrite (leading_coefficient_scaled HA HM Hc HMk). field_K. }
    assert (HMm : is_monic M = true) by (apply is_monic_lc; auto).
    exists M. split; trivial. split; trivial. split.
    + unfold order. now rewrite (length_scaled HA HM Hc HMk).
    + split; [intros k; rewrite HMk; field_K|].
      unfold monic. rewrite HMm. destruct M; [congruence | reflexivity].
Qed.

(** ** Coefficient vectors, exponents and valuation *)

(** [coeffs(padd)] has the length [max(order + 1, padd + 1)], keeps the
    coefficients, and the parent's constructor recovers the operator
    from it; without padding it is the coefficient list itself. *)
Theorem coeffs_spec (A : op Alg) (padd : Z) :
  wf A ->
  length (coeffs A padd) = Nat.max (length A) (Z.to_nat (padd + 1)) /\
  (forall k, nth k (coeffs A padd) 0 = coef A k) /\
  mkop (coeffs A padd) = A /\
  coeffs A (-1) = A.
Proof.
  intros HA. split; [|split; [|split]].
  - unfold coeffs. destruct (Z.of_nat (length A) <=? padd)%Z eqn:E.
    + apply Z.leb_le in E. rewrite length_app, repeat_length. lia.
    + apply Z.leb_gt in E. lia.
  - intros k. apply (coord_coeffs A padd k).
  - apply wf_ext; trivial; [apply wf_mkop|].
    intros k. rewrite coef_mkop. apply (coord_coeffs A padd k).
  - unfold coeffs.
    destruct (Z.of_nat (length A) <=? -1)%Z eqn:E; trivial.
    apply Z.leb_le in E. lia.
Qed.

Lemma in_combine_seq (l : list (K Alg)) (s e : nat) (x : K Alg) :
  In (e, x) (combine (seq s (length l)) l) <->
  s <= e /\ e < s + length l /\ nth (e - s) l 0 = x.
Proof.
  revert s. induction l as [|a l IH]; intros s; simpl.
  - split; [tauto | lia].
  - rewrite IH. split.
    + intros [H|(H1 & H2 & H3)].
      * injection H as <- <-. rewrite Nat.sub_diag. repeat split; lia.
      * replace (e - s)%nat with (S (e - S s)) by lia. repeat split; trivial; lia.
    + intros (H1 & H2 & H3).
      destruct (Nat.eq_dec e s) as [->|Hne].
      * left. rewrite Nat.sub_diag in H3. now subst.
      * right. replace (e - s)%nat with (S (e - S s)) in H3 by lia.
        repeat split; trivial; lia.
Qed.

Lemma in_exponents (A : op Alg) (e : nat) :
  In e (exponents A) <-> coef A e <> 0.
Proof.
  unfold exponents. rewrite in_map_iff. split.
  - intros ([e' x] & E & H). simpl in E. subst e'.
    apply filter_In in H. destruct H as [H Hx]. simpl in Hx.
    apply in_combine_seq in H. destruct H as (_ & _ & H).
    rewrite Nat.sub_0_r in H. unfold coef. rewrite H.
    apply is0_false. now destruct (is0 x).
  - intros H. exists (e, coef A e). split; trivial.
    apply filter_In. split.
    + apply in_combine_seq. rewrite Nat.sub_0_r. repeat split; try lia.
      destruct (Nat.lt_ge_cases e (length A)) as [Hl|Hl]; trivial.
      exfalso. apply H. now apply coef_overflow.
    + simpl. apply is0_false in H. now rewrite H.
Qed.

Lemma fold_min_le (l : list nat) (e : nat) :
  fold_left Nat.min l e <= e /\
  (forall x, In x l -> fold_left Nat.min l e <= x) /\
  (fold_left Nat.min l e = e \/ In (fold_left Nat.min l e) l).
Proof.
  revert e. induction l as [|a l IH]; intros e; simpl.
  - repeat split; auto. intros x [].
  - destruct (IH (Nat.min e a)) as (H1 & H2 & H3). repeat split.
    + lia.
    + intros x [<-|Hx]; [lia | auto].
    + destruct H3 as [H3|H3]; [|auto].
      rewrite H3. destruct (Nat.min_dec e a) as [E|E]; rewrite E; auto.
Qed.

(** The valuation of the zero operator is infinite.  The valuation [v]
    of a nonzero operator is the index of its lowest nonzero
    coefficient, and it is at most the order. *)
Theorem valuation_spec (A : op Alg) :
  wf A -> A <> ore_zero Alg ->
  valuation (ore_zero Alg) = Ret None /\
  exists v,
    valuation A = Ret (Some v) /\ coef A v <> 0 /\
    (forall k, k < v -> coef A k = 0) /\ (Z.of_nat v <= order A)%Z.
Proof.
  intros HA Hn. split; [reflexivity|]. unfold ore_zero in Hn.
  unfold valuation. rewrite (ore_eq_zero HA).
  assert (is_zero A = false) as -> by (destruct A; simpl; congruence).
  pose proof (leading_coefficient_neq_0 HA Hn) as Hlc.
  unfold leading_coefficient in Hlc. rewrite last_coef in Hlc.
  apply in_exponents in Hlc.
  destruct (exponents A) as [|e es] eqn:E; [destruct Hlc|].
  destruct (fold_min_le es e) as (H1 & H2 & H3).
  set (v := fold_left Nat.min es e) in *.
  assert (Hin : In v (exponents A)).
  { rewrite E. destruct H3 as [->|H3]; [now left | now right]. }
  assert (Hmin : forall x, In x (exponents A) -> v <= x).
  { rewrite E. intros x [<-|Hx]; auto. }
  exists v. split; trivial. split; [now apply in_exponents|]. split.
  - intros k Hk. destruct (Keqb Alg (coef A k) 0) eqn:E0.
    + now apply Keqb_eq.
    + exfalso. assert (Hk' : coef A k <> 0) by (now apply is0_false).
      apply in_exponents, Hmin in Hk'. lia.
  - rewrite <- E in Hlc. apply Hmin in Hlc. unfold order.
    pose proof (nonzero_length Hn). lia.
Qed.

Lemma NoDup_exponents (A : op Alg) : NoDup (exponents A).
Proof.
  unfold exponents.
  assert (H : forall s, NoDup (map fst
            (filter (fun ic : nat * K Alg => negb (is0 (snd ic)))
                    (combine (seq s (length A)) A))) /\
          forall e, In e (map fst
            (filter (fun ic : nat * K Alg => negb (is0 (snd ic)))
                    (combine (seq s (length A)) A))) -> s <= e).
  { induction A as [|a A IH]; intros s; simpl.
    - split; [constructor | intros e []].
    - destruct (IH (S s)) as [H1 H2].
      destruct (negb (is0 a)); simpl.
      + split.
        * constructor; trivial. intros Hin. apply H2 in Hin. lia.
        * intros e [<-|He]; [lia | apply H2 in He; lia].
      + split; trivial. intros e He. apply H2 in He. lia. }
  apply H.
Qed.

Lemma NoDup_singleton (l : list nat) (d : nat) :
  NoDup l -> (forall e, In e l <-> e = d) -> l = [d].
Proof.
  intros Hnd H. destruct l as [|x l].
  - exfalso. now apply (proj2 (H d)).
  - assert (x = d) by (apply H; now left). subst x.
    destruct l as [|y l]; trivial.
    assert (y = d) by (apply H; right; now left). subst y.
    inversion Hnd as [|? ? Hnin _]. exfalso. apply Hnin. now left.
Qed.

(** [is_monomial()] holds exactly for the powers of the generator. *)
Theorem is_monomial_spec (A : op Alg) :
  wf A -> (is_monomial A = true <-> exists d, A = ore_pow (gen Alg) d).
Proof.
  intros HA. unfold is_monomial. rewrite andb_true_iff, Nat.eqb_eq, Keqb_eq.
  split.
  - intros [Hlen Hlc].
    destruct (exponents A) as [|e [|e' es]] eqn:E; try discriminate.
    assert (Hn : A <> []).
    { intros ->. discriminate. }
    pose proof (nonzero_length Hn) as HlA.
    assert (He : forall k, coef A k <> 0 <-> k = e).
    { intros k. rewrite <- in_exponents, E. simpl. split; [intros [?|[]]; auto | auto]. }
    assert (Hlast : e = (length A - 1)%nat).
    { symmetry. apply He. rewrite <- last_coef.
      now apply leading_coefficient_neq_0. }
    exists e. apply wf_ext; trivial; [apply wf_gen_pow|].
    intros k. rewrite coef_gen_pow.
    destruct (Nat.eqb k e) eqn:Ek.
    + apply Nat.eqb_eq in Ek. subst k.
      unfold leading_coefficient in Hlc. rewrite last_coef in Hlc.
      now rewrite Hlast.
    + apply Nat.eqb_neq in Ek.
      destruct (Keqb Alg (coef A k) 0) eqn:E0; [now apply Keqb_eq|].
      exfalso. apply Ek, He. now apply is0_false.
  - intros [d ->].
    assert (Hex : exponents (ore_pow (gen Alg) d) = [d]).
    { apply NoDup_singleton; [apply NoDup_exponents|].
      intros e. rewrite in_exponents, coef_gen_pow.
      destruct (Nat.eqb e d) eqn:Ee.
      - apply Nat.eqb_eq in Ee. split; trivial. intros _. apply K1_neq_0.
      - apply Nat.eqb_neq in Ee. split; [congruence | contradiction]. }
    rewrite Hex. split; trivial.
    unfold leading_coefficient.
    rewrite last_coef, length_gen_pow, coef_gen_pow.
    replace (S d - 1)%nat with d by lia. now rewrite Nat.eqb_refl.
Qed.

(** ** The action of an operator *)

Lemma ore_call_fold (d : K Alg -> K Alg) (cs : list (K Alg)) (acc g : K Alg) :
  fold_left (fun st c => let Dif := d (snd st) in (fst st + c * Dif, Dif))
            cs (acc, g)
  = (acc + bigsum (length cs) (fun j => coef cs j * Nat.iter (S j) d g),
     Nat.iter (length cs) d g).
Proof.
  revert acc g. induction cs as [|c cs IH]; intros acc g.
  - simpl. f_equal. ring.
  - cbn [fold_left]. cbv zeta. cbn [fst snd]. rewrite IH.
    cbn [length]. rewrite bigsum_shift. f_equal.
    + assert (E : bigsum (length cs) (fun j => coef cs j * Nat.iter (S j) d (d g))
                  = bigsum (length cs)
                      (fun j => coef (c :: cs) (S j) * Nat.iter (S (S j)) d g)).
      { apply bigsum_ext. intros j _. cbn [coef nth].
        now rewrite (Nat.iter_succ_r (S j)). }
      rewrite E. change (Nat.iter 1 d g) with (d g). cbn [coef nth]. ring.
    + now rewrite Nat.iter_succ_r.
Qed.

Lemma ore_call_act (d : K Alg -> K Alg) (A : op Alg) (f : K Alg) :
  ore_call A f (Some d) = act d A f.
Proof.
  unfold ore_call, act. rewrite ore_call_fold. cbn [fst].
  destruct A as [|c A].
  - simpl. rewrite coef_nil. ring.
  - cbn [tl length]. rewrite bigsum_shift. reflexivity.
Qed.

Lemma act_ge (d : K Alg -> K Alg) (P : list (K Alg)) (f : K Alg) (n : nat) :
  length P <= n -> act d P f = bigsum n (fun i => coef P i * Nat.iter i d f).
Proof.
  intros H. unfold act. symmetry. apply bigsum_extend; trivial.
  intros i Hi. rewrite coef_overflow by trivial. ring.
Qed.

Lemma act_ext (d : K Alg -> K Alg) (P Q : list (K Alg)) (f : K Alg) :
  (forall k, coef P k = coef Q k) -> act d P f = act d Q f.
Proof.
  intros H.
  rewrite (@act_ge d P f (Nat.max (length P) (length Q))) by lia.
  rewrite (@act_ge d Q f (Nat.max (length P) (length Q))) by lia.
  apply bigsum_ext. intros i _. now rewrite H.
Qed.

Section Action.

Variable d : K Alg -> K Alg.
Hypothesis d_add : forall x y, d (x + y) = d x + d y.
Hypothesis d_rule : forall c x, d (c * x) = sigma Alg c * d x + delta Alg c * x.

Lemma d_0 : d 0 = 0.
Proof.
  assert (E : d 0 + d 0 = d 0) by (rewrite <- d_add; f_equal; ring).
  transitivity (d 0 + d 0 - d 0); [ring | rewrite E; ring].
Qed.

Lemma d_bigsum (n : nat) (g : nat -> K Alg) :
  d (bigsum n g) = bigsum n (fun i => d (g i)).
Proof.
  induction n as [|n IH]; simpl; [apply d_0|]. now rewrite d_add, IH.
Qed.

Lemma iter_d_add (i : nat) (x y : K Alg) :
  Nat.iter i d (x + y) = Nat.iter i d x + Nat.iter i d y.
Proof. induction i as [|i IH]; simpl; trivial. now rewrite IH, d_add. Qed.

Lemma iter_d_bigsum (i n : nat) (g : nat -> K Alg) :
  Nat.iter i d (bigsum n g) = bigsum n (fun j => Nat.iter i d (g j)).
Proof.
  induction i as [|i IH]; simpl; trivial. rewrite IH. apply d_bigsum.
Qed.

Lemma act_twist (P : list (K Alg)) (f : K Alg) :
  act d (twist P) f = d (act d P f).
Proof.
  rewrite (@act_ge d (twist P) f (S (length P))) by apply length_twist_le.
  unfold act. rewrite d_bigsum.
  transitivity
    (bigsum (S (length P))
       (fun i => match i with
                 | O => 0
                 | S j => sigma Alg (coef P j) * Nat.iter (S j) d f
                 end)
     + bigsum (S (length P)) (fun i => delta Alg (coef P i) * Nat.iter i d f)).
  { rewrite <- bigsum_add. apply bigsum_ext. intros i _.
    rewrite coef_twist'. unfold twist_coef. destruct i; ring. }
  rewrite bigsum_shift.
  rewrite (@bigsum_extend (length P) (S (length P))
             (fun i => delta Alg (coef P i) * Nat.iter i d f)); [|lia|].
  2:{ intros i Hi. rewrite coef_overflow by trivial. rewrite delta_0. ring. }
  transitivity
    (bigsum (length P)
       (fun j => sigma Alg (coef P j) * Nat.iter (S j) d f
                 + delta Alg (coef P j) * Nat.iter j d f)).
  { rewrite bigsum_add. ring. }
  apply bigsum_ext. intros i _. rewrite d_rule. reflexivity.
Qed.

Lemma act_Dpow (i : nat) (P : list (K Alg)) (f : K Alg) :
  act d (Dpow i P) f = Nat.iter i d (act d P f).
Proof.
  induction i as [|i IH]; trivial.
  rewrite Dpow_S, act_twist, IH. reflexivity.
Qed.

Lemma act_mul (A B : op Alg) (f : K Alg) :
  act d (ore_mul A B) f = act d A (act d B f).
Proof.
  assert (HlB : forall i, i < length A ->
            length (Dpow i B) <= (length A + length B)%nat).
  { intros i Hi. pose proof (length_Dpow_le i B). lia. }
  assert (Hl : length (ore_mul A B) <= (length A + length B)%nat).
  { destruct A as [|a A']; [simpl; lia|].
    destruct B as [|b B']; [simpl; lia|].
    unfold ore_mul. cbn [is_zero].
    apply length_norm_le. intros k Hk.
    rewrite coef_mul_loop, coef_pscale.
    rewrite (@coef_overflow (b :: B') k) by lia.
    rewrite bigsum_0; [ring|].
    intros j Hj. rewrite coef_Dpow_high; [ring | simpl in *; lia]. }
  rewrite (act_ge d f Hl).
  transitivity
    (bigsum (length A)
       (fun i => coef A i * act d (Dpow i B) f)).
  - transitivity
      (bigsum (length A + length B)
         (fun k => bigsum (length A)
                     (fun i => coef A i * (coef (Dpow i B) k * Nat.iter k d f)))).
    { apply bigsum_ext. intros k _. rewrite coef_ore_mul.
      transitivity (Nat.iter k d f
                    * bigsum (length A) (fun i => coef A i * coef (Dpow i B) k));
        [ring|].
      rewrite <- bigsum_scale. apply bigsum_ext. intros i _. ring. }
    rewrite bigsum_exchange. apply bigsum_ext. intros i Hi.
    rewrite bigsum_scale. f_equal.
    symmetry. apply act_ge. now apply HlB.
  - unfold act at 2. apply bigsum_ext. intros i _. now rewrite act_Dpow.
Qed.

(** When the generator acts through an additive map [d] that obeys the
    rule [d(c*x) = sigma(c)*d(x) + delta(c)*x], the action of a product
    is the composition of the actions, the action of a sum is the sum of
    the actions, a constant acts by multiplication and the generator
    through [d]. *)
Theorem ore_call_spec (A B : op Alg) (c f : K Alg) :
  ore_call (ore_mul A B) f (Some d)
  = ore_call A (ore_call B f (Some d)) (Some d) /\
  ore_call (ore_add A B) f (Some d)
  = ore_call A f (Some d) + ore_call B f (Some d) /\
  ore_call (ore_const c) f (Some d) = c * f /\
  ore_call (gen Alg) f (Some d) = d f /\
  ore_call (ore_zero Alg) f (Some d) = 0.
Proof.
  rewrite !ore_call_act. split; [apply act_mul|]. split; [|split; [|split]].
  - rewrite (@act_ge d (ore_add A B) f (Nat.max (length A) (length B))).
    + rewrite (@act_ge d A f (Nat.max (length A) (length B))) by lia.
      rewrite (@act_ge d B f (Nat.max (length A) (length B))) by lia.
      rewrite <- bigsum_add. apply bigsum_ext. intros i _.
      rewrite coef_ore_add. ring.
    + unfold ore_add, mkop. rewrite (wf_padd A B).
      apply length_norm_le. intros i Hi.
      rewrite coef_zip_add, !coef_overflow by lia. ring.
  - rewrite (@act_ge d (ore_const c) f 1 (length_ore_const c)).
    cbn [bigsum]. rewrite coef_ore_const. change (Nat.iter 0 d f) with f. ring.
  - rewrite gen_eq. unfold act. cbn [length bigsum coef nth].
    change (Nat.iter 0 d f) with f. change (Nat.iter 1 d f) with (d f). ring.
  - reflexivity.
Qed.

End Action.

(** ** GCRD and XGCRD with the classic remainder sequence *)

Lemma rdivides_refl (G : op Alg) : wf G -> rdivides G G.
Proof. intros HG. exists (ore_one Alg). now apply ore_mul_one_l_eq. Qed.

Lemma rdivides_zero (C : op Alg) : rdivides C (ore_zero Alg).
Proof. exists (ore_zero Alg). reflexivity. Qed.

Lemma coef_scal_mul (c : K Alg) (X A : op Alg) (k : nat) :
  coef (ore_mul (ore_scal c X) A) k = c * coef (ore_mul X A) k.
Proof.
  unfold ore_scal. rewrite ore_mul_assoc_coef.
  change (ore_mul (ore_const c) (ore_mul X A)) with (ore_scal c (ore_mul X A)).
  apply coef_ore_scal.
Qed.

(** A division step keeps the common right divisors of the pair. *)
Lemma rdivides_step (C r0 r1 Q R : op Alg) :
  wf C -> wf r0 -> wf R ->
  (forall k, coef (ore_mul Q r1) k + coef R k = coef r0 k) ->
  (rdivides C r0 /\ rdivides C r1) <-> (rdivides C r1 /\ rdivides C R).
Proof.
  intros HC Hr0 HR Hid. split.
  - intros [[U HU] [V HV]]. split; [now exists V|].
    exists (ore_sub U (ore_mul Q V)).
    apply wf_ext; trivial; [now apply wf_ore_mul|].
    intros k. rewrite coef_mul_sub_l, ore_mul_assoc_coef, HU, HV.
    rewrite <- (Hid k). ring.
  - intros [[V HV] [W HW]]. split; [|now exists V].
    exists (ore_add (ore_mul Q V) W).
    apply wf_ext; trivial; [now apply wf_ore_mul|].
    intros k. rewrite coef_mul_add_l, ore_mul_assoc_coef, HV, HW.
    apply Hid.
Qed.

Lemma classic_iter (cofactors : bool) (A0 B0 : op Alg) (c : prs_config Alg) :
  classic_inv cofactors A0 B0 c -> snd (pc_r c) <> [] ->
  exists c',
    prs_iter cofactors c = Ret c' /\ classic_inv cofactors A0 B0 c' /\
    length (snd (pc_r c')) < length (snd (pc_r c)).
Proof.
  destruct c as [[r0 r1] prs aux [[a11 a12] [a21 a22]]].
  unfold classic_inv. cbn [pc_r pc_prs pc_cof pc_aux fst snd].
  intros (Hprs & Hr0 & Hr1 & Hn0 & Hcof & Hdiv) Hn1. subst prs.
  destruct (@quo_rem_exact r0 r1) as (Q & R & E & HR & Ho & Hid); trivial.
  apply order_lt_length in Ho.
  unfold prs_iter. cbn [pc_r pc_prs pc_cof pc_aux prs_step].
  unfold classicPRS. cbn [fst snd]. rewrite E. cbn [bind po_ok negb fst snd].
  cbn [po_r po_q po_alpha po_beta po_aux].
  eexists. split; [reflexivity|].
  cbn [pc_r pc_prs pc_cof pc_aux fst snd].
  split; [|exact Ho].
  split; trivial. split; trivial. split; trivial. split; trivial. split.
  - intros Hc. specialize (Hcof Hc). destruct Hcof as [H0 H1].
    rewrite Hc. cbn [fst snd]. split; [exact H1|].
    intros k. rewrite !coef_scal_mul, !coef_mul_sub_l, !coef_scal_mul.
    rewrite !ore_mul_assoc_coef.
    assert (EQ : coef (ore_mul Q (ore_mul a21 A0)) k
                 + coef (ore_mul Q (ore_mul a22 B0)) k
                 = coef (ore_mul Q r1) k).
    { rewrite <- coef_mul_add_r. apply ore_mul_ext_r.
      intros j. rewrite coef_ore_add. apply H1. }
    specialize (H0 k). specialize (Hid k).
    transitivity
      (Kinv Alg 1
       * ((coef (ore_mul a11 A0) k + coef (ore_mul a12 B0) k)
          - (coef (ore_mul Q (ore_mul a21 A0)) k
             + coef (ore_mul Q (ore_mul a22 B0)) k))); [field_K|].
    rewrite EQ, H0, <- Hid. field_K.
  - intros C HC. rewrite (Hdiv C HC). now apply rdivides_step with (Q := Q).
Qed.

Lemma classic_loop (cofactors : bool) (A0 B0 : op Alg) (fuel : nat)
  (c : prs_config Alg) :
  classic_inv cofactors A0 B0 c -> length (snd (pc_r c)) <= fuel ->
  exists c',
    prs_loop cofactors fuel c = Ret c' /\ classic_inv cofactors A0 B0 c' /\
    snd (pc_r c') = [].
Proof.
  revert c. induction fuel as [|fuel IH]; intros c Hinv Hlen.
  - exists c. assert (E : snd (pc_r c) = [])
      by (destruct (snd (pc_r c)); [trivial | simpl in Hlen; lia]).
    simpl. rewrite E. auto.
  - simpl. destruct (snd (pc_r c)) as [|x r1] eqn:E.
    + exists c. auto.
    + cbn [is_zero].
      destruct (@classic_iter cofactors A0 B0 c Hinv) as (c1 & E1 & Hinv1 & Hlt).
      { rewrite E. discriminate. }
      rewrite E1. cbn [bind]. apply IH; trivial.
      rewrite E in Hlt. simpl in Hlt, Hlen. lia.
Qed.

Lemma classic_start (cofactors : bool) (A B : op Alg) (prs : option strategy) :
  start_strategy Alg prs = Classic -> wf A -> wf B -> A <> [] -> B <> [] ->
  let c := prs_start A B prs in
  classic_inv cofactors (fst (pc_r c)) (snd (pc_r c)) c.
Proof.
  intros Hs HA HB HA0 HB0 c. unfold c, prs_start, classic_inv.
  cbn [pc_r pc_prs pc_cof pc_aux fst snd].
  split; trivial.
  assert (Hone : forall X Y : op Alg, forall k,
            coef (ore_mul (ore_one Alg) X) k + coef (ore_mul (ore_zero Alg) Y) k
            = coef X k).
  { intros X Y k. rewrite coef_ore_mul_one_l, ore_mul_zero_l. unfold ore_zero.
    rewrite coef_nil. ring. }
  assert (Hzero : forall X Y : op Alg, forall k,
            coef (ore_mul (ore_zero Alg) X) k + coef (ore_mul (ore_one Alg) Y) k
            = coef Y k).
  { intros X Y k. rewrite coef_ore_mul_one_l, ore_mul_zero_l. unfold ore_zero.
    rewrite coef_nil. ring. }
  destruct (order A <? order B)%Z; cbn [fst snd];
    (split; [trivial|]); (split; [trivial|]); (split; [trivial|]);
    (split; [intros _; split; intros k; [apply Hone | apply Hzero]|]);
    intros C _; reflexivity.
Qed.

Lemma prs_finish_classic (c : prs_config Alg) :
  pc_prs c = Classic -> prs_finish c = fst (pc_r c).
Proof. unfold prs_finish. now intros ->. Qed.

(** With the classic strategy, [gcrd] of two operators of order at least
    1 returns a nonzero operator that divides both from the right and
    that every common right divisor divides from the right. *)
Theorem gcrd_classic_spec (a b : list (K Alg)) (prs : option strategy) :
  start_strategy Alg prs = Classic ->
  (1 <= order (mkop a))%Z -> (1 <= order (mkop b))%Z ->
  exists G,
    gcrd (mkop a) (mkop b) prs = Ret G /\ G <> ore_zero Alg /\
    rdivides G (mkop a) /\ rdivides G (mkop b) /\
    forall C, wf C -> rdivides C (mkop a) -> rdivides C (mkop b) ->
              rdivides C G.
Proof.
  intros Hs Ha Hb. set (A := mkop a) in *. set (B := mkop b) in *.
  assert (HA : wf A) by apply wf_mkop.
  assert (HB : wf B) by apply wf_mkop.
  assert (HA0 : A <> []) by (intros E; rewrite E in Ha; unfold order in Ha; simpl in Ha; lia).
  assert (HB0 : B <> []) by (intros E; rewrite E in Hb; unfold order in Hb; simpl in Hb; lia).
  unfold gcrd.
  assert (is_zero A = false) as -> by (destruct A; simpl; congruence).
  assert (is_zero B = false) as -> by (destruct B; simpl; congruence).
  assert (in_base_ring A = false) as -> by (apply Z.leb_gt; lia).
  assert (in_base_ring B = false) as -> by (apply Z.leb_gt; lia).
  cbn [orb].
  pose proof (@classic_start false A B prs Hs HA HB HA0 HB0) as Hinv.
  cbv zeta in Hinv.
  destruct (@classic_loop false _ _ (prs_fuel A B) _ Hinv) as (c' & E & Hinv' & Hz).
  { unfold prs_start, prs_fuel. cbn [pc_r].
    destruct (order A <? order B)%Z; cbn [snd]; lia. }
  rewrite E. cbn [bind].
  destruct Hinv' as (Hp & Hw0 & _ & Hn & _ & Hdiv).
  rewrite (prs_finish_classic Hp).
  exists (fst (pc_r c')). split; trivial. split; trivial.
  assert (Hpair : forall C, wf C ->
            (rdivides C A /\ rdivides C B)
            <-> (rdivides C (fst (pc_r c')) /\ rdivides C (snd (pc_r c')))).
  { intros C HC. rewrite <- (Hdiv C HC). unfold prs_start. cbn [pc_r].
    destruct (order A <? order B)%Z; cbn [fst snd]; tauto. }
  destruct (proj2 (Hpair _ Hw0)) as [H1 H2].
  { split; [now apply rdivides_refl | rewrite Hz; apply rdivides_zero]. }
  split; trivial. split; trivial.
  intros C HC HCA HCB. now apply (proj1 (Hpair C HC)).
Qed.

(** With the classic strategy, [xgcrd] of two operators of order at
    least 1 returns a triple [(G, S, T)] whose cofactors belong to the
    pair with the operator of higher order first: [S*self + T*other = G]
    when [self] has at least the order of [other], and
    [S*other + T*self = G] otherwise. *)
Theorem xgcrd_classic_bezout (a b : list (K Alg)) (prs : option strategy) :
  start_strategy Alg prs = Classic ->
  (1 <= order (mkop a))%Z -> (1 <= order (mkop b))%Z ->
  exists G S T,
    xgcrd (mkop a) (mkop b) prs = Ret (XTriple G S T) /\ G <> ore_zero Alg /\
    ((order (mkop b) <= order (mkop a))%Z ->
     ore_add (ore_mul S (mkop a)) (ore_mul T (mkop b)) = G) /\
    ((order (mkop a) < order (mkop b))%Z ->
     ore_add (ore_mul S (mkop b)) (ore_mul T (mkop a)) = G).
Proof.
  intros Hs Ha Hb. set (A := mkop a) in *. set (B := mkop b) in *.
  assert (HA : wf A) by apply wf_mkop.
  assert (HB : wf B) by apply wf_mkop.
  assert (HA0 : A <> []) by (intros E; rewrite E in Ha; unfold order in Ha; simpl in Ha; lia).
  assert (HB0 : B <> []) by (intros E; rewrite E in Hb; unfold order in Hb; simpl in Hb; lia).
  unfold xgcrd.
  assert (is_zero A = false) as -> by (destruct A; simpl; congruence).
  assert (is_zero B = false) as -> by (destruct B; simpl; congruence).
  assert (in_base_ring A = false) as -> by (apply Z.leb_gt; lia).
  assert (in_base_ring B = false) as -> by (apply Z.leb_gt; lia).
  cbn [orb].
  pose proof (@classic_start true A B prs Hs HA HB HA0 HB0) as Hinv.
  cbv zeta in Hinv.
  destruct (@classic_loop true _ _ (prs_fuel A B) _ Hinv) as (c' & E & Hinv' & Hz).
  { unfold prs_start, prs_fuel. cbn [pc_r].
    destruct (order A <? order B)%Z; cbn [snd]; lia. }
  rewrite E. cbn [bind].
  destruct Hinv' as (Hp & Hw0 & _ & Hn & Hcof & _).
  destruct (Hcof eq_refl) as [H0 _].
  rewrite (prs_finish_classic Hp).
  eexists _, _, _. split; [reflexivity|]. split; trivial.
  unfold prs_start in H0. cbn [pc_r] in H0.
  split; intros Ho.
  - assert ((order A <? order B)%Z = false) as Eo by (apply Z.ltb_ge; lia).
    rewrite Eo in H0. cbn [fst snd] in H0.
    apply wf_ext; trivial; [apply wf_ore_add|].
    intros k. rewrite coef_ore_add. apply H0.
  - assert ((order A <? order B)%Z = true) as Eo by (apply Z.ltb_lt; lia).
    rewrite Eo in H0. cbn [fst snd] in H0.
    apply wf_ext; trivial; [apply wf_ore_add|].
    intros k. rewrite coef_ore_add. apply H0.
Qed.

(** [gcrd] and [xgcrd] exchange the operands when [self] has the lower
    order, so that their results are those for the exchanged operands:
    the cofactors that [xgcrd(self, other)] returns are then the ones of
    [xgcrd(other, self)]. *)
Theorem gcrd_exchange (self other : op Alg) (prs : option strategy) :
  (order self < order other)%Z ->
  gcrd self other prs = gcrd other self prs /\
  xgcrd self other prs = xgcrd other self prs.
Proof.
  intros Ho.
  assert (Hst : prs_start self other prs = prs_start other self prs).
  { unfold prs_start.
    assert ((order self <? order other)%Z = true) as -> by (apply Z.ltb_lt; lia).
    assert ((order other <? order self)%Z = false) as -> by (apply Z.ltb_ge; lia).
    reflexivity. }
  assert (Hf : prs_fuel self other = prs_fuel other self)
    by (unfold prs_fuel; lia).
  assert (Hn : is_zero other = false).
  { destruct other; trivial. unfold order in Ho. simpl in Ho. lia. }
  unfold gcrd, xgcrd. rewrite Hst, Hf, Hn, (orb_comm (in_base_ring self)).
  destruct (is_zero self) eqn:Ez.
  - apply is_zero_nil in Ez. subst self. split; reflexivity.
  - split; reflexivity.
Qed.

(** ** The least common left multiple has minimal order *)

Lemma firstn_skipn_app (X : Type) (l1 l2 : list X) (n : nat) :
  length l1 = n -> firstn n (l1 ++ l2) = l1 /\ skipn n (l1 ++ l2) = l2.
Proof.
  intros <-. induction l1 as [|x l1 IH]; simpl; [auto|].
  destruct IH as [-> ->]. auto.
Qed.

Lemma mkop_coeffs (X : op Alg) (t : Z) : wf X -> mkop (coeffs X t) = X.
Proof.
  intros HX. apply wf_ext; trivial; [apply wf_mkop|].
  intros k. rewrite coef_mkop. apply (coord_coeffs X t k).
Qed.

Lemma in_last (X : list (K Alg)) : X <> [] -> In (last X 0) X.
Proof.
  induction X as [|x X IH]; [congruence|]. intros _.
  destruct X as [|y X]; [now left|].
  right. apply IH. discriminate.
Qed.

Lemma mkop_nil_zero (w : list (K Alg)) (x : K Alg) :
  mkop w = [] -> In x w -> x = 0.
Proof.
  intros E Hin. apply In_nth with (d := 0) in Hin.
  destruct Hin as (n & _ & <-).
  apply (proj1 (norm_nil_iff w) E n).
Qed.

Lemma ore_mul_mkop_l (X B : op Alg) :
  wf B -> ore_mul (mkop X) B = ore_mul X B.
Proof.
  intros HB. apply wf_ext; try now apply wf_ore_mul.
  apply ore_mul_ext_l. intros k. apply coef_mkop.
Qed.

Section Minimal.

Variables A B : op Alg.
Hypothesis wf_A : wf A.
Hypothesis wf_B : wf B.
Hypothesis A_nonzero : A <> [].
Hypothesis B_nonzero : B <> [].

Variable slv : matrix (K Alg) -> list (list (K Alg)).
Hypothesis slv_exact : solver_exact slv.

Let r : nat := (length A - 1)%nat.
Let s : nat := (length B - 1)%nat.

Lemma relation_ladder (T : nat) (v : list (K Alg)) :
  r <= T -> s <= T ->
  length v = (S (T - r) + S (T - s))%nat ->
  (forall k, coef (ore_mul (mkop (firstn (S (T - r)) v)) A) k
             + coef (ore_mul (mkop (skipn (S (T - r)) v)) B) k = 0) ->
  in_kernel (lclm_system (shifted A (T - r)) (shifted B (T - s)) (Z.of_nat T)) v.
Proof.
  intros Hr Hs Hlen Hrel.
  pose proof (@ladder_ncols A B wf_A wf_B A_nonzero B_nonzero T Hr Hs) as Hnc.
  pose proof (length_ladder_rows A B T) as Hrows.
  unfold ladder_rows in Hnc, Hrows. fold r s in Hnc, Hrows.
  unfold lclm_system.
  apply in_kernel_transpose; [rewrite Hnc; lia|].
  rewrite Hnc, length_map, Hrows. split; trivial.
  intros k Hk.
  assert (HfU : length (firstn (S (T - r)) v) = S (T - r))
    by (rewrite length_firstn; lia).
  assert (HfW : length (skipn (S (T - r)) v) = S (T - s))
    by (rewrite length_skipn; lia).
  unfold wsum. rewrite map_map.
  fold (wsum v (fun p => coord k (coeffs p (Z.of_nat T)))
          (shifted A (T - r) ++ shifted B (T - s))).
  rewrite (@wsum_ext _ v _ (fun p => coef p k))
    by (intros; apply coord_coeffs).
  rewrite <- (firstn_skipn (S (T - r)) v).
  rewrite wsum_app by (rewrite HfU, length_shifted; trivial).
  specialize (Hrel k). rewrite !coef_mkop_mul in Hrel.
  rewrite HfU, HfW in Hrel. simpl Nat.sub in Hrel.
  rewrite !Nat.sub_0_r in Hrel. exact Hrel.
Qed.

Lemma lclm_ladder_first (fuel T T' : nat) (v : list (K Alg)) :
  lclm_ladder fuel slv (Z.of_nat T) (shifted A (T - r)) (shifted B (T - s))
    (slv (lclm_system (shifted A (T - r)) (shifted B (T - s)) (Z.of_nat T)))
  = Ret (Z.of_nat T', v) ->
  r <= T -> s <= T ->
  forall T'', T <= T'' -> T'' < T' ->
    slv (lclm_system (shifted A (T'' - r)) (shifted B (T'' - s)) (Z.of_nat T''))
    = [].
Proof.
  revert T. induction fuel as [|fuel IH]; intros T E Hr Hs T'' H1 H2.
  - simpl in E.
    destruct (slv (lclm_system (shifted A (T - r)) (shifted B (T - s))
                     (Z.of_nat T))) as [|v0 rest]; [discriminate|].
    injection E as E _. lia.
  - simpl in E.
    destruct (slv (lclm_system (shifted A (T - r)) (shifted B (T - s))
                     (Z.of_nat T))) as [|v0 rest] eqn:E0.
    + destruct (Nat.eq_dec T'' T) as [->|Hne]; trivial.
      rewrite !extend_shifted in E.
      replace (Z.of_nat T + 1)%Z with (Z.of_nat (S T)) in E by lia.
      replace (S (T - r)) with (S T - r)%nat in E by lia.
      replace (S (T - s)) with (S T - s)%nat in E by lia.
      apply (IH (S T)); trivial; lia.
    + injection E as E _. lia.
Qed.

Lemma lclm_search_first (fuel T' : nat) (v : list (K Alg)) :
  lclm_search fuel slv A B = Ret (Z.of_nat T', v) ->
  forall T'', Nat.max r s <= T'' -> T'' < T' ->
    slv (lclm_system (shifted A (T'' - r)) (shifted B (T'' - s)) (Z.of_nat T''))
    = [].
Proof.
  unfold lclm_search.
  pose proof (nonzero_length A_nonzero). pose proof (nonzero_length B_nonzero).
  assert (EA : order A = Z.of_nat r) by (unfold order, r; lia).
  assert (EB : order B = Z.of_nat s) by (unfold order, s; lia).
  rewrite EA, EB. rewrite <- Nat2Z.inj_max.
  replace (Z.to_nat (Z.of_nat (Nat.max r s) - Z.of_nat r))
    with (Nat.max r s - r)%nat by lia.
  replace (Z.to_nat (Z.of_nat (Nat.max r s) - Z.of_nat s))
    with (Nat.max r s - s)%nat by lia.
  rewrite !iter_extend. intros E T'' H1 H2.
  apply (lclm_ladder_first E); lia.
Qed.

(** A common left multiple [X*A = Y*B] that is not zero makes the
    solver answer at the height of its order. *)
Lemma common_multiple_height (X Y : op Alg) :
  wf X -> wf Y -> X <> [] ->
  (forall k, coef (ore_mul X A) k = coef (ore_mul Y B) k) ->
  let T := (length X - 1 + r)%nat in
  s <= T /\
  slv (lclm_system (shifted A (T - r)) (shifted B (T - s)) (Z.of_nat T)) <> [].
Proof.
  intros HX HY HX0 Hrel T.
  pose proof (nonzero_length A_nonzero) as HlA.
  pose proof (nonzero_length B_nonzero) as HlB.
  pose proof (nonzero_length HX0) as HlX.
  assert (EM : ore_mul X A = ore_mul Y B)
    by (apply wf_ext; trivial; now apply wf_ore_mul).
  pose proof (length_ore_mul HX HX0 wf_A A_nonzero) as HlM.
  assert (HY0 : Y <> []).
  { intros ->. rewrite EM in HlM. simpl in HlM. lia. }
  pose proof (nonzero_length HY0) as HlY.
  pose proof (length_ore_mul HY HY0 wf_B B_nonzero) as HlM'.
  rewrite EM in HlM.
  assert (HT : T = (length Y - 1 + s)%nat) by (unfold T, r, s; lia).
  assert (Hs : s <= T) by lia.
  assert (Hr : r <= T) by (unfold T; lia).
  split; trivial.
  set (v := coeffs X (Z.of_nat (T - r)) ++ coeffs (ore_neg Y) (Z.of_nat (T - s))).
  assert (HlU : length (coeffs X (Z.of_nat (T - r))) = S (T - r))
    by (apply length_coeffs; unfold T; lia).
  assert (HlnY : length (ore_neg Y) <= length Y).
  { rewrite <- (wf_ore_neg Y). apply length_norm_le. intros i Hi.
    rewrite coef_ore_neg, coef_overflow by trivial. ring. }
  assert (HlW : length (coeffs (ore_neg Y) (Z.of_nat (T - s))) = S (T - s))
    by (apply length_coeffs; lia).
  destruct (@firstn_skipn_app _ (coeffs X (Z.of_nat (T - r)))
              (coeffs (ore_neg Y) (Z.of_nat (T - s))) (S (T - r)) HlU)
    as [Hf Hsk].
  destruct (@ladder_system_shape A B wf_A wf_B A_nonzero B_nonzero T Hr Hs)
    as (Hrect & _ & _).
  apply slv_exact; trivial.
  exists v. split.
  - apply relation_ladder; trivial.
    + unfold v. rewrite length_app, HlU, HlW. reflexivity.
    + intros k. unfold v. rewrite Hf, Hsk.
      rewrite (mkop_coeffs _ HX), (mkop_coeffs _ (wf_ore_neg Y)).
      rewrite coef_mul_neg_l, Hrel. ring.
  - exists (last X 0). split.
    + unfold v. apply in_or_app. left. unfold coeffs.
      destruct (Z.of_nat (length X) <=? Z.of_nat (T - r))%Z;
        [apply in_or_app; left|]; now apply in_last.
    + now apply wf_last.
Qed.

End Minimal.

(** For nonzero operators [A] and [B], [lclm(A, B)] is a nonzero
    operator whose order is at most the order of every nonzero common
    left multiple [X*A = Y*B]. *)
Theorem lclm_minimal (a b : list (K Alg)) (fuel : nat) :
  solver_sound (solver Alg) -> solver_exact (solver Alg) ->
  (forall A, denominator (base Alg) A <> 0) ->
  mkop a <> ore_zero Alg -> mkop b <> ore_zero Alg ->
  (Z.min (order (mkop a)) (order (mkop b)) <= Z.of_nat fuel)%Z ->
  exists L,
    lclm fuel (mkop a) (mkop b) None = Ret L /\ L <> ore_zero Alg /\
    forall X Y,
      ore_mul X (mkop a) = ore_mul Y (mkop b) ->
      ore_mul X (mkop a) <> ore_zero Alg ->
      (order L <= order (ore_mul X (mkop a)))%Z.
Proof.
  intros Hsound Hexact Hden Ha Hb Hfuel.
  set (A := mkop a) in *. set (B := mkop b) in *.
  assert (HA : wf A) by apply wf_mkop.
  assert (HB : wf B) by apply wf_mkop.
  assert (HA0 : A <> []) by exact Ha.
  assert (HB0 : B <> []) by exact Hb.
  pose proof (nonzero_length HA0) as HlA.
  pose proof (nonzero_length HB0) as HlB.
  (* the order of a nonzero left multiple *)
  assert (Hmult : forall (Z0 C : op Alg), wf C -> C <> [] ->
            ore_mul Z0 C <> ore_zero Alg ->
            length (ore_mul Z0 C) = (length (mkop Z0) + length C - 1)%nat
            /\ mkop Z0 <> []).
  { intros Z0 C HC HC0 Hn. rewrite <- (ore_mul_mkop_l Z0 HC) in *.
    assert (HZ : mkop Z0 <> []).
    { intros E. rewrite E in Hn. now apply Hn. }
    split; trivial. apply length_ore_mul; trivial. apply wf_mkop. }
  unfold lclm.
  assert (is_zero A = false) as -> by (destruct A; simpl; congruence).
  assert (is_zero B = false) as -> by (destruct B; simpl; congruence).
  simpl orb. cbv iota.
  destruct (order A =? 0)%Z eqn:EA.
  { exists B. split; trivial. split; trivial.
    intros X Y E Hn. rewrite E in *.
    destruct (Hmult Y B HB HB0 Hn) as [Hl HY].
    pose proof (nonzero_length HY). unfold order. lia. }
  apply Z.eqb_neq in EA.
  destruct (in_base_ring B) eqn:EB.
  { exists A. split; trivial. split; trivial.
    intros X Y E Hn.
    destruct (Hmult X A HA HA0 Hn) as [Hl HX].
    pose proof (nonzero_length HX). unfold order. lia. }
  unfold in_base_ring in EB. apply Z.leb_gt in EB.
  destruct (numerator_scaled (ring_of Alg) HA (Hden A))
    as (cA & HcA & HwA & HkA).
  destruct (numerator_scaled (ring_of Alg) HB (Hden B))
    as (cB & HcB & HwB & HkB).
  set (A' := snd (numerator (base Alg) (ring_of Alg) A)) in *.
  set (B' := snd (numerator (base Alg) (ring_of Alg) B)) in *.
  assert (HLA : length A' = length A)
    by exact (@length_scaled A A' cA HA HwA HcA HkA).
  assert (HLB : length B' = length B)
    by exact (@length_scaled B B' cB HB HwB HcB HkB).
  assert (HA'0 : A' <> []) by (destruct A'; simpl in *; [lia | discriminate]).
  assert (HB'0 : B' <> []) by (destruct B'; simpl in *; [lia | discriminate]).
  edestruct (@lclm_search_spec A' B') with (slv := solver Alg) (fuel := fuel)
    as (T & v & rest & Hs1 & Hs2 & Hs3 & Hs4); eauto.
  { rewrite HLA, HLB. unfold order in Hfuel. lia. }
  rewrite Hs1. simpl bind.
  assert (Hin : In v (solver Alg
            (lclm_system (shifted A' (T - (length A' - 1)))
               (shifted B' (T - (length B' - 1))) (Z.of_nat T))))
    by (rewrite Hs4; now left).
  apply Hsound in Hin.
  2:{ apply (@ladder_system_shape A' B'); trivial; lia. }
  destruct Hin as [Hker Hnt].
  pose proof Hker as Hker0.
  apply ladder_relation in Hker; trivial; try lia.
  destruct Hker as [HUle Hrel].
  replace (Z.to_nat (Z.of_nat T + 1 - order A'))
    with (S (T - (length A' - 1))) by (unfold order; lia).
  set (U := mkop (firstn (S (T - (length A' - 1))) v)) in *.
  set (W := mkop (skipn (S (T - (length A' - 1))) v)) in *.
  assert (HwL : wf (ore_mul U A')) by now apply wf_ore_mul.
  exists (mkop (ore_mul U A')). rewrite (mkop_wf HwL).
  split; trivial. split.
  - (* the multiple is not zero *)
    intros E.
    assert (HU0 : U = []).
    { destruct U as [|u U'] eqn:EU; trivial. exfalso.
      assert (HUw : wf (u :: U')) by (rewrite <- EU; apply wf_mkop).
      assert (HUn : u :: U' <> []) by discriminate.
      pose proof (length_ore_mul HUw HUn HwA HA'0) as Hl.
      rewrite E in Hl. simpl in Hl. lia. }
    assert (HW0 : W = []).
    { destruct W as [|w W'] eqn:EW; trivial. exfalso.
      assert (HWw : wf (w :: W')) by (rewrite <- EW; apply wf_mkop).
      assert (HWn : w :: W' <> []) by discriminate.
      pose proof (length_ore_mul HWw HWn HwB HB'0) as Hl.
      assert (EWB : ore_mul (w :: W') B' = []).
      { apply wf_ext; [now apply wf_ore_mul | apply wf_nil |].
        intros k. specialize (Hrel k). rewrite E in Hrel.
        unfold ore_zero in Hrel. rewrite !coef_nil in *.
        transitivity (0 + coef (ore_mul (w :: W') B') k); [ring | exact Hrel]. }
      rewrite EWB in Hl. simpl in Hl. lia. }
    destruct Hnt as (x & Hx & Hx0). apply Hx0.
    rewrite <- (firstn_skipn (S (T - (length A' - 1))) v) in Hx.
    apply in_app_or in Hx. destruct Hx as [Hx|Hx].
    + now apply (mkop_nil_zero HU0).
    + now apply (mkop_nil_zero HW0).
  - (* minimality *)
    intros X Y E Hn.
    destruct (Hmult X A HA HA0 Hn) as [HlM HX0].
    set (X' := ore_mul (mkop X) (ore_const (1 / cA))).
    set (Y' := ore_mul (mkop Y) (ore_const (1 / cB))).
    assert (HX' : forall k, coef (ore_mul X' A') k = coef (ore_mul X A) k).
    { intros k. unfold X'. rewrite ore_mul_assoc_coef.
      rewrite <- (ore_mul_mkop_l X HA).
      apply ore_mul_ext_r. intros j.
      change (ore_mul (ore_const (1 / cA)) A') with (ore_scal (1 / cA) A').
      rewrite coef_ore_scal, HkA. field_K. }
    assert (HY' : forall k, coef (ore_mul Y' B') k = coef (ore_mul Y B) k).
    { intros k. unfold Y'. rewrite ore_mul_assoc_coef.
      rewrite <- (ore_mul_mkop_l Y HB).
      apply ore_mul_ext_r. intros j.
      change (ore_mul (ore_const (1 / cB)) B') with (ore_scal (1 / cB) B').
      rewrite coef_ore_scal, HkB. field_K. }
    assert (HwX' : wf X') by (apply wf_ore_mul, wf_ore_const).
    assert (HwY' : wf Y') by (apply wf_ore_mul, wf_ore_const).
    assert (EM' : ore_mul X' A' = ore_mul X A)
      by (apply wf_ext; trivial; now apply wf_ore_mul).
    assert (HX'0 : X' <> []).
    { intros E0. rewrite E0 in EM'. simpl in EM'. now apply Hn. }
    pose proof (length_ore_mul HwX' HX'0 HwA HA'0) as HlM'.
    rewrite EM' in HlM'.
    destruct (@common_multiple_height A' B' HwA HwB HA'0 HB'0 (solver Alg)
                Hexact X' Y' HwX' HwY' HX'0) as [HsT Hne].
    { intros k. now rewrite HX', HY', E. }
    pose proof (nonzero_length HX'0) as HlX'.
    destruct (Nat.le_gt_cases T (length X' - 1 + (length A' - 1))) as [Hle|Hgt].
    + unfold order. lia.
    + exfalso. apply Hne.
      apply (@lclm_search_first A' B' HA'0 HB'0 (solver Alg) fuel T v Hs1);
        lia.
Qed.

(** ** The annihilator of an associate *)

Lemma wsum_nil_l (X : Type) (f : X -> K Alg) (l : list X) : wsum [] f l = 0.
Proof. reflexivity. Qed.

Lemma wsum_nil_r (X : Type) (w : list (K Alg)) (f : X -> K Alg) :
  wsum w f [] = 0.
Proof. unfold wsum. simpl. apply kdot_nil_r. Qed.

Lemma last_nth (X : Type) (l : list X) (d : X) :
  last l d = nth (length l - 1) l d.
Proof.
  induction l as [|c l IH]; trivial.
  destruct l as [|e l]; trivial.
  change (last (c :: e :: l) d) with (last (e :: l) d). rewrite IH.
  simpl. now rewrite Nat.sub_0_r.
Qed.

Section Associate.

Variables A B : op Alg.
Hypothesis wf_A : wf A.
Hypothesis wf_B : wf B.
Hypothesis A_order : 2 <= length A.

Variable slv : matrix (K Alg) -> list (list (K Alg)).
Hypothesis slv_sound : solver_sound slv.
Hypothesis slv_exact : solver_exact slv.

Let n : nat := (length A - 1)%nat.

(** The operator [P] is what [D^i * B] leaves modulo [A]. *)
Let good (i : nat) (P : op Alg) : Prop :=
  wf P /\ length P <= n /\
  exists Q, forall k, coef (ore_mul Q A) k + coef P k = coef (Dpow i B) k.

Let rows (Bs : list (op Alg)) : matrix (K Alg) :=
  map (fun p => coeffs p (Z.of_nat n - 1)) Bs.

Lemma A_nonzero' : A <> [].
Proof. intros E. rewrite E in A_order. simpl in A_order. lia. Qed.

Lemma good_next (i : nat) (P : op Alg) :
  good i P ->
  exists P', ore_mod (ore_mul (gen Alg) P) A = Ret P' /\ good (S i) P'.
Proof.
  intros (HP & Hl & Q & HQ).
  destruct (@quo_rem_exact (ore_mul (gen Alg) P) A)
    as (Q' & R & E & HR & Ho & Hid); trivial.
  { now apply wf_ore_mul. }
  { apply A_nonzero'. }
  apply order_lt_length in Ho.
  exists R. unfold ore_mod. rewrite E. split; [reflexivity|].
  unfold good. split; trivial. split; [unfold n; lia|].
  exists (ore_add (ore_mul (gen Alg) Q) Q'). intros k.
  rewrite Dpow_S, <- ore_mul_gen.
  rewrite (@ore_mul_ext_r (gen Alg) (Dpow i B) (ore_add (ore_mul Q A) P))
    by (intros j; rewrite coef_ore_add; symmetry; apply HQ).
  rewrite coef_mul_add_r, coef_mul_add_l, ore_mul_assoc_coef.
  rewrite <- (Hid k). ring.
Qed.

Lemma rows_shape (Bs : list (op Alg)) :
  (forall i, i < length Bs -> good i (nth i Bs [])) ->
  Forall (fun c => length c = n) (rows Bs).
Proof.
  intros H. apply Forall_forall. intros c Hc.
  unfold rows in Hc. apply in_map_iff in Hc. destruct Hc as (p & <- & Hp).
  apply In_nth with (d := []) in Hp. destruct Hp as (i & Hi & <-).
  destruct (H i Hi) as (_ & Hl & _).
  replace (Z.of_nat n - 1)%Z with (Z.of_nat (n - 1)) by (unfold n; lia).
  replace n with (S (n - 1)) at 2 by (unfold n; lia).
  apply length_coeffs. unfold n in *. lia.
Qed.

Lemma rows_ncols (Bs : list (op Alg)) :
  Bs <> [] -> (forall i, i < length Bs -> good i (nth i Bs [])) ->
  ncols (rows Bs) = n.
Proof.
  intros Hn H. pose proof (rows_shape H) as Hs.
  destruct Bs as [|p Bs]; [congruence|].
  simpl in *. now inversion Hs.
Qed.

Lemma aoa_loop_spec (fuel : nat) (Bs : list (op Alg)) :
  Bs <> [] -> (forall i, i < length Bs -> good i (nth i Bs [])) ->
  length Bs <= S n -> (S n - length Bs <= fuel)%nat ->
  exists v Bs',
    aoa_loop fuel slv A (last Bs []) (Z.of_nat n) (rows Bs)
             (slv (transpose 0 (rows Bs))) = Ret v /\
    Bs' <> [] /\ (forall i, i < length Bs' -> good i (nth i Bs' [])) /\
    length Bs' <= S n /\ In v (slv (transpose 0 (rows Bs'))).
Proof.
  revert Bs. induction fuel as [|fuel IH]; intros Bs Hn Hgood Hlen Hfuel.
  - assert (Hl : length Bs = S n) by lia.
    assert (Hne : slv (transpose 0 (rows Bs)) <> []).
    { apply slv_exact; [apply rectangular_transpose|].
      apply wide_matrix_kernel; [apply rectangular_transpose|].
      rewrite length_transpose, ncols_transpose;
        rewrite (rows_ncols Hn Hgood); unfold rows; try rewrite length_map;
        unfold n in *; lia. }
    destruct (slv (transpose 0 (rows Bs))) as [|v rest] eqn:E; [congruence|].
    exists v, Bs. rewrite E.
    split; [reflexivity|]. split; trivial. split; trivial. split; trivial.
    now left.
  - destruct (slv (transpose 0 (rows Bs))) as [|v rest] eqn:E.
    + assert (Hl : length Bs <= n).
      { destruct (Nat.le_gt_cases (length Bs) n) as [H|H]; trivial. exfalso.
        assert (Hne : slv (transpose 0 (rows Bs)) <> []).
        { apply slv_exact; [apply rectangular_transpose|].
          apply wide_matrix_kernel; [apply rectangular_transpose|].
          rewrite length_transpose, ncols_transpose;
            rewrite (rows_ncols Hn Hgood); unfold rows; try rewrite length_map;
            unfold n in *; lia. }
        congruence. }
      assert (HlB : 1 <= length Bs) by (destruct Bs; simpl; [congruence | lia]).
      assert (Hlast : good (length Bs - 1) (last Bs [])).
      { rewrite last_nth. apply Hgood. lia. }
      destruct (good_next Hlast) as (P' & EP & HP').
      replace (S (length Bs - 1)) with (length Bs) in HP' by lia.
      cbn [aoa_loop]. rewrite EP. cbn [bind].
      assert (Erows : rows Bs ++ [coeffs P' (Z.of_nat n - 1)] = rows (Bs ++ [P']))
        by (unfold rows; now rewrite map_app).
      rewrite Erows.
      destruct (IH (Bs ++ [P'])) as (v' & Bs' & Ev & H1 & H2 & H3 & H4).
      * destruct Bs; discriminate.
      * intros i Hi. rewrite length_app in Hi. simpl in Hi.
        destruct (Nat.lt_ge_cases i (length Bs)) as [H|H].
        -- rewrite app_nth1 by trivial. now apply Hgood.
        -- assert (i = length Bs) by lia. subst i.
           rewrite app_nth2, Nat.sub_diag by lia. exact HP'.
      * rewrite length_app. cbn [length]. lia.
      * rewrite length_app. cbn [length]. lia.
      * rewrite last_last in Ev. exists v', Bs'. auto.
    + exists v, Bs. rewrite E.
      split; [destruct fuel; reflexivity|]. split; trivial. split; trivial.
      split; trivial. now left.
Qed.

(** A combination of operators that are divisible by [A] up to
    remainders is divisible by [A] up to the combination of the
    remainders. *)
Lemma combination_divisible (vs : list (K Alg)) (Ps Rs : list (op Alg)) :
  length Ps = length Rs ->
  (forall i, i < length Ps ->
     exists Q, forall k, coef (ore_mul Q A) k + coef (nth i Rs []) k
                         = coef (nth i Ps []) k) ->
  exists X, forall k,
    coef (ore_mul X A) k + wsum vs (fun p => coef p k) Rs
    = wsum vs (fun p => coef p k) Ps.
Proof.
  revert vs Rs. induction Ps as [|P Ps IH]; intros vs Rs Hl H.
  - destruct Rs; [|discriminate]. exists (ore_zero Alg). intros k.
    rewrite !wsum_nil_r, ore_mul_zero_l. unfold ore_zero.
    rewrite coef_nil. ring.
  - destruct Rs as [|R Rs]; [discriminate|].
    destruct vs as [|v vs].
    + exists (ore_zero Alg). intros k.
      rewrite !wsum_nil_l, ore_mul_zero_l. unfold ore_zero.
      rewrite coef_nil. ring.
    + destruct (H O) as [Q HQ]; [simpl; lia|]. cbn [nth] in HQ.
      destruct (IH vs Rs) as [X HX].
      { simpl in Hl. lia. }
      { intros i Hi. apply (H (S i)). simpl. lia. }
      exists (ore_add (ore_scal v Q) X). intros k.
      rewrite !wsum_cons, coef_mul_add_l, coef_scal_mul.
      pose proof (HX k) as E1. pose proof (HQ k) as E2. unfold op in *.
      rewrite <- E1, <- E2. ring.
Qed.

Lemma associate_kernel (Bs : list (op Alg)) (v : list (K Alg)) :
  Bs <> [] -> (forall i, i < length Bs -> good i (nth i Bs [])) ->
  length Bs <= S n -> In v (slv (transpose 0 (rows Bs))) ->
  mkop v <> [] /\ length (mkop v) <= S n /\
  exists X, forall k, coef (ore_mul X A) k = coef (ore_mul (mkop v) B) k.
Proof.
  intros Hn Hgood Hlen Hin.
  apply slv_sound in Hin; [|apply rectangular_transpose].
  destruct Hin as [Hker (x & Hx & Hx0)].
  pose proof (rows_ncols Hn Hgood) as Hnc.
  apply in_kernel_transpose in Hker; [|rewrite Hnc; unfold n; lia].
  destruct Hker as [Hlv Hk]. rewrite Hnc in Hk.
  unfold rows in Hlv. rewrite length_map in Hlv.
  split; [|split].
  - intros E. apply Hx0. now apply (mkop_nil_zero E).
  - pose proof (length_mkop_le v). lia.
  - assert (HlB : 1 <= length Bs) by (destruct Bs; simpl; [congruence | lia]).
    destruct (@combination_divisible v (shifted B (length v - 1)) Bs) as [X HX].
    { rewrite length_shifted. lia. }
    { intros i Hi. rewrite length_shifted in Hi.
      destruct (Hgood i) as (_ & _ & Q & HQ); [lia|].
      exists Q. intros k. rewrite HQ. unfold shifted. f_equal. symmetry.
      etransitivity;
        [apply (@nth_map_lt _ _ (fun j => Dpow j B) _ i O);
         rewrite length_seq; lia|].
      now rewrite seq_nth by lia. }
    exists X. intros k. rewrite coef_mkop_mul, <- (HX k).
    assert (E0 : wsum v (fun p => coef p k) Bs = 0).
    { destruct (Nat.lt_ge_cases k n) as [Hlt|Hge].
      - specialize (Hk k Hlt). unfold rows, wsum in Hk. rewrite map_map in Hk.
        fold (wsum v (fun p => coord k (coeffs p (Z.of_nat n - 1))) Bs) in Hk.
        rewrite (@wsum_ext _ v _ (fun p => coef p k)) in Hk
          by (intros; apply coord_coeffs).
        exact Hk.
      - apply wsum_zero. intros p Hp.
        apply In_nth with (d := []) in Hp. destruct Hp as (i & Hi & <-).
        destruct (Hgood i Hi) as (_ & Hl & _).
        apply coef_overflow. exact (Nat.le_trans _ _ _ Hl Hge). }
    rewrite E0. ring.
Qed.

End Associate.

(** For an operator [self] of order at least 1, a nonzero [other], a
    solver that keeps its contract and a budget of [order(self)]
    iterations, [annihilator_of_associate] returns a nonzero operator
    [L] of order at most [order(self)] such that [self] divides
    [L * other] from the right. *)
Theorem annihilator_of_associate_spec (a b : list (K Alg)) (fuel : nat) :
  solver_sound (solver Alg) -> solver_exact (solver Alg) ->
  (1 <= order (mkop a))%Z -> mkop b <> ore_zero Alg ->
  (order (mkop a) <= Z.of_nat fuel)%Z ->
  exists L,
    annihilator_of_associate fuel (mkop a) (mkop b) None = Ret L /\
    L <> ore_zero Alg /\ (order L <= order (mkop a))%Z /\
    rdivides (mkop a) (ore_mul L (mkop b)).
Proof.
  intros Hsound Hexact Ha Hb Hfuel.
  set (A := mkop a) in *. set (B := mkop b) in *.
  assert (HA : wf A) by apply wf_mkop.
  assert (HB : wf B) by apply wf_mkop.
  assert (HlA : 2 <= length A) by (unfold order in Ha; lia).
  assert (HA0 : A <> []) by (intros E; rewrite E in HlA; simpl in HlA; lia).
  assert (HB0' : B <> []) by exact Hb.
  unfold annihilator_of_associate.
  assert (is_zero A = false) as -> by (destruct A; simpl; congruence).
  assert (is_zero B = false) as -> by (destruct B; simpl; congruence).
  destruct (@quo_rem_exact B A) as (Q0 & B0 & E & HB0 & Ho & Hid); trivial.
  apply order_lt_length in Ho.
  unfold ore_mod at 1. rewrite E. cbn [bind snd].
  assert (Hgood0 : forall i, i < length [B0] ->
            wf (nth i [B0] []) /\ length (nth i [B0] []) <= (length A - 1)%nat /\
            exists Q, forall k, coef (ore_mul Q A) k + coef (nth i [B0] []) k
                                = coef (Dpow i B) k).
  { intros i Hi. simpl in Hi. assert (i = O) by lia. subst i. cbn [nth].
    split; trivial. split; [lia|]. exists Q0. exact Hid. }
  assert (Eord : order A = Z.of_nat (length A - 1)) by (unfold order; lia).
  rewrite Eord.
  destruct (@aoa_loop_spec A B HA HlA (solver Alg) Hexact fuel [B0])
    as (v & Bs' & Ev & Hn' & Hgood' & Hlen' & Hin); trivial.
  { discriminate. }
  { simpl. lia. }
  { simpl. unfold order in Hfuel. lia. }
  cbn [last map] in Ev. rewrite Ev. cbn [bind].
  edestruct (@associate_kernel A B) with (slv := solver Alg) (Bs := Bs') (v := v)
    as (HL0 & HLl & X & HX); eauto.
  exists (mkop v). split; trivial. split; trivial. split.
  - unfold order. lia.
  - exists X. apply wf_ext; trivial; now apply wf_ore_mul.
Qed.

(** ** The symmetric product: the size of the table bounds the loop *)

Lemma length_table_row (a b : nat) (T : list (list (K Alg))) :
  length (table_row a b T) = (a * b)%nat.
Proof.
  unfold table_row.
  assert (H : forall l : list nat,
            length (flat_map (fun i => map (fun j => tget T i j) (seq 0 b)) l)
            = (length l * b)%nat).
  { induction l as [|i l IH]; trivial.
    simpl. rewrite length_app, length_map, length_seq, IH. reflexivity. }
  rewrite H, length_seq. reflexivity.
Qed.

Section Product.

Variable slv : matrix (K Alg) -> list (list (K Alg)).
Hypothesis slv_sound : solver_sound slv.
Hypothesis slv_exact : solver_exact slv.

Variable pr : K Alg * K Alg * K Alg.
Variables Ared Bred : list (K Alg).
Variables a b : nat.
Hypothesis ab_pos : 1 <= (a * b)%nat.

Lemma sp_wide (mat : matrix (K Alg)) :
  mat <> [] -> Forall (fun row => length row = (a * b)%nat) mat ->
  (a * b < length mat)%nat -> slv (transpose 0 mat) <> [].
Proof.
  intros Hn Hrows Hwide.
  assert (Hnc : ncols mat = (a * b)%nat).
  { destruct mat as [|row mat]; [congruence|]. simpl. now inversion Hrows. }
  apply slv_exact; [apply rectangular_transpose|].
  apply wide_matrix_kernel; [apply rectangular_transpose|].
  rewrite length_transpose, ncols_transpose; lia.
Qed.

Lemma sp_loop_spec (fuel : nat) (T : list (list (K Alg))) (mat : matrix (K Alg)) :
  mat <> [] -> Forall (fun row => length row = (a * b)%nat) mat ->
  length mat <= S (a * b) -> (S (a * b) - length mat <= fuel)%nat ->
  exists v mat',
    sp_loop fuel slv pr Ared Bred a b T mat (slv (transpose 0 mat))
    = Ret (mkop v) /\
    mat' <> [] /\ Forall (fun row => length row = (a * b)%nat) mat' /\
    length mat' <= S (a * b) /\ In v (slv (transpose 0 mat')).
Proof.
  revert T mat. induction fuel as [|fuel IH]; intros T mat Hn Hrows Hlen Hfuel.
  - pose proof (@sp_wide mat Hn Hrows) as Hne.
    destruct (slv (transpose 0 mat)) as [|v rest] eqn:E.
    + exfalso. apply Hne; [lia | reflexivity].
    + exists v, mat. rewrite E.
      split; [reflexivity|]. split; trivial. split; trivial. split; trivial.
      now left.
  - destruct (slv (transpose 0 mat)) as [|v rest] eqn:E.
    + assert (Hl : length mat <= (a * b)%nat).
      { destruct (Nat.le_gt_cases (length mat) (a * b)) as [H|H]; trivial.
        exfalso. now apply (@sp_wide mat Hn Hrows H). }
      cbn [sp_loop].
      destruct (IH (reduce_table Ared Bred a b (push pr a b T))
                   (mat ++ [table_row a b
                              (reduce_table Ared Bred a b (push pr a b T))]))
        as (v' & mat' & Ev & H1 & H2 & H3 & H4).
      * destruct mat; discriminate.
      * apply Forall_app. split; trivial.
        constructor; [apply length_table_row | constructor].
      * rewrite length_app. cbn [length]. lia.
      * rewrite length_app. cbn [length]. lia.
      * exists v', mat'. auto.
    + exists v, mat. rewrite E.
      split; [reflexivity|]. split; trivial. split; trivial. split; trivial.
      now left.
Qed.

Lemma sp_kernel (mat : matrix (K Alg)) (v : list (K Alg)) :
  mat <> [] -> Forall (fun row => length row = (a * b)%nat) mat ->
  length mat <= S (a * b) -> In v (slv (transpose 0 mat)) ->
  mkop v <> [] /\ length (mkop v) <= S (a * b).
Proof.
  intros Hn Hrows Hlen Hin.
  assert (Hnc : ncols mat = (a * b)%nat).
  { destruct mat as [|row mat]; [congruence|]. simpl. now inversion Hrows. }
  apply slv_sound in Hin; [|apply rectangular_transpose].
  destruct Hin as [[Hlv _] (x & Hx & Hx0)].
  rewrite ncols_transpose in Hlv by lia.
  split.
  - intros E. apply Hx0. now apply (mkop_nil_zero E).
  - pose proof (length_mkop_le v). lia.
Qed.

End Product.

(** In the general case of [symmetric_product] (both operators of order
    at least 2, a product rule at hand, a solver that keeps its
    contract) the loop ends within [order(A) * order(B)] iterations, and
    the result is a nonzero operator of order at most
    [order(A) * order(B)]. *)
Theorem symmetric_product_bound (a0 b0 : list (K Alg)) (fuel : nat)
  (pr : K Alg * K Alg * K Alg) :
  solver_sound (solver Alg) -> solver_exact (solver Alg) ->
  product_rule Alg = Some pr ->
  (2 <= order (mkop a0))%Z -> (2 <= order (mkop b0))%Z ->
  (order (mkop a0) * order (mkop b0) <= Z.of_nat fuel)%Z ->
  exists L,
    symmetric_product fuel (mkop a0) (mkop b0) None = Ret L /\
    L <> ore_zero Alg /\
    (order L <= order (mkop a0) * order (mkop b0))%Z.
Proof.
  intros Hsound Hexact Hpr Ha Hb Hfuel.
  set (A := mkop a0) in *. set (B := mkop b0) in *.
  assert (HlA : 3 <= length A) by (unfold order in Ha; lia).
  assert (HlB : 3 <= length B) by (unfold order in Hb; lia).
  unfold symmetric_product.
  assert (is_zero A = false) as ->
    by (destruct A as [|x A']; [simpl in HlA; lia | reflexivity]).
  assert (is_zero B = false) as ->
    by (destruct B as [|x B']; [simpl in HlB; lia | reflexivity]).
  cbn [orb].
  assert ((Z.min (order A) (order B) <? 1)%Z = false) as ->
    by (apply Z.ltb_ge; lia).
  assert ((order A =? 1)%Z = false) as -> by (apply Z.eqb_neq; lia).
  cbn [andb]. rewrite Hpr.
  assert (Nat.eqb (Z.to_nat (order B)) 1 = false) as ->
    by (apply Nat.eqb_neq; lia).
  set (a := Z.to_nat (order A)). set (b := Z.to_nat (order B)).
  assert (Hab : 1 <= (a * b)%nat) by (unfold a, b; nia).
  assert (Hfuel' : (a * b <= fuel)%nat) by (unfold a, b; nia).
  match goal with
  | |- exists L, sp_loop _ _ _ ?Ar ?Br _ _ ?T0 ?m0 _ = _ /\ _ =>
      destruct (@sp_loop_spec (solver Alg) Hexact pr Ar Br a b Hab fuel T0 m0)
        as (v & mat' & Ev & H1 & H2 & H3 & H4)
  end.
  - discriminate.
  - constructor; [apply length_table_row | constructor].
  - cbn [length]. lia.
  - cbn [length]. lia.
  - rewrite Ev.
    destruct (@sp_kernel (solver Alg) Hsound a b Hab mat' v H1 H2 H3 H4)
      as [HL0 HLl].
    exists (mkop v). split; trivial. split; trivial.
    unfold order at 1. unfold a, b in HLl. nia.
Qed.


End Theory.

(** C8.  Division by the zero operator raises [ZeroDivisionError], and
    when [B] is not zero and the order of [A] is lower than the order of
    [B], [quo_rem(A, B)] returns [(0, A)]; both in either mode. *)
Theorem quo_rem_degenerate (Alg : OreAlgebra) (A B : op Alg) (fractionFree : bool) :
  quo_rem A (ore_zero Alg) fractionFree = Raise ZeroDivisionError /\
  (is_zero B = false -> (order A < order B)%Z ->
   quo_rem A B fractionFree = Ret (ore_zero Alg, A)).
Proof.
  split; [reflexivity|].
  intros HB Hlt. unfold quo_rem. rewrite HB.
  apply Z.ltb_lt in Hlt. now rewrite Hlt.
Qed.

(** The nesting bound of [symmetric_power_rec] does not matter once it
    is at least the exponent. *)
Lemma symmetric_power_rec_depth (Alg : OreAlgebra) (fuel : nat) (L : op Alg)
  (slv : option (matrix (K Alg) -> list (list (K Alg)))) (d d' : nat) (e : Z) :
  Z.to_nat e <= d -> Z.to_nat e <= d' ->
  symmetric_power_rec d fuel L e slv = symmetric_power_rec d' fuel L e slv.
Proof.
  revert d' e. induction d as [|d IH]; intros d' e Hd Hd'.
  - destruct d' as [|d']; trivial. simpl.
    destruct (e <? 0)%Z eqn:E0; trivial.
    destruct (e =? 0)%Z eqn:E1; trivial.
    destruct (e =? 1)%Z eqn:E2; trivial. lia.
  - destruct d' as [|d'].
    + simpl. destruct (e <? 0)%Z eqn:E0; trivial.
      destruct (e =? 0)%Z eqn:E1; trivial.
      destruct (e =? 1)%Z eqn:E2; trivial. lia.
    + simpl. destruct (e <? 0)%Z eqn:E0; trivial.
      destruct (e =? 0)%Z eqn:E1; trivial.
      destruct (e =? 1)%Z eqn:E2; trivial.
      assert (2 <= e)%Z by lia.
      destruct (e mod 2 =? 1)%Z.
      * rewrite (IH d' (e - 1)%Z) by lia. reflexivity.
      * assert (e / 2 < e)%Z by (apply Z.div_lt; lia).
        assert (0 <= e / 2)%Z by (apply Z.div_pos; lia).
        rewrite (IH d' (e / 2)%Z) by lia. reflexivity.
Qed.

(** C6.  [symmetric_power(L, n)] raises (a [TypeError]) for a negative
    exponent; for [n = 0] it returns the generator minus its action on 1;
    for [n = 1] it returns [L]; for an even [m > 1] it is the symmetric
    product of [symmetric_power(L, m/2)] with itself, and for an odd
    [k > 1] the symmetric product of [symmetric_power(L, k-1)] with
    [L]. *)
Theorem symmetric_power_spec (Alg : OreAlgebra) (fuel : nat) (L : op Alg)
  (slv : option (matrix (K Alg) -> list (list (K Alg)))) (n m k : Z) :
  ((n < 0)%Z -> symmetric_power fuel L n slv = Raise TypeError) /\
  symmetric_power fuel L 0 slv
  = Ret (ore_sub (gen Alg) (ore_const (ore_call (gen Alg) (K1 Alg) None))) /\
  symmetric_power fuel L 1 slv = Ret L /\
  ((1 < m)%Z -> Z.even m = true ->
   symmetric_power fuel L m slv
   = bind (symmetric_power fuel L (m / 2) slv)
          (fun P => symmetric_product fuel P P slv)) /\
  ((1 < k)%Z -> Z.odd k = true ->
   symmetric_power fuel L k slv
   = bind (symmetric_power fuel L (k - 1) slv)
          (fun P => symmetric_product fuel P L slv)).
Proof.
  unfold symmetric_power. repeat split.
  - intros Hn. destruct (Z.to_nat n); simpl;
      assert ((n <? 0)%Z = true) as -> by (apply Z.ltb_lt; lia); reflexivity.
  - intros Hm Hev.
    destruct (Z.to_nat m) as [|d] eqn:Ed; [lia|]. simpl.
    assert ((m <? 0)%Z = false) as -> by (apply Z.ltb_ge; lia).
    assert ((m =? 0)%Z = false) as -> by (apply Z.eqb_neq; lia).
    assert ((m =? 1)%Z = false) as -> by (apply Z.eqb_neq; lia).
    assert ((m mod 2 =? 1)%Z = false) as ->.
    { apply Z.eqb_neq. rewrite Zmod_even, Hev. lia. }
    assert (m / 2 < m)%Z by (apply Z.div_lt; lia).
    assert (0 <= m / 2)%Z by (apply Z.div_pos; lia).
    rewrite (@symmetric_power_rec_depth Alg fuel L slv d (Z.to_nat (m / 2)))
      by lia.
    reflexivity.
  - intros Hk Hodd.
    destruct (Z.to_nat k) as [|d] eqn:Ed; [lia|]. simpl.
    assert ((k <? 0)%Z = false) as -> by (apply Z.ltb_ge; lia).
    assert ((k =? 0)%Z = false) as -> by (apply Z.eqb_neq; lia).
    assert ((k =? 1)%Z = false) as -> by (apply Z.eqb_neq; lia).
    assert ((k mod 2 =? 1)%Z = true) as ->.
    { apply Z.eqb_eq. rewrite Zmod_odd, Hodd. reflexivity. }
    rewrite (@symmetric_power_rec_depth Alg fuel L slv d (Z.to_nat (k - 1)))
      by lia.
    reflexivity.
Qed.

(** C10.  On degenerate operands [xgcrd] hands back a single operator
    and no cofactors: [other] when [self] is zero, [self] when [other] is
    zero, and the one of the algebra when neither is zero and one of them
    lies in the base ring. *)
Theorem xgcrd_degenerate (Alg : OreAlgebra) (self other : op Alg)
  (prs : option strategy) :
  xgcrd (ore_zero Alg) other prs = Ret (XOperator other) /\
  xgcrd self (ore_zero Alg) prs = Ret (XOperator self) /\
  (is_zero self = false -> is_zero other = false ->
   in_base_ring self || in_base_ring other = true ->
   xgcrd self other prs = Ret (XOperator (ore_one Alg))).
Proof.
  repeat split.
  - unfold xgcrd. destruct self; reflexivity.
  - intros H1 H2 H3. unfold xgcrd. now rewrite H1, H2, H3.
Qed.

(** C4.  Without a supplied strategy the driver of [gcrd] and [xgcrd]
    starts with [classic] over a field and with [improved] otherwise.
    When a reduction step reports [ok = false] the iteration does not
    raise: it keeps the pair, switches to [primitive], and every later
    configuration of the loop has the strategy [primitive]. *)
Theorem prs_fallback (Alg : OreAlgebra) (cofactors : bool)
  (c : prs_config Alg) (o : prs_out Alg) :
  start_strategy Alg None
  = (if is_field (base Alg) then Classic else Improved) /\
  (prs_step (pc_prs c) (pc_r c) (pc_aux c) = Ret o -> po_ok o = false ->
   exists c',
     prs_iter cofactors c = Ret c' /\
     pc_prs c' = Primitive /\ pc_r c' = pc_r c /\
     forall c'', prs_reach cofactors c' c'' -> pc_prs c'' = Primitive).
Proof.
  split; [reflexivity|].
  intros Hstep Hok.
  exists {| pc_r := pc_r c; pc_prs := Primitive; pc_aux := po_aux o;
            pc_cof := pc_cof c |}.
  repeat split.
  - unfold prs_iter. rewrite Hstep. simpl. now rewrite Hok.
  - intros c'' Hr. induction Hr as [|c1 c2 Hr IH Hnz Hit]; trivial.
    unfold prs_iter in Hit.
    destruct (prs_step (pc_prs c1) (pc_r c1) (pc_aux c1)) as [o1| |];
      simpl in Hit; try discriminate.
    destruct (po_ok o1); simpl in Hit.
    + destruct (pc_cof c1) as [[a11 a12] [a21 a22]].
      injection Hit as <-. exact IH.
    + now injection Hit as <-.
Qed.

(** * The two algebras obey the laws *)

Lemma QQ_field (R : RingOps Qc) :
  field_theory (K0 (const_algebra R)) (K1 (const_algebra R))
    (Kadd (const_algebra R)) (Kmul (const_algebra R))
    (Ksub (const_algebra R)) (Kopp (const_algebra R))
    (Kdiv (const_algebra R)) (Kinv (const_algebra R)) eq.
Proof. exact Qcft. Qed.

Lemma QQ_eqb (R : RingOps Qc) (x y : K (const_algebra R)) :
  Keqb (const_algebra R) x y = true <-> x = y.
Proof.
  simpl. unfold Qc_eqb. rewrite Qeq_bool_iff. split.
  - apply Qc_is_canon.
  - now intros ->.
Qed.

Lemma QQ_sigma_nonzero (R : RingOps Qc) (x : K (const_algebra R)) :
  x <> K0 (const_algebra R) -> sigma (const_algebra R) x <> K0 (const_algebra R).
Proof. trivial. Qed.

Lemma QQ_delta_add (R : RingOps Qc) (x y : K (const_algebra R)) :
  delta (const_algebra R) (Kadd (const_algebra R) x y)
  = Kadd (const_algebra R) (delta (const_algebra R) x) (delta (const_algebra R) y).
Proof. apply Qc_is_canon. reflexivity. Qed.

Lemma QQ_delta_mul (R : RingOps Qc) (x y : K (const_algebra R)) :
  delta (const_algebra R) (Kmul (const_algebra R) x y)
  = Kadd (const_algebra R)
      (Kmul (const_algebra R) (sigma (const_algebra R) x) (delta (const_algebra R) y))
      (Kmul (const_algebra R) (delta (const_algebra R) x) y).
Proof.
  simpl. change (Qc_of_Z 0) with 0%Qc. ring.
Qed.

Lemma Qc_floor_of_Z (z : Z) : Qc_floor (Qc_of_Z z) = z.
Proof.
  unfold Qc_floor, Qc_of_Z.
  change (Qfloor (Qred (inject_Z z)) = z).
  rewrite (Qfloor_comp _ _ (Qred_correct (inject_Z z))). apply Qfloor_Z.
Qed.

Lemma Qc_of_Z_nonzero (z : Z) : z <> 0%Z -> Qc_of_Z z <> Qc_of_Z 0.
Proof.
  intros Hz H. apply (f_equal Qc_floor) in H. now rewrite !Qc_floor_of_Z in H.
Qed.

Lemma QQ_denominator_nonzero (R : RingOps Qc) (A : op (const_algebra R)) :
  denominator (base (const_algebra R)) A <> K0 (const_algebra R).
Proof.
  unfold denominator. destruct (is_field (base (const_algebra R))); simpl.
  - apply Qc_of_Z_nonzero. induction (coefficients A) as [|c l IH]; simpl.
    + discriminate.
    + rewrite Qc_floor_of_Z. intros H. apply Z.lcm_eq_0 in H.
      destruct H; [discriminate | contradiction].
  - now apply Qc_of_Z_nonzero.
Qed.

Lemma Q_sum_squares (a b : Q) :
  Qeq (Qplus (Qmult a a) (Qmult b b)) (inject_Z 0) ->
  Qeq a (inject_Z 0) /\ Qeq b (inject_Z 0).
Proof.
  destruct a as [na da], b as [nb db]. unfold Qeq. simpl.
  intros H. split; nia.
Qed.

Lemma Qc_sum_squares (a b : Qc) :
  Qcplus (Qcmult a a) (Qcmult b b) = Qc_of_Z 0 -> a = Qc_of_Z 0 /\ b = Qc_of_Z 0.
Proof.
  intros H. unfold Qcplus, Qcmult, Qc_of_Z in H.
  apply Q2Qc_eq_iff in H.
  assert (E : Qeq (Qplus (Qmult (this a) (this a)) (Qmult (this b) (this b)))
                  (inject_Z 0)).
  { rewrite <- H. apply Qplus_comp; symmetry; apply Qred_correct. }
  apply Q_sum_squares in E. destruct E as [Ea Eb].
  split; apply Qc_is_canon; simpl; trivial.
Qed.

Lemma QI_field :
  field_theory (K0 QI_S) (K1 QI_S) (Kadd QI_S) (Kmul QI_S) (Ksub QI_S)
    (Kopp QI_S) (Kdiv QI_S) (Kinv QI_S) eq.
Proof.
  change (field_theory (Q2Qc 0, Q2Qc 0) (Q2Qc 1, Q2Qc 0)
            qi_add qi_mul qi_sub qi_opp qi_div qi_inv eq).
  constructor.
  - constructor; intros; unfold qi_add, qi_mul, qi_sub, qi_opp;
      repeat match goal with x : (_ * _)%type |- _ => destruct x end; simpl;
      try reflexivity; try (f_equal; ring).
  - intros H. injection H. intros H1. discriminate.
  - reflexivity.
  - intros [a b] H. unfold qi_mul, qi_inv, qi_norm. simpl.
    assert (Hn : Qcplus (Qcmult a a) (Qcmult b b) <> Q2Qc 0).
    { intros E. apply Qc_sum_squares in E. destruct E; subst. now apply H. }
    f_equal; field; trivial.
Qed.

Lemma QI_eqb (x y : K QI_S) : Keqb QI_S x y = true <-> x = y.
Proof.
  destruct x as [a b], y as [c d]. simpl. unfold qi_eqb. simpl.
  rewrite andb_true_iff. unfold Qc_eqb. rewrite !Qeq_bool_iff. split.
  - intros [H1 H2]. f_equal; now apply Qc_is_canon.
  - intros H. injection H as -> ->. split; reflexivity.
Qed.

Lemma QI_sigma_1 : sigma QI_S (K1 QI_S) = K1 QI_S.
Proof. simpl. unfold qi_conj, qi_of_Z. simpl. f_equal. Qed.

Lemma QI_delta_1 : delta QI_S (K1 QI_S) = K0 QI_S.
Proof.
  simpl. unfold qi_sub, qi_add, qi_opp, qi_conj, qi_of_Z. simpl.
  f_equal; now apply Qc_is_canon.
Qed.

Lemma QI_sigma_nonzero (x : K QI_S) :
  x <> K0 QI_S -> sigma QI_S x <> K0 QI_S.
Proof.
  destruct x as [a b]. intros H E. apply H.
  change (sigma QI_S (a, b)) with (a, Qcopp b) in E.
  change (K0 QI_S) with (Q2Qc 0, Q2Qc 0) in *.
  pose proof (f_equal fst E) as E1. pose proof (f_equal snd E) as E2.
  cbn [fst snd] in E1, E2. f_equal; trivial.
  transitivity (Qcopp (Qcopp b)); [ring | rewrite E2; ring].
Qed.

Lemma QI_sigma_add (x y : K QI_S) :
  sigma QI_S (Kadd QI_S x y) = Kadd QI_S (sigma QI_S x) (sigma QI_S y).
Proof.
  destruct x, y. simpl. unfold qi_conj, qi_add. simpl. f_equal. ring.
Qed.

Lemma QI_sigma_mul (x y : K QI_S) :
  sigma QI_S (Kmul QI_S x y) = Kmul QI_S (sigma QI_S x) (sigma QI_S y).
Proof.
  destruct x, y. simpl. unfold qi_conj, qi_mul. simpl. f_equal; ring.
Qed.

Lemma QI_delta_add (x y : K QI_S) :
  delta QI_S (Kadd QI_S x y) = Kadd QI_S (delta QI_S x) (delta QI_S y).
Proof.
  destruct x, y. simpl. unfold qi_sub, qi_conj, qi_add, qi_opp. simpl.
  f_equal; ring.
Qed.

Lemma QI_delta_mul (x y : K QI_S) :
  delta QI_S (Kmul QI_S x y)
  = Kadd QI_S (Kmul QI_S (sigma QI_S x) (delta QI_S y))
              (Kmul QI_S (delta QI_S x) y).
Proof.
  destruct x, y. simpl. unfold qi_sub, qi_conj, qi_add, qi_mul, qi_opp. simpl.
  f_equal; ring.
Qed.

Lemma quo_rem_spec_witness :
  exists Q R,
    quo_rem (zop QQ_S [1; 0; 3]%Z) (zop QQ_S [1; 2]%Z) false = Ret (Q, R) /\
    ore_add (ore_mul Q (zop QQ_S [1; 2]%Z)) R = zop QQ_S [1; 0; 3]%Z /\
    (R = ore_zero QQ_S \/ (order R < order (zop QQ_S [1; 2]%Z))%Z) /\
    floordiv (zop QQ_S [1; 0; 3]%Z) (zop QQ_S [1; 2]%Z) = Ret Q /\
    ore_mod (zop QQ_S [1; 0; 3]%Z) (zop QQ_S [1; 2]%Z) = Ret R.
Proof.
  apply (@quo_rem_spec QQ_S (QQ_field QQ_ring) (@QQ_eqb QQ_ring)
           eq_refl eq_refl (@QQ_sigma_nonzero QQ_ring)).
  vm_compute. discriminate.
Defined.

Lemma quo_rem_degenerate_witness :
  quo_rem (zop QQ_S [1; 2]%Z) (ore_zero QQ_S) false = Raise ZeroDivisionError /\
  quo_rem (zop QQ_S [1; 2]%Z) (zop QQ_S [1; 0; 3]%Z) false
  = Ret (ore_zero QQ_S, zop QQ_S [1; 2]%Z).
Proof.
  destruct (@quo_rem_degenerate QQ_S (zop QQ_S [1; 2]%Z) (zop QQ_S [1; 0; 3]%Z) false)
    as [H1 H2].
  split; [exact H1|]. apply H2.
  - vm_compute. reflexivity.
  - vm_compute. reflexivity.
Defined.


(** In the fraction-free mode the quotient collected before the loop
    starts over is kept: over [ZZ], [quo_rem(3*S, 2*S, fractionFree=True)]
    returns [(5/2, 0)], and [(5/2) * (2*S) + 0] is [5*S]. *)
Lemma quo_rem_restart_keeps_quotient :
  exists Q R,
    quo_rem (zop ZZ_S [0; 3]%Z) (zop ZZ_S [0; 2]%Z) true = Ret (Q, R) /\
    Q = ore_const (Kdiv ZZ_S (of_int ZZ_S 5) (of_int ZZ_S 2)) /\
    R = ore_zero ZZ_S /\
    ore_add (ore_mul Q (zop ZZ_S [0; 2]%Z)) R = zop ZZ_S [0; 5]%Z /\
    ore_add (ore_mul Q (zop ZZ_S [0; 2]%Z)) R <> zop ZZ_S [0; 3]%Z.
Proof.
  exists (ore_const (Kdiv ZZ_S (of_int ZZ_S 5) (of_int ZZ_S 2))), (ore_zero ZZ_S).
  split; [vm_compute; reflexivity|].
  split; [reflexivity|]. split; [reflexivity|]. split.
  - apply (op_eqb_eq (@QQ_eqb ZZ_ring)). vm_compute. reflexivity.
  - intros E. apply (op_eqb_eq (@QQ_eqb ZZ_ring)) in E. vm_compute in E.
    discriminate.
Qed.

Lemma quo_rem_exact_never_stagnates_witness :
  ~ stagnates (qr_qlcs (zop ZZ_S [0; 3]%Z) (zop ZZ_S [0; 2]%Z))
      (qr_init (zop ZZ_S [0; 3]%Z) (zop ZZ_S [0; 2]%Z) false).
Proof.
  apply (@quo_rem_exact_never_stagnates ZZ_S (QQ_field ZZ_ring) (@QQ_eqb ZZ_ring)
           eq_refl eq_refl (@QQ_sigma_nonzero ZZ_ring)
           (map (of_int ZZ_S) [0; 3]%Z) (map (of_int ZZ_S) [0; 2]%Z)).
  - vm_compute. discriminate.
  - apply reach_init.
  - vm_compute. reflexivity.
Defined.

Lemma xgcrd_degenerate_witness :
  xgcrd (ore_zero QQ_S) (zop QQ_S [1; 2]%Z) None
  = Ret (XOperator (zop QQ_S [1; 2]%Z)) /\
  xgcrd (zop QQ_S [5]%Z) (ore_zero QQ_S) None
  = Ret (XOperator (zop QQ_S [5]%Z)) /\
  xgcrd (zop QQ_S [5]%Z) (zop QQ_S [1; 2]%Z) None
  = Ret (XOperator (ore_one QQ_S)).
Proof.
  destruct (@xgcrd_degenerate QQ_S (zop QQ_S [5]%Z) (zop QQ_S [1; 2]%Z) None)
    as (H1 & H2 & H3).
  split; [exact H1 | split; [exact H2 |]].
  apply H3; vm_compute; reflexivity.
Defined.

Lemma step_fails_out (Alg : OreAlgebra) (c : prs_config Alg) :
  step_fails c = true ->
  exists o, prs_step (pc_prs c) (pc_r c) (pc_aux c) = Ret o /\ po_ok o = false.
Proof.
  unfold step_fails.
  destruct (prs_step (pc_prs c) (pc_r c) (pc_aux c)) as [o| |];
    try discriminate.
  intros H. exists o. split; trivial. now destruct (po_ok o).
Qed.

Lemma prs_fallback_witness :
  start_strategy ZZ_S None
  = (if is_field (base ZZ_S) then Classic else Improved) /\
  exists c',
    prs_iter false improved_stuck = Ret c' /\
    pc_prs c' = Primitive /\ pc_r c' = pc_r improved_stuck /\
    forall c'', prs_reach false c' c'' -> pc_prs c'' = Primitive.
Proof.
  assert (Hf : step_fails improved_stuck = true) by (vm_compute; reflexivity).
  destruct (step_fails_out Hf) as (o & E & Hok).
  destruct (@prs_fallback ZZ_S false improved_stuck o) as [H1 H2].
  split; [exact H1 | exact (H2 E Hok)].
Defined.

(** C2, on the code.  Over [QQ], with the default strategy, [xgcrd] of
    [S] and [S^2 + 1] returns a triple [(G, S, T)] for which
    [S*self + T*other] is not [G]: the operands were exchanged because
    [self] has the lower order, and the cofactors are those of the
    exchanged pair. *)
Lemma xgcrd_cofactors_swapped :
  exists G S T,
    xgcrd (zop QQ_S [0; 1]%Z) (zop QQ_S [1; 0; 1]%Z) None = Ret (XTriple G S T) /\
    ore_add (ore_mul S (zop QQ_S [0; 1]%Z)) (ore_mul T (zop QQ_S [1; 0; 1]%Z)) <> G.
Proof.
  apply (bezout_holds_false (@QQ_eqb QQ_ring)). vm_compute. reflexivity.
Qed.

(** The triple is right for the operands in the other order. *)
Lemma xgcrd_cofactors_unswapped :
  exists G S T,
    xgcrd (zop QQ_S [1; 0; 1]%Z) (zop QQ_S [0; 1]%Z) None = Ret (XTriple G S T) /\
    ore_add (ore_mul S (zop QQ_S [1; 0; 1]%Z)) (ore_mul T (zop QQ_S [0; 1]%Z)) = G.
Proof.
  apply (bezout_holds_true (@QQ_eqb QQ_ring)). vm_compute. reflexivity.
Qed.

(** With the [primitive] strategy [xgcrd] of [2*S^2 + 2*S] and [2*S + 2]
    over [QQ] returns the primitive part [S + 1] as [G], with cofactors
    that produce [2*S + 2]. *)
Lemma xgcrd_primitive_part_unscaled :
  exists G S T,
    xgcrd (zop QQ_S [0; 2; 2]%Z) (zop QQ_S [2; 2]%Z) (Some Primitive)
    = Ret (XTriple G S T) /\
    ore_add (ore_mul S (zop QQ_S [0; 2; 2]%Z)) (ore_mul T (zop QQ_S [2; 2]%Z))
    <> G.
Proof.
  apply (bezout_holds_false (@QQ_eqb QQ_ring)). vm_compute. reflexivity.
Qed.

(** C9, on the code.  Over [ZZ[x]], [normalize] of
    [(22*w + 1)*D + (44*w + 24)] with [w = 1 + x + ... + x^15] is
    [2*w*D + (4*w + 2)], and [normalize] of that is [w*D + (2*w + 1)],
    another operator: the coefficients have 32 terms, so the content is
    taken to be the gcd of two combinations of them, which is 11 for the
    first operator, whose coefficients have no common factor. *)
Theorem normalize_not_idempotent :
  content (base ZZx_D) heuristic_input false = zq_of_Z 11 /\
  content (base ZZx_D) heuristic_input true = zq_of_Z 1 /\
  normalize heuristic_input false = heuristic_once /\
  normalize (normalize heuristic_input false) false = heuristic_twice /\
  op_eqb (normalize (normalize heuristic_input false) false)
         (normalize heuristic_input false) = false.
Proof.
  vm_compute. repeat split; reflexivity.
Qed.

(** With its default [proof=True], [primitive_part] of the same operator
    is the operator itself, and its content is 1. *)
Lemma primitive_part_heuristic_input :
  primitive_part (base ZZx_D) heuristic_input true = heuristic_input /\
  content (base ZZx_D) (primitive_part (base ZZx_D) heuristic_input true) true
  = K1 ZZx_D.
Proof.
  vm_compute. split; reflexivity.
Qed.

Lemma symmetric_power_spec_witness :
  symmetric_power 8 (zop QQ_S [-2; 0; 1]%Z) (-1) None = Raise TypeError /\
  symmetric_power 8 (zop QQ_S [-2; 0; 1]%Z) 0 None
  = Ret (ore_sub (gen QQ_S) (ore_const (ore_call (gen QQ_S) (K1 QQ_S) None))) /\
  symmetric_power 8 (zop QQ_S [-2; 0; 1]%Z) 1 None = Ret (zop QQ_S [-2; 0; 1]%Z) /\
  symmetric_power 8 (zop QQ_S [-2; 0; 1]%Z) 4 None
  = bind (symmetric_power 8 (zop QQ_S [-2; 0; 1]%Z) (4 / 2) None)
         (fun P => symmetric_product 8 P P None) /\
  symmetric_power 8 (zop QQ_S [-2; 0; 1]%Z) 3 None
  = bind (symmetric_power 8 (zop QQ_S [-2; 0; 1]%Z) (3 - 1) None)
         (fun P => symmetric_product 8 P (zop QQ_S [-2; 0; 1]%Z) None).
Proof.
  destruct (@symmetric_power_spec QQ_S 8 (zop QQ_S [-2; 0; 1]%Z) None
              (-1) 4 3) as (H1 & H2 & H3 & H4 & H5).
  split; [apply H1; lia|].
  split; [exact H2|].
  split; [exact H3|].
  split; [apply H4; [lia | reflexivity] | apply H5; [lia | reflexivity]].
Defined.

Lemma lclm_ladder_terminates_witness :
  exists t v,
    lclm_search 1 (solver QQ_S) (zop QQ_S [-1; 1]%Z) (zop QQ_S [-2; 0; 1]%Z)
    = Ret (t, v) /\
    (Z.max (order (zop QQ_S [-1; 1]%Z)) (order (zop QQ_S [-2; 0; 1]%Z)) <= t)%Z /\
    (t <= order (zop QQ_S [-1; 1]%Z) + order (zop QQ_S [-2; 0; 1]%Z))%Z.
Proof.
  apply (@lclm_ladder_terminates QQ_S (QQ_field QQ_ring) (@QQ_eqb QQ_ring)
           (solver QQ_S)
           (map (of_int QQ_S) [-1; 1]%Z) (map (of_int QQ_S) [-2; 0; 1]%Z) 1).
  - exact (@field_solver_exact QQ_S (QQ_field QQ_ring) (@QQ_eqb QQ_ring)).
  - vm_compute. discriminate.
  - vm_compute. discriminate.
  - vm_compute. discriminate.
Defined.

Lemma xlclm_spec_witness :
  exists L U V,
    lclm 1 (zop QQ_S [-1; 1]%Z) (zop QQ_S [-2; 0; 1]%Z) None = Ret L /\
    xlclm 1 (zop QQ_S [-1; 1]%Z) (zop QQ_S [-2; 0; 1]%Z) = Ret (L, U, V) /\
    ore_mul U (zop QQ_S [-1; 1]%Z) = L /\
    ore_mul V (zop QQ_S [-2; 0; 1]%Z) = L /\
    (order L <= order (zop QQ_S [-1; 1]%Z) + order (zop QQ_S [-2; 0; 1]%Z))%Z.
Proof.
  apply (@xlclm_spec QQ_S (QQ_field QQ_ring) (@QQ_eqb QQ_ring)
           eq_refl eq_refl (@QQ_sigma_nonzero QQ_ring)
           (fun _ _ => eq_refl) (fun _ _ => eq_refl)
           (@QQ_delta_add QQ_ring) (@QQ_delta_mul QQ_ring)
           (map (of_int QQ_S) [-1; 1]%Z) (map (of_int QQ_S) [-2; 0; 1]%Z) 1).
  - exact (@field_solver_sound QQ_S (QQ_field QQ_ring) (@QQ_eqb QQ_ring)).
  - exact (@field_solver_exact QQ_S (QQ_field QQ_ring) (@QQ_eqb QQ_ring)).
  - exact (@QQ_denominator_nonzero QQ_ring).
  - vm_compute. discriminate.
  - vm_compute. discriminate.
  - vm_compute. discriminate.
Defined.

Lemma primitive_part_unit_content_field_witness :
  content (base QQ_S) (primitive_part (base QQ_S) (zop QQ_S [4; 2]%Z) true) true
  = K1 QQ_S.
Proof.
  apply (@primitive_part_unit_content_field QQ_S (QQ_field QQ_ring)
           (@QQ_eqb QQ_ring) (base QQ_S) (map (of_int QQ_S) [4; 2]%Z) true true).
  - reflexivity.
  - vm_compute. discriminate.
Defined.

Lemma normalize_idempotent_field_witness :
  normalize (normalize (zop QQ_S [4; 2]%Z) false) false
  = normalize (zop QQ_S [4; 2]%Z) false.
Proof.
  apply (@normalize_idempotent_field QQ_S (QQ_field QQ_ring) (@QQ_eqb QQ_ring)
           (map (of_int QQ_S) [4; 2]%Z) false).
  - reflexivity.
  - reflexivity.
  - vm_compute. reflexivity.
  - exact (@QQ_denominator_nonzero QQ_ring).
Defined.

(** * The laws at work over the Gaussian rationals *)

Lemma ore_add_laws_witness :
  ore_add skew_A skew_B = ore_add skew_B skew_A /\
  ore_add (ore_add skew_A skew_B) skew_C
  = ore_add skew_A (ore_add skew_B skew_C) /\
  ore_add skew_A (ore_zero QI_S) = skew_A /\
  ore_add skew_A (ore_neg skew_A) = ore_zero QI_S /\
  ore_sub skew_A skew_A = ore_zero QI_S.
Proof.
  apply (@ore_add_laws QI_S QI_field QI_eqb skew_A skew_B skew_C).
  vm_compute. reflexivity.
Defined.

Lemma ore_mul_assoc_witness :
  ore_mul (ore_mul skew_A skew_B) skew_C
  = ore_mul skew_A (ore_mul skew_B skew_C).
Proof.
  apply (@ore_mul_assoc QI_S QI_field QI_eqb QI_sigma_add QI_sigma_mul
           QI_delta_add QI_delta_mul skew_A skew_B skew_C).
  vm_compute. reflexivity.
Defined.

Lemma ore_mul_distr_witness :
  ore_mul (ore_add skew_A skew_B) skew_C
  = ore_add (ore_mul skew_A skew_C) (ore_mul skew_B skew_C) /\
  ore_mul skew_C (ore_add skew_A skew_B)
  = ore_add (ore_mul skew_C skew_A) (ore_mul skew_C skew_B).
Proof.
  apply (@ore_mul_distr QI_S QI_field QI_eqb QI_sigma_add QI_delta_add
           skew_A skew_B skew_C).
  vm_compute. reflexivity.
Defined.

Lemma ore_mul_one_witness :
  ore_mul (ore_one QI_S) skew_A = skew_A /\
  ore_mul skew_A (ore_one QI_S) = skew_A /\
  ore_mul (ore_zero QI_S) skew_A = ore_zero QI_S /\
  ore_mul skew_A (ore_zero QI_S) = ore_zero QI_S.
Proof.
  apply (@ore_mul_one QI_S QI_field QI_eqb QI_sigma_1 QI_delta_1 skew_A).
  vm_compute. reflexivity.
Defined.

Lemma order_ore_mul_witness :
  order (ore_mul skew_A skew_C) = (order skew_A + order skew_C)%Z /\
  ore_mul skew_A skew_C <> ore_zero QI_S.
Proof.
  apply (@order_ore_mul QI_S QI_field QI_eqb QI_sigma_nonzero skew_A skew_C).
  - vm_compute. reflexivity.
  - vm_compute. reflexivity.
  - vm_compute. discriminate.
  - vm_compute. discriminate.
Defined.

Lemma gen_commutation_witness :
  ore_mul (gen QI_S) (ore_const qi_i)
  = ore_add (ore_mul (ore_const (sigma QI_S qi_i)) (gen QI_S))
            (ore_const (delta QI_S qi_i)).
Proof.
  exact (@gen_commutation QI_S QI_field QI_eqb QI_sigma_add QI_delta_add qi_i).
Defined.

Lemma quo_rem_unique_witness :
  quo_rem (ore_add (ore_mul skew_B skew_C) skew_A) skew_C false
  = Ret (skew_B, skew_A) /\
  floordiv (ore_mul skew_B skew_C) skew_C = Ret skew_B /\
  ore_mod (ore_mul skew_B skew_C) skew_C = Ret (ore_zero QI_S).
Proof.
  apply (@quo_rem_unique QI_S QI_field QI_eqb QI_sigma_1 QI_delta_1
           QI_sigma_nonzero skew_B skew_C skew_A).
  - vm_compute. reflexivity.
  - vm_compute. reflexivity.
  - vm_compute. reflexivity.
  - vm_compute. discriminate.
  - vm_compute. reflexivity.
Defined.


Lemma ore_div_spec_witness :
  ore_div (ore_mul skew_B skew_C) skew_C = Ret skew_B /\
  (forall Q, ore_div skew_A skew_C = Ret Q -> ore_mul Q skew_C = skew_A) /\
  (~ rdivides skew_C skew_A -> ore_div skew_A skew_C = Raise ValueError) /\
  ore_div skew_A (ore_zero QI_S) = Raise ZeroDivisionError.
Proof.
  apply (@ore_div_spec QI_S QI_field QI_eqb QI_sigma_1 QI_delta_1
           QI_sigma_nonzero skew_A skew_C skew_B).
  - vm_compute. reflexivity.
  - vm_compute. reflexivity.
  - vm_compute. reflexivity.
  - vm_compute. discriminate.
Defined.

Lemma invert_spec_witness :
  (qi_i <> K0 QI_S ->
   invert (ore_const qi_i) = Ret (ore_const (Kdiv QI_S (K1 QI_S) qi_i))) /\
  ((1 <= order skew_A)%Z -> invert skew_A = Raise ValueError) /\
  invert (ore_zero QI_S) = Raise ZeroDivisionError.
Proof.
  exact (@invert_spec QI_S QI_field QI_eqb QI_sigma_1 QI_delta_1
           QI_sigma_nonzero skew_A qi_i).
Defined.

Lemma monic_spec_witness :
  monic (ore_zero QI_S) = Raise ZeroDivisionError /\
  exists M,
    monic skew_B = Ret M /\ is_monic M = true /\ order M = order skew_B /\
    (forall k, coef M k
               = Kdiv QI_S (coef skew_B k) (leading_coefficient skew_B)) /\
    monic M = Ret M.
Proof.
  apply (@monic_spec QI_S QI_field QI_eqb skew_B).
  - vm_compute. reflexivity.
  - vm_compute. discriminate.
Defined.

Lemma coeffs_spec_witness :
  length (coeffs skew_A 4) = Nat.max (length skew_A) (Z.to_nat (4 + 1)) /\
  (forall k, nth k (coeffs skew_A 4) (K0 QI_S) = coef skew_A k) /\
  mkop (coeffs skew_A 4) = skew_A /\
  coeffs skew_A (-1) = skew_A.
Proof.
  apply (@coeffs_spec QI_S QI_eqb skew_A 4%Z).
  vm_compute. reflexivity.
Defined.

Lemma valuation_spec_witness :
  valuation (ore_zero QI_S) = Ret None /\
  exists v,
    valuation skew_C = Ret (Some v) /\ coef skew_C v <> K0 QI_S /\
    (forall k, k < v -> coef skew_C k = K0 QI_S) /\
    (Z.of_nat v <= order skew_C)%Z.
Proof.
  apply (@valuation_spec QI_S QI_eqb skew_C).
  - vm_compute. reflexivity.
  - vm_compute. discriminate.
Defined.

Lemma is_monomial_spec_witness :
  is_monomial skew_A = true <-> exists d, skew_A = ore_pow (gen QI_S) d.
Proof.
  apply (@is_monomial_spec QI_S QI_field QI_eqb QI_sigma_1 QI_delta_1 skew_A).
  vm_compute. reflexivity.
Defined.

Lemma ore_call_spec_witness :
  ore_call (ore_mul skew_A skew_B) qi_i (Some (delta QI_S))
  = ore_call skew_A (ore_call skew_B qi_i (Some (delta QI_S)))
             (Some (delta QI_S)) /\
  ore_call (ore_add skew_A skew_B) qi_i (Some (delta QI_S))
  = Kadd QI_S (ore_call skew_A qi_i (Some (delta QI_S)))
              (ore_call skew_B qi_i (Some (delta QI_S))) /\
  ore_call (ore_const qi_i) qi_i (Some (delta QI_S)) = Kmul QI_S qi_i qi_i /\
  ore_call (gen QI_S) qi_i (Some (delta QI_S)) = delta QI_S qi_i /\
  ore_call (ore_zero QI_S) qi_i (Some (delta QI_S)) = K0 QI_S.
Proof.
  exact (@ore_call_spec QI_S QI_field QI_eqb QI_sigma_add QI_delta_add
           (delta QI_S) QI_delta_add QI_delta_mul skew_A skew_B qi_i qi_i).
Defined.

Lemma QI_denominator_nonzero (A : op QI_S) :
  denominator (base QI_S) A <> K0 QI_S.
Proof.
  unfold denominator. simpl. intros H.
  apply (f_equal fst) in H. simpl in H. discriminate.
Qed.

Lemma gcrd_classic_spec_witness :
  exists G,
    gcrd (ore_mul skew_B skew_A) (ore_mul skew_C skew_A) None = Ret G /\
    G <> ore_zero QI_S /\
    rdivides G (ore_mul skew_B skew_A) /\ rdivides G (ore_mul skew_C skew_A) /\
    forall C, wf C -> rdivides C (ore_mul skew_B skew_A) ->
              rdivides C (ore_mul skew_C skew_A) -> rdivides C G.
Proof.
  assert (EB : mkop (ore_mul skew_B skew_A) = ore_mul skew_B skew_A)
    by (vm_compute; reflexivity).
  assert (EC : mkop (ore_mul skew_C skew_A) = ore_mul skew_C skew_A)
    by (vm_compute; reflexivity).
  rewrite <- EB, <- EC.
  apply (@gcrd_classic_spec QI_S QI_field QI_eqb QI_sigma_1 QI_delta_1
           QI_sigma_nonzero QI_sigma_add QI_sigma_mul QI_delta_add
           QI_delta_mul (ore_mul skew_B skew_A) (ore_mul skew_C skew_A) None).
  - reflexivity.
  - vm_compute. discriminate.
  - vm_compute. discriminate.
Defined.

Lemma xgcrd_classic_bezout_witness :
  exists G S T,
    xgcrd (mkop (ore_mul skew_B skew_A)) (mkop (ore_mul skew_C skew_A)) None
    = Ret (XTriple G S T) /\ G <> ore_zero QI_S /\
    ((order (mkop (ore_mul skew_C skew_A))
      <= order (mkop (ore_mul skew_B skew_A)))%Z ->
     ore_add (ore_mul S (mkop (ore_mul skew_B skew_A)))
             (ore_mul T (mkop (ore_mul skew_C skew_A))) = G) /\
    ((order (mkop (ore_mul skew_B skew_A))
      < order (mkop (ore_mul skew_C skew_A)))%Z ->
     ore_add (ore_mul S (mkop (ore_mul skew_C skew_A)))
             (ore_mul T (mkop (ore_mul skew_B skew_A))) = G).
Proof.
  apply (@xgcrd_classic_bezout QI_S QI_field QI_eqb QI_sigma_1 QI_delta_1
           QI_sigma_nonzero QI_sigma_add QI_sigma_mul QI_delta_add
           QI_delta_mul (ore_mul skew_B skew_A) (ore_mul skew_C skew_A) None).
  - reflexivity.
  - vm_compute. discriminate.
  - vm_compute. discriminate.
Defined.

Lemma gcrd_exchange_witness :
  gcrd skew_A skew_C (Some Primitive) = gcrd skew_C skew_A (Some Primitive) /\
  xgcrd skew_A skew_C (Some Primitive) = xgcrd skew_C skew_A (Some Primitive).
Proof.
  apply (@gcrd_exchange QI_S skew_A skew_C (Some Primitive)).
  vm_compute. reflexivity.
Defined.

Lemma lclm_minimal_witness :
  exists L,
    lclm 1 (mkop skew_A) (mkop skew_C) None = Ret L /\ L <> ore_zero QI_S /\
    forall X Y,
      ore_mul X (mkop skew_A) = ore_mul Y (mkop skew_C) ->
      ore_mul X (mkop skew_A) <> ore_zero QI_S ->
      (order L <= order (ore_mul X (mkop skew_A)))%Z.
Proof.
  apply (@lclm_minimal QI_S QI_field QI_eqb QI_sigma_nonzero QI_sigma_add
           QI_sigma_mul QI_delta_add QI_delta_mul skew_A skew_C 1).
  - exact (@field_solver_sound QI_S QI_field QI_eqb).
  - exact (@field_solver_exact QI_S QI_field QI_eqb).
  - exact QI_denominator_nonzero.
  - vm_compute. discriminate.
  - vm_compute. discriminate.
  - vm_compute. discriminate.
Defined.

Lemma annihilator_of_associate_spec_witness :
  exists L,
    annihilator_of_associate 2 (mkop skew_C) (mkop skew_A) None = Ret L /\
    L <> ore_zero QI_S /\ (order L <= order (mkop skew_C))%Z /\
    rdivides (mkop skew_C) (ore_mul L (mkop skew_A)).
Proof.
  apply (@annihilator_of_associate_spec QI_S QI_field QI_eqb QI_sigma_1
           QI_delta_1 QI_sigma_nonzero QI_sigma_add QI_sigma_mul QI_delta_add
           QI_delta_mul skew_C skew_A 2).
  - exact (@field_solver_sound QI_S QI_field QI_eqb).
  - exact (@field_solver_exact QI_S QI_field QI_eqb).
  - vm_compute. discriminate.
  - vm_compute. discriminate.
  - vm_compute. discriminate.
Defined.

Lemma symmetric_product_bound_witness :
  exists L,
    symmetric_product 4 (mkop (zop QQ_S [-2; 0; 1]%Z))
                      (mkop (zop QQ_S [-3; 0; 1]%Z)) None = Ret L /\
    L <> ore_zero QQ_S /\
    (order L <= order (mkop (zop QQ_S [-2; 0; 1]%Z))
                * order (mkop (zop QQ_S [-3; 0; 1]%Z)))%Z.
Proof.
  apply (@symmetric_product_bound QQ_S (QQ_field QQ_ring) (@QQ_eqb QQ_ring)
           (zop QQ_S [-2; 0; 1]%Z) (zop QQ_S [-3; 0; 1]%Z) 4
           (Qc_of_Z 0, Qc_of_Z 0, Qc_of_Z 1)).
  - exact (@field_solver_sound QQ_S (QQ_field QQ_ring) (@QQ_eqb QQ_ring)).
  - exact (@field_solver_exact QQ_S (QQ_field QQ_ring) (@QQ_eqb QQ_ring)).
  - reflexivity.
  - vm_compute. discriminate.
  - vm_compute. discriminate.
  - vm_compute. discriminate.
Defined.

